(** * Vocalis front end: capture buffer / voice-activity detector, playback
      queue controller, WAV encoder and the session list throttle.

    A shallow embedding of [frontend/src/services/audio.ts] (class
    [AudioService]) and of the websocket listeners of the session manager
    component ([handleSaveSessionResult] first), with the properties the
    specification states about them and further properties of the code.

    Conventions of the embedding.
    - A JavaScript [number] that can be fractional (samples, energies,
      durations in seconds, thresholds) is a binary64 [float]: Rocq's
      primitive floats are IEEE 754 doubles, so [+], [*], [/], [sqrt] and the
      comparisons are the operations the JavaScript engine performs.
    - A [number] that only ever holds an integer (array lengths, byte
      offsets, [Date.now()] milliseconds, the configured sample rate) is a
      [Z].
    - A [Float32Array] is the list of its elements, an [ArrayBuffer] the
      list of its octets (each a [Z] in [0, 256)).
    - A method of the service is a function from the service state to the
      new state and the list of actions it performed on the outside world
      (events dispatched to listeners, calls of the websocket service, of
      audio nodes and of the timer API), in program order.
    - [console.log] and friends are not modelled. *)

From Stdlib Require Import ZArith List Bool Lia Floats String Ascii.
From stdpp Require Import base option list gmap.
Import ListNotations.

Set Warnings "-inexact-float".
Local Open Scope Z_scope.

(** ** JavaScript numbers and typed views *)

Module JS.

(** The [number] holding the integer [z] (rounded to nearest when [z] has
    more than 53 significant bits). *)
Definition of_Z (z : Z) : float :=
  SF2Prim (binary_normalize prec emax z 0 false).

(** [Math.min(a, b)]: NaN if either is NaN; [-0] counts as smaller than [+0]. *)
Definition Math_min (a b : float) : float :=
  if is_nan a then a
  else if is_nan b then b
  else if (a <? b)%float then a
  else if (b <? a)%float then b
  else if get_sign a then a else b.

(** [Math.max(a, b)]: NaN if either is NaN; [+0] counts as larger than [-0]. *)
Definition Math_max (a b : float) : float :=
  if is_nan a then a
  else if is_nan b then b
  else if (a <? b)%float then b
  else if (b <? a)%float then a
  else if get_sign a then b else a.

(** The mathematical value of a finite float, truncated towards zero
    (ECMAScript's [truncate]); [0] for NaN, the zeros and the infinities,
    which is what the [ToIntN]/[ToUintN] conversions make of them. *)
Definition SFtruncate (x : spec_float) : Z :=
  match x with
  | S754_finite s m e => cond_Zopp s (Z.shiftl (Z.pos m) e)
  | _ => 0
  end.

Definition truncate (x : float) : Z := SFtruncate (Prim2SF x).

(** [ToInt16]: truncate, reduce modulo 2^16, read as two's complement. *)
Definition ToInt16 (x : float) : Z :=
  let int16bit := truncate x mod 65536 in
  if 32768 <=? int16bit then int16bit - 65536 else int16bit.

(** [ToUint8], [ToUint16], [ToUint32] of an integer-valued number. *)
Definition ToUint8 (z : Z) : Z := z mod 256.
Definition ToUint16 (z : Z) : Z := z mod 65536.
Definition ToUint32 (z : Z) : Z := z mod 4294967296.

(** *** ArrayBuffer and DataView *)

Abbreviation ArrayBuffer := (list Z).

(** [new ArrayBuffer(n)]: [n] zero octets. *)
Definition new_ArrayBuffer (n : Z) : ArrayBuffer := replicate (Z.to_nat n) 0.

Definition byteLength (b : ArrayBuffer) : Z := Z.of_nat (length b).

(** The bounds check every [DataView] accessor makes: a [RangeError]
    ([None]) unless the [size] octets at [byteOffset] lie inside the view. *)
Definition inRange (view : ArrayBuffer) (byteOffset size : Z) : bool :=
  (0 <=? byteOffset) && (byteOffset + size <=? byteLength view).

Definition poke (view : ArrayBuffer) (i : Z) (octet : Z) : ArrayBuffer :=
  <[Z.to_nat i := octet]> view.

Definition peek (view : ArrayBuffer) (i : Z) : Z :=
  default 0 (view !! Z.to_nat i).

Definition setUint8 (view : ArrayBuffer) (byteOffset value : Z)
  : option ArrayBuffer :=
  if inRange view byteOffset 1
  then Some (poke view byteOffset (ToUint8 value))
  else None.

(** Little-endian stores ([littleEndian = true] at every call site). *)
Definition store16 (view : ArrayBuffer) (byteOffset bits : Z) : ArrayBuffer :=
  poke (poke view byteOffset (bits mod 256))
       (byteOffset + 1) (bits / 256 mod 256).

Definition setUint16 (view : ArrayBuffer) (byteOffset value : Z)
  : option ArrayBuffer :=
  if inRange view byteOffset 2
  then Some (store16 view byteOffset (ToUint16 value))
  else None.

Definition setInt16 (view : ArrayBuffer) (byteOffset : Z) (value : float)
  : option ArrayBuffer :=
  if inRange view byteOffset 2
  then Some (store16 view byteOffset (ToInt16 value mod 65536))
  else None.

Definition setUint32 (view : ArrayBuffer) (byteOffset value : Z)
  : option ArrayBuffer :=
  if inRange view byteOffset 4
  then
    let bits := ToUint32 value in
    Some (poke (poke (poke (poke view byteOffset (bits mod 256))
                           (byteOffset + 1) (bits / 256 mod 256))
                     (byteOffset + 2) (bits / 65536 mod 256))
               (byteOffset + 3) (bits / 16777216 mod 256))
  else None.

(** Little-endian loads, used to state what a stored field holds. *)
Definition getUint16 (view : ArrayBuffer) (byteOffset : Z) : Z :=
  peek view byteOffset + 256 * peek view (byteOffset + 1).

Definition getInt16 (view : ArrayBuffer) (byteOffset : Z) : Z :=
  let u := getUint16 view byteOffset in
  if 32768 <=? u then u - 65536 else u.

Definition getUint32 (view : ArrayBuffer) (byteOffset : Z) : Z :=
  peek view byteOffset + 256 * peek view (byteOffset + 1)
  + 65536 * peek view (byteOffset + 2)
  + 16777216 * peek view (byteOffset + 3).

(** [s.charCodeAt(i)] for each [i], for the ASCII literals of the source. *)
Definition charCodes (s : string) : list Z :=
  map (fun c => Z.of_N (N_of_ascii c)) (list_ascii_of_string s).

End JS.


(** ** Comparisons of binary64 numbers *)

Section FloatComparisons.

Lemma SFcompare_antisym (x y : spec_float) :
  SFcompare y x = option_map CompOpp (SFcompare x y).
Proof.
  destruct x as [sx|sx| |sx mx ex], y as [sy|sy| |sy my ey]; cbn;
    try reflexivity;
    try (destruct sx; reflexivity);
    try (destruct sy; reflexivity);
    try (destruct sx, sy; reflexivity).
  destruct sx, sy; try reflexivity;
    rewrite (Z.compare_antisym ex ey);
    destruct (ex ?= ey); cbn; try reflexivity;
    rewrite (Pos.compare_cont_antisym mx my Eq); reflexivity.
Qed.

(** [a < b] excludes [b <= a] ... *)
Lemma ltb_true_leb_false (a b : float) :
  (a <? b)%float = true -> (b <=? a)%float = false.
Proof.
  rewrite ltb_spec, leb_spec. unfold SFltb, SFleb.
  rewrite (SFcompare_antisym (Prim2SF a) (Prim2SF b)).
  destruct (SFcompare (Prim2SF a) (Prim2SF b)) as [[]|]; cbn; congruence.
Qed.

(** ... and [a <= b] excludes [b < a]. *)
Lemma leb_true_ltb_false (a b : float) :
  (a <=? b)%float = true -> (b <? a)%float = false.
Proof.
  rewrite ltb_spec, leb_spec. unfold SFltb, SFleb.
  rewrite (SFcompare_antisym (Prim2SF a) (Prim2SF b)).
  destruct (SFcompare (Prim2SF a) (Prim2SF b)) as [[]|]; cbn; congruence.
Qed.

End FloatComparisons.

(** ** Rounding keeps a bounded product bounded

    [x * k] in binary64 is the exact product rounded to nearest. When the
    exact product of the magnitudes is at most an integer [B], so is the
    rounded one: this is what makes the scaled samples of the WAV encoder
    fit sixteen bits. The argument follows the specification of
    multiplication in [SpecFloat]. *)

Section RoundingBound.

Lemma digits2_pos_size (p : positive) : digits2_pos p = Pos.size p.
Proof. induction p; cbn; congruence. Qed.

(** A positive number below [2 ^ k] has at most [k] binary digits. *)
Lemma Zdigits2_le (m k : Z) : 0 <= m < 2 ^ k -> 0 <= k -> Zdigits2 m <= k.
Proof.
  intros [Hm Hlt] Hk. destruct m as [|p|p]; cbn [Zdigits2]; [lia| |lia].
  rewrite digits2_pos_size.
  destruct (Z_le_gt_dec (Z.pos (Pos.size p)) k) as [|Hgt]; [assumption|].
  exfalso.
  pose proof (Pos.size_le p) as Hle.
  apply Pos2Z.pos_le_pos in Hle. rewrite Pos2Z.inj_pow in Hle.
  change (Z.pos p~0) with (2 * Z.pos p) in Hle.
  assert (Hpow : 2 ^ (k + 1) <= 2 ^ Z.pos (Pos.size p))
    by (apply Z.pow_le_mono_r; lia).
  rewrite Z.pow_add_r, Z.pow_1_r in Hpow by lia. lia.
Qed.

(** One step of the shift: halve, remember the bit shifted out, and
    whether anything was shifted out before. *)
Lemma shr_1_nonneg (m : Z) (r s : bool) :
  0 <= m ->
  shr_1 (Build_shr_record m r s)
  = Build_shr_record (m / 2) (Z.odd m) (r || s).
Proof.
  intros Hm. rewrite <- Z.div2_div.
  destruct m as [|p|p]; [reflexivity| |lia].
  destruct p; reflexivity.
Qed.

(** [k] steps into shifting [m]: the mantissa is [m / 2 ^ k], and the
    round and sticky bits are clear if nothing but zeros was shifted out. *)
Definition shifted (m k : Z) (mrs : shr_record) : Prop :=
  shr_m mrs = m / 2 ^ k
  /\ (m mod 2 ^ k = 0 -> shr_r mrs = false /\ shr_s mrs = false).

Lemma shifted_step (m k : Z) (mrs : shr_record) :
  0 <= m -> 0 <= k -> shifted m k mrs -> shifted m (k + 1) (shr_1 mrs).
Proof.
  intros Hm Hk [Hq Hex]. destruct mrs as [q r s]. cbn in Hq, Hex. subst q.
  assert (Hpos : 0 < 2 ^ k) by (apply Z.pow_pos_nonneg; lia).
  rewrite shr_1_nonneg by (apply Z.div_pos; lia).
  unfold shifted. rewrite Z.pow_add_r, Z.pow_1_r by lia.
  split; cbn [shr_m shr_r shr_s].
  - rewrite Z.div_div by lia. reflexivity.
  - intros Hmod.
    apply Z.mod_divide in Hmod; [|lia]. destruct Hmod as [t Ht].
    assert (Hm' : m = (2 * t) * 2 ^ k) by lia.
    assert (Hmod' : m mod 2 ^ k = 0)
      by (rewrite Hm'; apply Z.mod_mul; lia).
    destruct (Hex Hmod') as [-> ->].
    rewrite Hm' at 1. rewrite Z.div_mul by lia.
    rewrite Z.odd_mul. split; reflexivity.
Qed.

Lemma shifted_iter (p : positive) : forall (m k : Z) (mrs : shr_record),
  0 <= m -> 0 <= k -> shifted m k mrs ->
  shifted m (k + Z.pos p) (SpecFloat.iter_pos shr_1 p mrs).
Proof.
  induction p as [p IH|p IH|]; intros m k mrs Hm Hk Hs; cbn [SpecFloat.iter_pos].
  - replace (k + Z.pos p~1) with (((k + 1) + Z.pos p) + Z.pos p) by lia.
    apply IH; [lia..|]. apply IH; [lia..|]. apply shifted_step; assumption.
  - replace (k + Z.pos p~0) with ((k + Z.pos p) + Z.pos p) by lia.
    apply IH; [lia..|]. apply IH; assumption.
  - apply shifted_step; assumption.
Qed.

Lemma shifted_start (m : Z) : shifted m 0 (Build_shr_record m false false).
Proof.
  split; cbn.
  - rewrite Z.div_1_r. reflexivity.
  - intros _. split; reflexivity.
Qed.

Lemma round_nearest_even_bounds (m : Z) (l : location) :
  m <= round_nearest_even m l <= m + 1
  /\ (l = loc_Exact -> round_nearest_even m l = m).
Proof.
  destruct l as [|[]]; cbn; try destruct (Z.even m); split;
    try lia; try reflexivity; discriminate.
Qed.

Variable B : Z.
Hypothesis B_range : 0 <= B < 2 ^ 52.

(** Bringing a mantissa to the format's precision, then rounding to
    nearest, keeps the value at most [B]. *)
Lemma shr_fexp_round_bound (m e : Z) :
  0 <= m <= B * 2 ^ (- e) -> e < 0 ->
  exists mrs e',
    shr_fexp prec emax m e loc_Exact = (mrs, e')
    /\ e' < 0
    /\ 0 <= shr_m mrs <= B * 2 ^ (- e')
    /\ 0 <= round_nearest_even (shr_m mrs) (loc_of_shr_record mrs)
         <= B * 2 ^ (- e').
Proof.
  intros [Hm Hle] He.
  assert (Hpow : 0 < 2 ^ (- e)) by (apply Z.pow_pos_nonneg; lia).
  assert (Hdig : Zdigits2 m <= 52 - e).
  { apply Zdigits2_le; [|lia]. split; [assumption|].
    replace (52 - e) with (52 + - e) by lia.
    rewrite Z.pow_add_r by lia. nia. }
  unfold shr_fexp, shr_record_of_loc, fexp, SpecFloat.emin, shr.
  set (e1 := Z.max (Zdigits2 m + e - prec) (3 - emax - prec)).
  assert (He1 : e1 < 0) by (subst e1; unfold prec, emax; lia).
  destruct (e1 - e) as [|p|p] eqn:Hn.
  - exists (Build_shr_record m false false), e. cbn.
    repeat split; assumption || lia.
  - assert (Hp : - e = - e1 + Z.pos p) by lia.
    assert (Hpow1 : 0 < 2 ^ (- e1)) by (apply Z.pow_pos_nonneg; lia).
    assert (Hpowp : 0 < 2 ^ Z.pos p) by (apply Z.pow_pos_nonneg; lia).
    pose proof (shifted_iter p m 0 _ Hm ltac:(lia) (shifted_start m))
      as [Hq Hex].
    rewrite Z.add_0_l in Hq, Hex.
    set (mrs := SpecFloat.iter_pos shr_1 p _) in *.
    rewrite Hp, Z.pow_add_r in Hle by lia.
    assert (Hqle : shr_m mrs <= B * 2 ^ (- e1)).
    { rewrite Hq. apply Z.div_le_upper_bound; [assumption|]. lia. }
    assert (Hq0 : 0 <= shr_m mrs)
      by (rewrite Hq; apply Z.div_pos; lia).
    exists mrs, (e + Z.pos p).
    replace (e + Z.pos p) with e1 by lia.
    split; [reflexivity|]. split; [assumption|]. split; [lia|].
    destruct (round_nearest_even_bounds (shr_m mrs) (loc_of_shr_record mrs))
      as [Hr Hexact].
    split; [lia|].
    destruct (Z.eq_dec (shr_m mrs) (B * 2 ^ (- e1))) as [Heq|Hne]; [|lia].
    rewrite Hexact; [lia|].
    assert (Hmod : m mod 2 ^ Z.pos p = 0).
    { pose proof (Z.mul_div_le m (2 ^ Z.pos p) Hpowp) as Hlow.
      rewrite <- Hq, Heq in Hlow.
      assert (Hm' : m = (B * 2 ^ (- e1)) * 2 ^ Z.pos p) by lia.
      rewrite Hm'. apply Z.mod_mul. lia. }
    destruct (Hex Hmod) as [Hr' Hs'].
    destruct mrs as [q r s]. cbn in Hr', Hs'. subst r s. reflexivity.
  - exists (Build_shr_record m false false), e. cbn.
    repeat split; assumption || lia.
Qed.

(** The rounded product, truncated to an integer, has magnitude at most
    [B] and the sign [s]. *)
Lemma binary_round_aux_bound (s : bool) (m e : Z) :
  0 <= m <= B * 2 ^ (- e) -> e < 0 ->
  exists v, 0 <= v <= B
    /\ JS.SFtruncate (binary_round_aux prec emax s m e loc_Exact)
       = cond_Zopp s v.
Proof.
  intros Hm He. unfold binary_round_aux.
  destruct (shr_fexp_round_bound m e Hm He) as (mrs1 & e1 & -> & He1 & _ & Hr1).
  destruct (shr_fexp_round_bound _ e1 Hr1 He1)
    as (mrs2 & e2 & -> & He2 & Hm2 & _).
  destruct (shr_m mrs2) as [|m2|m2] eqn:Hsm.
  - exists 0. split; [lia|]. destruct s; reflexivity.
  - destruct (e2 <=? emax - prec).
    + cbn [JS.SFtruncate].
      rewrite Z.shiftl_div_pow2 by lia.
      assert (Hpow : 0 < 2 ^ (- e2)) by (apply Z.pow_pos_nonneg; lia).
      exists (Z.pos m2 / 2 ^ (- e2)). split; [|reflexivity]. split.
      * apply Z.div_pos; lia.
      * apply Z.div_le_upper_bound; [assumption|]. lia.
    + exists 0. split; [lia|]. destruct s; reflexivity.
  - lia.
Qed.

(** A finite number of magnitude at most 1, or a zero. *)
Definition SFunit (x : spec_float) : Prop :=
  match x with
  | S754_zero _ => True
  | S754_finite _ m e => e < 0 /\ Z.pos m <= 2 ^ (- e)
  | _ => False
  end.

Definition SFsign (x : spec_float) : bool :=
  match x with
  | S754_zero s | S754_infinity s | S754_finite s _ _ => s
  | S754_nan => false
  end.

(** Multiplying such a number by a positive constant of value at most [B]
    gives, after truncation, an integer of magnitude at most [B] with the
    sign of the number. *)
Lemma SFmul_unit_bound (x : spec_float) (mk : positive) (ek : Z) :
  SFunit x -> ek < 0 -> Z.pos mk <= B * 2 ^ (- ek) ->
  exists v, 0 <= v <= B
    /\ JS.SFtruncate (SF64mul x (S754_finite false mk ek))
       = cond_Zopp (SFsign x) v.
Proof.
  intros Hx Hek Hmk.
  destruct x as [s|s| |s m e]; cbn in Hx; try destruct Hx.
  - exists 0. split; [lia|]. destruct s; reflexivity.
  - unfold SF64mul, SFmul. cbn [SFsign]. rewrite xorb_false_r.
    apply binary_round_aux_bound; [|lia].
    split; [lia|].
    replace (- (e + ek)) with (- e + - ek) by lia.
    rewrite Z.pow_add_r by lia.
    assert (0 < 2 ^ (- ek)) by (apply Z.pow_pos_nonneg; lia).
    rewrite Pos2Z.inj_mul. nia.
Qed.

End RoundingBound.
(** ** The audio service *)

Module Audio.
Import JS.

Abbreviation Float32Array := (list float).

(** [interface AudioConfig] and [DEFAULT_CONFIG]. *)
Record AudioConfig := {
  sampleRate : Z;
  channelCount : Z;
  echoCancellation : bool;
  noiseSuppression : bool;
  autoGainControl : bool;
  bufferSize : Z
}.

Definition DEFAULT_CONFIG : AudioConfig :=
  {| sampleRate := 44100; channelCount := 1; echoCancellation := true;
     noiseSuppression := true; autoGainControl := true; bufferSize := 4096 |}.

(** [enum AudioState]. *)
Inductive AudioState :=
  INACTIVE | RECORDING | PLAYING | SPEAKING | INTERRUPTED.

#[global] Instance AudioState_eq_dec : EqDecision AudioState.
Proof. solve_decision. Defined.

(** [enum AudioEvent]. *)
Inductive AudioEvent :=
  | RECORDING_START | RECORDING_STOP | RECORDING_DATA
  | PLAYBACK_START | PLAYBACK_STOP | PLAYBACK_END
  | AUDIO_ERROR | AUDIO_STATE_CHANGE.

#[global] Instance AudioEvent_eq_dec : EqDecision AudioEvent.
Proof. solve_decision. Defined.

(** A decoded Web Audio [AudioBuffer]: its samples and its [duration] in
    seconds. *)
Record AudioBuffer := {
  duration : float;
  channelData : Float32Array
}.

(** An [AudioBufferSourceNode] made by [createBufferSource()]: the platform
    numbers the nodes it hands out, [buffer] is the property the service
    assigns. *)
Record AudioBufferSourceNode := {
  node_id : nat;
  buffer : AudioBuffer
}.

(** The object literals passed to [dispatchEvent]. A key that a literal
    leaves out ([error], [timeout]) reads as [false] here. *)
Inductive EventData :=
  | Empty
      (* {} *)
  | RecordingData (data : Float32Array) (energy : float) (isVoice : bool)
      (* { buffer, energy, isVoice } *)
  | PlaybackEnded (previousState : AudioState) (error timeout : bool)
      (* { previousState, error?, timeout? } *)
  | PlaybackStopped (interrupted : bool) (previousState : AudioState)
      (* { interrupted, previousState } *)
  | UserInterrupt
      (* { interrupted: true, reason: 'user_interrupt' } *)
  | ErrorData
      (* { error } *)
  | MuteChange (muted : bool).
      (* { type: 'mute_change', isMuted } *)

(** What a method does to the world outside the service object. *)
Inductive Action :=
  | Dispatch (event : AudioEvent) (data : EventData)
      (* this.dispatchEvent(event, data) *)
  | WsInterrupt
      (* websocketService.interrupt() *)
  | WsSendAudio (wav : ArrayBuffer)
      (* websocketService.sendAudio(wav) *)
  | NodeStart (node : AudioBufferSourceNode)
      (* node.start(...) returned *)
  | NodeStop (node : AudioBufferSourceNode)
      (* node.stop() returned *)
  | SetTimeout (id : nat) (delay : float)
      (* window.setTimeout(handler, delay) returned id *)
  | ClearTimeout (id : nat).
      (* clearTimeout(id) *)

(** The fields of [class AudioService] that the modelled methods read or
    write. Handles on platform objects whose state the methods never
    inspect (media stream, script processor, keep-alive oscillator) and the
    listener registry are left out: [Dispatch] records the call of
    [dispatchEvent] whether or not a listener is registered.
    [hasAudioContext] is [this.audioContext !== null]. The last two fields
    belong to the platform: how many source nodes and timers it has handed
    out, which numbers the next ones. *)
Record AudioService := {
  config : AudioConfig;
  hasAudioContext : bool;
  audioBuffer : list Float32Array;
  audioState : AudioState;
  audioQueue : list AudioBuffer;
  isPlaying : bool;
  isSpeaking : bool;
  isMuted : bool;
  currentSource : option AudioBufferSourceNode;
  playbackTimeoutId : option nat;
  isProcessing : bool;
  isGreeting : bool;
  isVisionProcessing : bool;
  isVoiceDetected : bool;
  voiceThreshold : float;
  silenceTimeout : Z;
  lastVoiceTime : Z;
  minRecordingLength : float;
  nodesCreated : nat;
  timersCreated : nat
}.

(** [new AudioService(config)]: the field initialisers. *)
Definition new_AudioService (config : AudioConfig) : AudioService :=
  {| config := config;
     hasAudioContext := false;
     audioBuffer := [];
     audioState := INACTIVE;
     audioQueue := [];
     isPlaying := false;
     isSpeaking := false;
     isMuted := false;
     currentSource := None;
     playbackTimeoutId := None;
     isProcessing := false;
     isGreeting := false;
     isVisionProcessing := false;
     isVoiceDetected := false;
     voiceThreshold := 0.01%float;
     silenceTimeout := 1000;
     lastVoiceTime := 0;
     minRecordingLength := 1000%float;
     nodesCreated := 0;
     timersCreated := 0 |}.

(** Field assignments [this.f = v]. *)
Definition set_hasAudioContext (v : bool) (this : AudioService)
  : AudioService :=
  {| config := config this; hasAudioContext := v;
       audioBuffer := audioBuffer this; audioState := audioState this;
       audioQueue := audioQueue this; isPlaying := isPlaying this;
       isSpeaking := isSpeaking this; isMuted := isMuted this;
       currentSource := currentSource this;
       playbackTimeoutId := playbackTimeoutId this;
       isProcessing := isProcessing this; isGreeting := isGreeting this;
       isVisionProcessing := isVisionProcessing this;
       isVoiceDetected := isVoiceDetected this;
       voiceThreshold := voiceThreshold this;
       silenceTimeout := silenceTimeout this;
       lastVoiceTime := lastVoiceTime this;
       minRecordingLength := minRecordingLength this;
       nodesCreated := nodesCreated this;
       timersCreated := timersCreated this |}.

Definition set_audioBuffer (v : list Float32Array) (this : AudioService)
  : AudioService :=
  {| config := config this; hasAudioContext := hasAudioContext this;
       audioBuffer := v; audioState := audioState this;
       audioQueue := audioQueue this; isPlaying := isPlaying this;
       isSpeaking := isSpeaking this; isMuted := isMuted this;
       currentSource := currentSource this;
       playbackTimeoutId := playbackTimeoutId this;
       isProcessing := isProcessing this; isGreeting := isGreeting this;
       isVisionProcessing := isVisionProcessing this;
       isVoiceDetected := isVoiceDetected this;
       voiceThreshold := voiceThreshold this;
       silenceTimeout := silenceTimeout this;
       lastVoiceTime := lastVoiceTime this;
       minRecordingLength := minRecordingLength this;
       nodesCreated := nodesCreated this;
       timersCreated := timersCreated this |}.

Definition set_audioState (v : AudioState) (this : AudioService)
  : AudioService :=
  {| config := config this; hasAudioContext := hasAudioContext this;
       audioBuffer := audioBuffer this; audioState := v;
       audioQueue := audioQueue this; isPlaying := isPlaying this;
       isSpeaking := isSpeaking this; isMuted := isMuted this;
       currentSource := currentSource this;
       playbackTimeoutId := playbackTimeoutId this;
       isProcessing := isProcessing this; isGreeting := isGreeting this;
       isVisionProcessing := isVisionProcessing this;
       isVoiceDetected := isVoiceDetected this;
       voiceThreshold := voiceThreshold this;
       silenceTimeout := silenceTimeout this;
       lastVoiceTime := lastVoiceTime this;
       minRecordingLength := minRecordingLength this;
       nodesCreated := nodesCreated this;
       timersCreated := timersCreated this |}.

Definition set_audioQueue (v : list AudioBuffer) (this : AudioService)
  : AudioService :=
  {| config := config this; hasAudioContext := hasAudioContext this;
       audioBuffer := audioBuffer this; audioState := audioState this;
       audioQueue := v; isPlaying := isPlaying this;
       isSpeaking := isSpeaking this; isMuted := isMuted this;
       currentSource := currentSource this;
       playbackTimeoutId := playbackTimeoutId this;
       isProcessing := isProcessing this; isGreeting := isGreeting this;
       isVisionProcessing := isVisionProcessing this;
       isVoiceDetected := isVoiceDetected this;
       voiceThreshold := voiceThreshold this;
       silenceTimeout := silenceTimeout this;
       lastVoiceTime := lastVoiceTime this;
       minRecordingLength := minRecordingLength this;
       nodesCreated := nodesCreated this;
       timersCreated := timersCreated this |}.

Definition set_isPlaying (v : bool) (this : AudioService)
  : AudioService :=
  {| config := config this; hasAudioContext := hasAudioContext this;
       audioBuffer := audioBuffer this; audioState := audioState this;
       audioQueue := audioQueue this; isPlaying := v;
       isSpeaking := isSpeaking this; isMuted := isMuted this;
       currentSource := currentSource this;
       playbackTimeoutId := playbackTimeoutId this;
       isProcessing := isProcessing this; isGreeting := isGreeting this;
       isVisionProcessing := isVisionProcessing this;
       isVoiceDetected := isVoiceDetected this;
       voiceThreshold := voiceThreshold this;
       silenceTimeout := silenceTimeout this;
       lastVoiceTime := lastVoiceTime this;
       minRecordingLength := minRecordingLength this;
       nodesCreated := nodesCreated this;
       timersCreated := timersCreated this |}.

Definition set_isSpeaking (v : bool) (this : AudioService)
  : AudioService :=
  {| config := config this; hasAudioContext := hasAudioContext this;
       audioBuffer := audioBuffer this; audioState := audioState this;
       audioQueue := audioQueue this; isPlaying := isPlaying this;
       isSpeaking := v; isMuted := isMuted this;
       currentSource := currentSource this;
       playbackTimeoutId := playbackTimeoutId this;
       isProcessing := isProcessing this; isGreeting := isGreeting this;
       isVisionProcessing := isVisionProcessing this;
       isVoiceDetected := isVoiceDetected this;
       voiceThreshold := voiceThreshold this;
       silenceTimeout := silenceTimeout this;
       lastVoiceTime := lastVoiceTime this;
       minRecordingLength := minRecordingLength this;
       nodesCreated := nodesCreated this;
       timersCreated := timersCreated this |}.

Definition set_isMuted (v : bool) (this : AudioService)
  : AudioService :=
  {| config := config this; hasAudioContext := hasAudioContext this;
       audioBuffer := audioBuffer this; audioState := audioState this;
       audioQueue := audioQueue this; isPlaying := isPlaying this;
       isSpeaking := isSpeaking this; isMuted := v;
       currentSource := currentSource this;
       playbackTimeoutId := playbackTimeoutId this;
       isProcessing := isProcessing this; isGreeting := isGreeting this;
       isVisionProcessing := isVisionProcessing this;
       isVoiceDetected := isVoiceDetected this;
       voiceThreshold := voiceThreshold this;
       silenceTimeout := silenceTimeout this;
       lastVoiceTime := lastVoiceTime this;
       minRecordingLength := minRecordingLength this;
       nodesCreated := nodesCreated this;
       timersCreated := timersCreated this |}.

Definition set_currentSource (v : option AudioBufferSourceNode) (this : AudioService)
  : AudioService :=
  {| config := config this; hasAudioContext := hasAudioContext this;
       audioBuffer := audioBuffer this; audioState := audioState this;
       audioQueue := audioQueue this; isPlaying := isPlaying this;
       isSpeaking := isSpeaking this; isMuted := isMuted this;
       currentSource := v; playbackTimeoutId := playbackTimeoutId this;
       isProcessing := isProcessing this; isGreeting := isGreeting this;
       isVisionProcessing := isVisionProcessing this;
       isVoiceDetected := isVoiceDetected this;
       voiceThreshold := voiceThreshold this;
       silenceTimeout := silenceTimeout this;
       lastVoiceTime := lastVoiceTime this;
       minRecordingLength := minRecordingLength this;
       nodesCreated := nodesCreated this;
       timersCreated := timersCreated this |}.

Definition set_playbackTimeoutId (v : option nat) (this : AudioService)
  : AudioService :=
  {| config := config this; hasAudioContext := hasAudioContext this;
       audioBuffer := audioBuffer this; audioState := audioState this;
       audioQueue := audioQueue this; isPlaying := isPlaying this;
       isSpeaking := isSpeaking this; isMuted := isMuted this;
       currentSource := currentSource this; playbackTimeoutId := v;
       isProcessing := isProcessing this; isGreeting := isGreeting this;
       isVisionProcessing := isVisionProcessing this;
       isVoiceDetected := isVoiceDetected this;
       voiceThreshold := voiceThreshold this;
       silenceTimeout := silenceTimeout this;
       lastVoiceTime := lastVoiceTime this;
       minRecordingLength := minRecordingLength this;
       nodesCreated := nodesCreated this;
       timersCreated := timersCreated this |}.

Definition set_isProcessing (v : bool) (this : AudioService)
  : AudioService :=
  {| config := config this; hasAudioContext := hasAudioContext this;
       audioBuffer := audioBuffer this; audioState := audioState this;
       audioQueue := audioQueue this; isPlaying := isPlaying this;
       isSpeaking := isSpeaking this; isMuted := isMuted this;
       currentSource := currentSource this;
       playbackTimeoutId := playbackTimeoutId this; isProcessing := v;
       isGreeting := isGreeting this;
       isVisionProcessing := isVisionProcessing this;
       isVoiceDetected := isVoiceDetected this;
       voiceThreshold := voiceThreshold this;
       silenceTimeout := silenceTimeout this;
       lastVoiceTime := lastVoiceTime this;
       minRecordingLength := minRecordingLength this;
       nodesCreated := nodesCreated this;
       timersCreated := timersCreated this |}.

Definition set_isGreeting (v : bool) (this : AudioService)
  : AudioService :=
  {| config := config this; hasAudioContext := hasAudioContext this;
       audioBuffer := audioBuffer this; audioState := audioState this;
       audioQueue := audioQueue this; isPlaying := isPlaying this;
       isSpeaking := isSpeaking this; isMuted := isMuted this;
       currentSource := currentSource this;
       playbackTimeoutId := playbackTimeoutId this;
       isProcessing := isProcessing this; isGreeting := v;
       isVisionProcessing := isVisionProcessing this;
       isVoiceDetected := isVoiceDetected this;
       voiceThreshold := voiceThreshold this;
       silenceTimeout := silenceTimeout this;
       lastVoiceTime := lastVoiceTime this;
       minRecordingLength := minRecordingLength this;
       nodesCreated := nodesCreated this;
       timersCreated := timersCreated this |}.

Definition set_isVisionProcessing (v : bool) (this : AudioService)
  : AudioService :=
  {| config := config this; hasAudioContext := hasAudioContext this;
       audioBuffer := audioBuffer this; audioState := audioState this;
       audioQueue := audioQueue this; isPlaying := isPlaying this;
       isSpeaking := isSpeaking this; isMuted := isMuted this;
       currentSource := currentSource this;
       playbackTimeoutId := playbackTimeoutId this;
       isProcessing := isProcessing this; isGreeting := isGreeting this;
       isVisionProcessing := v; isVoiceDetected := isVoiceDetected this;
       voiceThreshold := voiceThreshold this;
       silenceTimeout := silenceTimeout this;
       lastVoiceTime := lastVoiceTime this;
       minRecordingLength := minRecordingLength this;
       nodesCreated := nodesCreated this;
       timersCreated := timersCreated this |}.

Definition set_isVoiceDetected (v : bool) (this : AudioService)
  : AudioService :=
  {| config := config this; hasAudioContext := hasAudioContext this;
       audioBuffer := audioBuffer this; audioState := audioState this;
       audioQueue := audioQueue this; isPlaying := isPlaying this;
       isSpeaking := isSpeaking this; isMuted := isMuted this;
       currentSource := currentSource this;
       playbackTimeoutId := playbackTimeoutId this;
       isProcessing := isProcessing this; isGreeting := isGreeting this;
       isVisionProcessing := isVisionProcessing this; isVoiceDetected := v;
       voiceThreshold := voiceThreshold this;
       silenceTimeout := silenceTimeout this;
       lastVoiceTime := lastVoiceTime this;
       minRecordingLength := minRecordingLength this;
       nodesCreated := nodesCreated this;
       timersCreated := timersCreated this |}.

Definition set_lastVoiceTime (v : Z) (this : AudioService)
  : AudioService :=
  {| config := config this; hasAudioContext := hasAudioContext this;
       audioBuffer := audioBuffer this; audioState := audioState this;
       audioQueue := audioQueue this; isPlaying := isPlaying this;
       isSpeaking := isSpeaking this; isMuted := isMuted this;
       currentSource := currentSource this;
       playbackTimeoutId := playbackTimeoutId this;
       isProcessing := isProcessing this; isGreeting := isGreeting this;
       isVisionProcessing := isVisionProcessing this;
       isVoiceDetected := isVoiceDetected this;
       voiceThreshold := voiceThreshold this;
       silenceTimeout := silenceTimeout this; lastVoiceTime := v;
       minRecordingLength := minRecordingLength this;
       nodesCreated := nodesCreated this;
       timersCreated := timersCreated this |}.

Definition set_nodesCreated (v : nat) (this : AudioService)
  : AudioService :=
  {| config := config this; hasAudioContext := hasAudioContext this;
       audioBuffer := audioBuffer this; audioState := audioState this;
       audioQueue := audioQueue this; isPlaying := isPlaying this;
       isSpeaking := isSpeaking this; isMuted := isMuted this;
       currentSource := currentSource this;
       playbackTimeoutId := playbackTimeoutId this;
       isProcessing := isProcessing this; isGreeting := isGreeting this;
       isVisionProcessing := isVisionProcessing this;
       isVoiceDetected := isVoiceDetected this;
       voiceThreshold := voiceThreshold this;
       silenceTimeout := silenceTimeout this;
       lastVoiceTime := lastVoiceTime this;
       minRecordingLength := minRecordingLength this; nodesCreated := v;
       timersCreated := timersCreated this |}.

Definition set_timersCreated (v : nat) (this : AudioService)
  : AudioService :=
  {| config := config this; hasAudioContext := hasAudioContext this;
       audioBuffer := audioBuffer this; audioState := audioState this;
       audioQueue := audioQueue this; isPlaying := isPlaying this;
       isSpeaking := isSpeaking this; isMuted := isMuted this;
       currentSource := currentSource this;
       playbackTimeoutId := playbackTimeoutId this;
       isProcessing := isProcessing this; isGreeting := isGreeting this;
       isVisionProcessing := isVisionProcessing this;
       isVoiceDetected := isVoiceDetected this;
       voiceThreshold := voiceThreshold this;
       silenceTimeout := silenceTimeout this;
       lastVoiceTime := lastVoiceTime this;
       minRecordingLength := minRecordingLength this;
       nodesCreated := nodesCreated this; timersCreated := v |}.


(** *** Procedures

    A method body is a [Proc]: it takes the service state and yields the
    state it leaves, the actions it performed, in order, and whether it
    ended by throwing. *)

Record Outcome := Out {
  final : AudioService;
  actions : list Action;
  thrown : bool
}.

Definition Proc := AudioService -> Outcome.

Definition skip : Proc := fun this => Out this [] false.

Definition throw : Proc := fun this => Out this [] true.

(** [p; q] *)
Definition seq (p q : Proc) : Proc := fun this =>
  let r := p this in
  if thrown r then r
  else
    let r' := q (final r) in
    Out (final r') (actions r ++ actions r') (thrown r').

(** [try { p } catch (error) { handler }] *)
Definition tryCatch (p handler : Proc) : Proc := fun this =>
  let r := p this in
  if thrown r
  then
    let r' := handler (final r) in
    Out (final r') (actions r ++ actions r') (thrown r')
  else r.

Definition assign (f : AudioService -> AudioService) : Proc :=
  fun this => Out (f this) [] false.

Definition act (a : Action) : Proc := fun this => Out this [a] false.

Definition ifThenElse (c : AudioService -> bool) (p q : Proc) : Proc :=
  fun this => if c this then p this else q this.

Definition when (c : AudioService -> bool) (p : Proc) : Proc :=
  ifThenElse c p skip.

(** A statement that reads fields of [this] to fix values it uses. *)
Definition withThis (k : AudioService -> Proc) : Proc :=
  fun this => k this this.

Declare Scope proc_scope.
Delimit Scope proc_scope with proc.
Bind Scope proc_scope with Proc.
Notation "p ;; q" := (seq p q)
  (at level 100, q at level 200, right associativity) : proc_scope.
Local Open Scope proc_scope.

Definition dispatchEvent (event : AudioEvent) (data : EventData) : Proc :=
  act (Dispatch event data).

(** *** Voice-activity detection and the WAV encoder *)

(** [calculateRMSEnergy]: the loop adds the squares left to right. *)
Definition calculateRMSEnergy (buffer : Float32Array) : float :=
  let sum := fold_left (fun sum x => (sum + x * x)%float) buffer 0%float in
  let rms := PrimFloat.sqrt (sum / of_Z (Z.of_nat (length buffer))) in
  rms.

(** [writeString]: one [setUint8] per character, at [offset + i]. *)
Fixpoint writeString_from (view : ArrayBuffer) (offset i : Z)
    (codes : list Z) : option ArrayBuffer :=
  match codes with
  | [] => Some view
  | c :: rest =>
      view' ← setUint8 view (offset + i) c;
      writeString_from view' offset (i + 1) rest
  end.

Definition writeString (view : ArrayBuffer) (offset : Z) (s : string)
  : option ArrayBuffer :=
  writeString_from view offset 0 (charCodes s).

(** The body of the sample loop of [float32ToWav]: clamp, scale. *)
Definition clampSample (x : float) : float :=
  Math_max (-1) (Math_min 1 x).

Definition scaleSample (x : float) : float :=
  let sample := clampSample x in
  if (sample <? 0)%float then (sample * 32768)%float
  else (sample * 32767)%float.

(** The sample loop, from index [i] on. *)
Fixpoint writeSamples (wavView : ArrayBuffer) (offset bytesPerSample i : Z)
    (samples : Float32Array) : option ArrayBuffer :=
  match samples with
  | [] => Some wavView
  | x :: rest =>
      let val := scaleSample x in
      wavView' ← setInt16 wavView (offset + i * bytesPerSample) val;
      writeSamples wavView' offset bytesPerSample (i + 1) rest
  end.

(** [float32ToWav]; [None] is a [RangeError] of a [DataView] store. *)
Definition float32ToWav (buffer : Float32Array) (sampleRate : Z)
  : option ArrayBuffer :=
  let numChannels := 1 in
  let bytesPerSample := 2 in
  let dataSize := Z.of_nat (length buffer) * bytesPerSample in
  let headerSize := 44 in
  let totalSize := headerSize + dataSize in
  let wavView := new_ArrayBuffer totalSize in
  wavView ← writeString wavView 0 "RIFF";
  wavView ← setUint32 wavView 4 (totalSize - 8);
  wavView ← writeString wavView 8 "WAVE";
  wavView ← writeString wavView 12 "fmt ";
  wavView ← setUint32 wavView 16 16;
  wavView ← setUint16 wavView 20 1;
  wavView ← setUint16 wavView 22 numChannels;
  wavView ← setUint32 wavView 24 sampleRate;
  wavView ← setUint32 wavView 28 (sampleRate * numChannels * bytesPerSample);
  wavView ← setUint16 wavView 32 (numChannels * bytesPerSample);
  wavView ← setUint16 wavView 34 (bytesPerSample * 8);
  wavView ← writeString wavView 36 "data";
  wavView ← setUint32 wavView 40 dataSize;
  let offset := 44 in
  writeSamples wavView offset bytesPerSample 0 buffer.

(** [target.set(source, offset)] on a [Float32Array]; [None] is the
    [RangeError] raised when [source] does not fit. *)
Definition Float32Array_set (target source : Float32Array) (offset : Z)
  : option Float32Array :=
  if (0 <=? offset)
     && (offset + Z.of_nat (length source) <=? Z.of_nat (length target))
  then Some (take (Z.to_nat offset) target ++ source
             ++ drop (Z.to_nat offset + length source) target)
  else None.

(** The copy loop of [sendAudioChunk]. *)
Fixpoint copyData (combinedBuffer : Float32Array) (offset : Z)
    (buffers : list Float32Array) : option Float32Array :=
  match buffers with
  | [] => Some combinedBuffer
  | buffer :: rest =>
      combinedBuffer' ← Float32Array_set combinedBuffer buffer offset;
      copyData combinedBuffer' (offset + Z.of_nat (length buffer)) rest
  end.

(** [this.audioBuffer.reduce((acc, buffer) => acc + buffer.length, 0)] *)
Definition totalLength (buffers : list Float32Array) : Z :=
  fold_left (fun acc buffer => acc + Z.of_nat (length buffer)) buffers 0.

Definition audioLengthMs (this : AudioService) : float :=
  (of_Z (totalLength (audioBuffer this)) / of_Z (sampleRate (config this))
   * 1000)%float.

(** [sendAudioChunk] *)
Definition sendAudioChunk : Proc := fun this =>
  if bool_decide (length (audioBuffer this) = 0%nat) then skip this
  else if isProcessing this then assign (set_audioBuffer []) this
  else
    let totalLength := totalLength (audioBuffer this) in
    if negb (isVoiceDetected this)
       && (audioLengthMs this <? minRecordingLength this)%float
    then assign (set_audioBuffer []) this
    else
      let combinedBuffer := replicate (Z.to_nat totalLength) 0%float in
      match
        combinedBuffer ← copyData combinedBuffer 0 (audioBuffer this);
        float32ToWav combinedBuffer (sampleRate (config this))
      with
      | Some wavBuffer =>
          (act (WsSendAudio wavBuffer);; assign (set_audioBuffer [])) this
      | None => throw this
      end.

(** *** Running a procedure step by step *)

Section ProcCalculus.

Implicit Types (p q h : Proc) (this : AudioService) (a : Action).

(** [r] with the actions [pre] done before it. *)
Definition after (pre : list Action) (r : Outcome) : Outcome :=
  Out (final r) (pre ++ actions r) (thrown r).

Lemma after_nil r : after [] r = r.
Proof. destruct r; reflexivity. Qed.

Lemma after_after pre pre' r : after pre (after pre' r) = after (pre ++ pre') r.
Proof. unfold after. cbn. rewrite app_assoc. reflexivity. Qed.

Lemma seq_run p q this :
  seq p q this =
    if thrown (p this) then p this
    else after (actions (p this)) (q (final (p this))).
Proof. reflexivity. Qed.

Lemma tryCatch_run p h this :
  tryCatch p h this =
    if thrown (p this)
    then after (actions (p this)) (h (final (p this)))
    else p this.
Proof. reflexivity. Qed.

Lemma seq_assign f q this : seq (assign f) q this = q (f this).
Proof. rewrite seq_run. cbn. apply after_nil. Qed.

Lemma seq_act a q this : seq (act a) q this = after [a] (q this).
Proof. reflexivity. Qed.

Lemma seq_skip q this : seq skip q this = q this.
Proof. rewrite seq_run. cbn. apply after_nil. Qed.

Lemma seq_throw q this : seq throw q this = throw this.
Proof. reflexivity. Qed.

Lemma seq_seq p q h this : seq (seq p q) h this = seq p (seq q h) this.
Proof.
  rewrite !seq_run. destruct (p this) as [s1 a1 [|]]; cbn; [reflexivity|].
  rewrite ?seq_run. cbn.
  destruct (q s1) as [s2 a2 [|]]; cbn; [reflexivity|].
  unfold after. cbn. rewrite app_assoc. reflexivity.
Qed.

Lemma seq_ifThenElse c p1 p2 q this :
  seq (ifThenElse c p1 p2) q this
  = if c this then seq p1 q this else seq p2 q this.
Proof. rewrite !seq_run. unfold ifThenElse. destruct (c this); reflexivity. Qed.

Lemma seq_when c p q this :
  seq (when c p) q this = if c this then seq p q this else q this.
Proof. unfold when. rewrite seq_ifThenElse, seq_skip. reflexivity. Qed.

Lemma seq_withThis k q this : seq (withThis k) q this = seq (k this) q this.
Proof. reflexivity. Qed.

Lemma seq_if (b : bool) p1 p2 q this :
  seq (if b then p1 else p2) q this = if b then seq p1 q this else seq p2 q this.
Proof. destruct b; reflexivity. Qed.

Lemma run_withThis k this : withThis k this = k this this.
Proof. reflexivity. Qed.

Lemma run_ifThenElse c p q this :
  ifThenElse c p q this = if c this then p this else q this.
Proof. reflexivity. Qed.

Lemma run_when c p this : when c p this = if c this then p this else skip this.
Proof. reflexivity. Qed.

Lemma run_assign f this : assign f this = Out (f this) [] false.
Proof. reflexivity. Qed.

Lemma run_act a this : act a this = Out this [a] false.
Proof. reflexivity. Qed.

Lemma run_skip this : skip this = Out this [] false.
Proof. reflexivity. Qed.

Lemma run_dispatchEvent e d this :
  dispatchEvent e d this = Out this [Dispatch e d] false.
Proof. reflexivity. Qed.

Lemma seq_dispatchEvent e d q this :
  seq (dispatchEvent e d) q this = after [Dispatch e d] (q this).
Proof. reflexivity. Qed.

Lemma after_Out pre s acts t : after pre (Out s acts t) = Out s (pre ++ acts) t.
Proof. reflexivity. Qed.

Lemma final_after pre r : final (after pre r) = final r.
Proof. reflexivity. Qed.

Lemma actions_after pre r : actions (after pre r) = pre ++ actions r.
Proof. reflexivity. Qed.

Lemma thrown_after pre r : thrown (after pre r) = thrown r.
Proof. reflexivity. Qed.

End ProcCalculus.

Arguments seq : simpl never.
Arguments tryCatch : simpl never.
Arguments assign : simpl never.
Arguments act : simpl never.
Arguments skip : simpl never.
Arguments throw : simpl never.
Arguments ifThenElse : simpl never.
Arguments when : simpl never.
Arguments withThis : simpl never.
Arguments dispatchEvent : simpl never.
Arguments after : simpl never.
Arguments calculateRMSEnergy : simpl never.
Arguments float32ToWav : simpl never.
Arguments sendAudioChunk : simpl never.
Arguments audioLengthMs : simpl never.

(** Push a procedure applied to a state one step further. *)
Ltac proc_step :=
  first
    [ rewrite seq_seq
    | rewrite seq_assign
    | rewrite seq_act
    | rewrite seq_dispatchEvent
    | rewrite seq_skip
    | rewrite seq_throw
    | rewrite seq_withThis
    | rewrite seq_when
    | rewrite seq_ifThenElse
    | rewrite seq_if
    | rewrite run_withThis
    | rewrite run_when
    | rewrite run_ifThenElse
    | rewrite run_assign
    | rewrite run_act
    | rewrite run_dispatchEvent
    | rewrite run_skip
    | rewrite after_after
    | rewrite after_Out
    | rewrite final_after
    | rewrite actions_after
    | rewrite thrown_after ].

(** *** Playback queue and capture callbacks

    [node.start()] and [node.stop()] are platform calls that the source
    guards with [try]/[catch]; whether a call on a given node raises is the
    platform's choice, a parameter of the model. *)

Section Service.

Variable startThrows : AudioBufferSourceNode -> bool.
Variable stopThrows : AudioBufferSourceNode -> bool.

Definition nodeStart (source : AudioBufferSourceNode) : Proc :=
  if startThrows source then throw else act (NodeStart source).

Definition nodeStop (source : AudioBufferSourceNode) : Proc :=
  if stopThrows source then throw else act (NodeStop source).

(** [if (this.playbackTimeoutId !== null) { clearTimeout(...); ... = null }] *)
Definition clearPlaybackTimeout : Proc := withThis (fun this =>
  match playbackTimeoutId this with
  | Some id => act (ClearTimeout id);; assign (set_playbackTimeoutId None)
  | None => skip
  end).

(** [this.playbackTimeoutId = window.setTimeout(handler, delay)] *)
Definition armPlaybackTimeout (delay : float) : Proc := withThis (fun this =>
  let id := timersCreated this in
  act (SetTimeout id delay);;
  assign (set_timersCreated (S id));;
  assign (set_playbackTimeoutId (Some id))).

Definition queueNonEmpty (this : AudioService) : bool :=
  bool_decide (0 < length (audioQueue this))%nat.

(** [stopPlayback] *)
Definition stopPlayback : Proc := withThis (fun this =>
  match currentSource this with
  | None => skip
  | Some source =>
      let previousState := audioState this in
      clearPlaybackTimeout;;
      tryCatch
        (nodeStop source;;
         assign (set_currentSource None))
        skip;;
      assign (set_audioQueue []);;
      (if bool_decide (previousState = SPEAKING)
       then assign (set_audioState INTERRUPTED)
       else assign (set_audioState INACTIVE));;
      assign (set_isPlaying false);;
      assign (set_isSpeaking false);;
      dispatchEvent PLAYBACK_STOP
        (PlaybackStopped (bool_decide (previousState = SPEAKING))
                         previousState)
  end).

(** [playNextChunk], by recursion on the contents of [this.audioQueue]:
    the only recursive call, in the [catch] block, comes after [shift()]
    has removed the head. *)
Fixpoint playNextChunk_from (queue : list AudioBuffer) : Proc :=
  clearPlaybackTimeout;;
  match queue with
  | [] =>
      assign (set_isPlaying false);;
      assign (set_isSpeaking false);;
      assign (set_audioState INACTIVE);;
      dispatchEvent PLAYBACK_END (PlaybackEnded SPEAKING false false)
  | buffer :: rest =>
      when hasAudioContext (
        assign (set_audioQueue rest);;
        withThis (fun this =>
          let wasPlaying := isPlaying this in
          let source :=
            {| node_id := nodesCreated this; buffer := buffer |} in
          let timeoutDuration := (duration buffer * 1000 + 1000)%float in
          assign (set_isPlaying true);;
          assign (set_isSpeaking true);;
          assign (set_audioState SPEAKING);;
          assign (set_nodesCreated (S (nodesCreated this)));;
          assign (set_currentSource (Some source));;
          tryCatch
            (nodeStart source;;
             armPlaybackTimeout timeoutDuration;;
             if wasPlaying then skip
             else dispatchEvent PLAYBACK_START Empty)
            (dispatchEvent AUDIO_ERROR ErrorData;;
             clearPlaybackTimeout;;
             assign (set_currentSource None);;
             match rest with
             | _ :: _ => playNextChunk_from rest
             | [] =>
                 assign (set_isPlaying false);;
                 assign (set_isSpeaking false);;
                 assign (set_audioState INACTIVE);;
                 dispatchEvent PLAYBACK_END
                   (PlaybackEnded SPEAKING true false)
             end)))
  end.

Definition playNextChunk : Proc :=
  withThis (fun this => playNextChunk_from (audioQueue this)).

(** The [source.onended] handler installed by [playNextChunk]. *)
Definition onended : Proc :=
  clearPlaybackTimeout;;
  ifThenElse queueNonEmpty
    playNextChunk
    (assign (set_isPlaying false);;
     assign (set_isSpeaking false);;
     assign (set_audioState INACTIVE);;
     assign (set_currentSource None);;
     dispatchEvent PLAYBACK_END (PlaybackEnded SPEAKING false false)).

(** The safety-timeout handler installed by [playNextChunk]. *)
Definition onPlaybackTimeout : Proc :=
  assign (set_currentSource None);;
  ifThenElse queueNonEmpty
    playNextChunk
    (assign (set_isPlaying false);;
     assign (set_isSpeaking false);;
     assign (set_audioState INACTIVE);;
     dispatchEvent PLAYBACK_END (PlaybackEnded SPEAKING false true)).

(** [initAudioContext]: it leaves a context in place, or dispatches
    [AUDIO_ERROR] and throws when none can be created. *)
Definition initAudioContext (created : bool) : Proc :=
  if created then assign (set_hasAudioContext true)
  else
    assign (set_hasAudioContext false);;
    dispatchEvent AUDIO_ERROR ErrorData;;
    throw.

(** [playAudioChunk], run when [decodeAudioData] settles: [decoded] is the
    buffer it resolved with, [None] when it rejected. *)
Definition playAudioChunk (contextCreated : bool)
    (decoded : option AudioBuffer) : Proc :=
  tryCatch
    (initAudioContext contextCreated;;
     when (fun this => negb (hasAudioContext this)) throw;;
     tryCatch
       match decoded with
       | Some audioBuffer =>
           assign (fun this =>
                     set_audioQueue (audioQueue this ++ [audioBuffer]) this);;
           when (fun this => negb (isPlaying this)) playNextChunk
       | None => throw
       end
       (dispatchEvent AUDIO_ERROR ErrorData;;
        when (fun this => bool_decide (length (audioQueue this) = 0%nat))
          (assign (set_isPlaying false);;
           assign (set_isSpeaking false);;
           assign (set_audioState INACTIVE);;
           dispatchEvent PLAYBACK_END (PlaybackEnded SPEAKING true false))))
    (dispatchEvent AUDIO_ERROR ErrorData).

(** The three protected-state flags, as tested together in
    [handleAudioProcess]. *)
Definition protectedState (this : AudioService) : bool :=
  isProcessing this || isVisionProcessing this || isGreeting this.

(** [handleAudioProcess]: [inputData] is channel 0 of the frame, [now] what
    [Date.now()] returns during the call (the first read is used only when
    the energy is above the threshold, the second only when it is not, so
    one value serves both). *)
Definition handleAudioProcess (inputData : Float32Array) (now : Z) : Proc :=
  let bufferCopy := inputData in
  let energy := calculateRMSEnergy bufferCopy in
  let accumulate : Proc :=
    ifThenElse protectedState
      (dispatchEvent RECORDING_DATA (RecordingData bufferCopy energy false))
      (when isVoiceDetected
         (assign (fun this =>
                    set_audioBuffer (audioBuffer this ++ [bufferCopy]) this);;
          withThis (fun this =>
            let timeSinceVoice := now - lastVoiceTime this in
            when (fun this =>
                    (energy <=? voiceThreshold this)%float
                    && (silenceTimeout this <? timeSinceVoice))
              (assign (set_isVoiceDetected false);;
               sendAudioChunk)));;
       withThis (fun this =>
         dispatchEvent RECORDING_DATA
           (RecordingData bufferCopy energy (isVoiceDetected this))))
  in
  ifThenElse (fun this => (voiceThreshold this <? energy)%float)
    (ifThenElse protectedState
       (dispatchEvent RECORDING_DATA (RecordingData bufferCopy energy false))
       (when (fun this => negb (isVoiceDetected this))
          (assign (set_isVoiceDetected true);;
           when (fun this =>
                   (isSpeaking this
                    || bool_decide (audioState this = SPEAKING))
                   && negb (isGreeting this))
             (stopPlayback;;
              act WsInterrupt;;
              dispatchEvent PLAYBACK_STOP UserInterrupt));;
        assign (set_lastVoiceTime now);;
        accumulate))
    accumulate.

(** [stopRecording] *)
Definition stopRecording : Proc :=
  ifThenElse (fun this => bool_decide (audioState this <> RECORDING))
    skip
    (sendAudioChunk;;
     assign (set_audioState INACTIVE);;
     assign (set_audioBuffer []);;
     dispatchEvent RECORDING_STOP Empty).

(** [startRecording], run when its awaits settle: [contextCreated] as in
    [initAudioContext], [granted] whether [getUserMedia] resolved. *)
Definition startRecording (contextCreated granted : bool) : Proc :=
  ifThenElse (fun this => bool_decide (audioState this = RECORDING))
    skip
    (tryCatch
       (initAudioContext contextCreated;;
        (if granted then skip else throw);;
        when hasAudioContext
          (assign (set_audioBuffer []);;
           assign (set_audioState RECORDING);;
           assign (set_isVoiceDetected false);;
           assign (set_lastVoiceTime 0);;
           dispatchEvent RECORDING_START Empty))
       (dispatchEvent AUDIO_ERROR ErrorData;;
        stopRecording;;
        throw)).

(** [releaseHardware] *)
Definition releaseHardware : Proc :=
  stopRecording;;
  stopPlayback;;
  clearPlaybackTimeout;;
  assign (set_audioState INACTIVE);;
  assign (set_isVoiceDetected false);;
  assign (set_audioBuffer []);;
  assign (set_isPlaying false);;
  assign (set_isSpeaking false).

(** [toggleMicrophoneMute] *)
Definition toggleMicrophoneMute : Proc :=
  assign (fun this => set_isMuted (negb (isMuted this)) this);;
  withThis (fun this =>
    dispatchEvent AUDIO_STATE_CHANGE (MuteChange (isMuted this))).

(** [setProcessingState], [setGreetingState], [setVisionProcessingState] *)
Definition setProcessingState (b : bool) : Proc :=
  assign (set_isProcessing b).
Definition setGreetingState (b : bool) : Proc :=
  assign (set_isGreeting b).
Definition setVisionProcessingState (b : bool) : Proc :=
  assign (set_isVisionProcessing b).

(** *** The service as a reactive system

    Everything that can happen to the service: a call of a public method
    by the application, or a platform callback. *)
Inductive Input :=
  | Frame (inputData : Float32Array) (now : Z)
      (* scriptProcessor.onaudioprocess *)
  | SetProcessingState (b : bool)
  | SetGreetingState (b : bool)
  | SetVisionProcessingState (b : bool)
  | StartRecording (contextCreated granted : bool)
  | StopRecording
  | PlayAudioChunk (contextCreated : bool) (decoded : option AudioBuffer)
  | Ended
      (* an onended callback *)
  | PlaybackTimeout
      (* a safety-timeout callback *)
  | StopPlayback
  | ReleaseHardware
  | ToggleMicrophoneMute.

Definition handler (i : Input) : Proc :=
  match i with
  | Frame inputData now => handleAudioProcess inputData now
  | SetProcessingState b => setProcessingState b
  | SetGreetingState b => setGreetingState b
  | SetVisionProcessingState b => setVisionProcessingState b
  | StartRecording c g => startRecording c g
  | StopRecording => stopRecording
  | PlayAudioChunk c d => playAudioChunk c d
  | Ended => onended
  | PlaybackTimeout => onPlaybackTimeout
  | StopPlayback => stopPlayback
  | ReleaseHardware => releaseHardware
  | ToggleMicrophoneMute => toggleMicrophoneMute
  end.

(** Running a sequence of inputs: the final state and everything done, in
    order. An exception that leaves a handler ends that handler only. *)
Fixpoint run (inputs : list Input) (this : AudioService)
  : AudioService * list Action :=
  match inputs with
  | [] => (this, [])
  | i :: rest =>
      let r := handler i this in
      let '(this', trace) := run rest (final r) in
      (this', actions r ++ trace)
  end.

End Service.

Arguments stopPlayback : simpl never.
Arguments playNextChunk : simpl never.
Arguments clearPlaybackTimeout : simpl never.
Arguments armPlaybackTimeout : simpl never.
Arguments handleAudioProcess : simpl never.
Arguments onended : simpl never.
Arguments onPlaybackTimeout : simpl never.
Arguments playAudioChunk : simpl never.
Arguments stopRecording : simpl never.
Arguments startRecording : simpl never.
Arguments releaseHardware : simpl never.

(** ** The scaled samples fit sixteen bits *)

Section ScaleSample.

Lemma Prim2SF_is_nan (x : float) : is_nan x = true -> Prim2SF x = S754_nan.
Proof. intros H. unfold Prim2SF. rewrite H. reflexivity. Qed.

Lemma Prim2SF_not_nan (x : float) : is_nan x = false -> Prim2SF x <> S754_nan.
Proof.
  intros H. unfold Prim2SF. rewrite H.
  destruct (is_zero x); [discriminate|].
  destruct (is_infinity x); [discriminate|].
  destruct (Z.frexp x) as [r exp].
  destruct (shr_fexp _ _ _ _ _) as [mrs e'].
  destruct (shr_m mrs); discriminate.
Qed.

(** What the clamp returns: a NaN sample as it is, [1] or [-1], or the
    sample itself when it lies between them. *)
Lemma clampSample_cases (x : float) :
  (is_nan x = true /\ clampSample x = x)
  \/ clampSample x = 1%float
  \/ clampSample x = (-1)%float
  \/ (is_nan x = false /\ clampSample x = x
      /\ (1 <? x)%float = false /\ (x <? -1)%float = false).
Proof.
  unfold clampSample, Math_min, Math_max.
  change (is_nan 1) with false. change (is_nan (-1)) with false.
  change (get_sign 1) with false. change (get_sign (-1)) with true.
  cbv iota.
  destruct (is_nan x) eqn:Hn.
  { rewrite Hn. left. split; reflexivity. }
  destruct (1 <? x)%float eqn:H1.
  { change (is_nan 1) with false. cbv iota.
    change (-1 <? 1)%float with true. cbv iota. right. left. reflexivity. }
  assert (Hm : (if (x <? 1)%float then x else x) = x)
    by (destruct (x <? 1)%float; reflexivity).
  rewrite Hm, Hn.
  destruct (-1 <? x)%float eqn:H2.
  - right. right. right. repeat split; try reflexivity.
    apply leb_true_ltb_false. rewrite leb_spec.
    rewrite ltb_spec in H2. unfold SFltb in H2. unfold SFleb.
    destruct (SFcompare _ _) as [[]|]; congruence.
  - destruct (x <? -1)%float eqn:H3.
    + right. right. left. reflexivity.
    + right. right. right. repeat split; reflexivity.
Qed.

Lemma valid_mantissa_lt (m : positive) (e : Z) :
  valid_binary (S754_finite false m e) = true -> Z.pos m < 2 ^ 53.
Proof.
  cbn [SpecFloat.valid_binary]. unfold bounded, canonical_mantissa, fexp.
  intros H. apply andb_prop in H as [H _]. apply Z.eqb_eq in H.
  rewrite digits2_pos_size in H.
  pose proof (Pos.size_gt m) as Hgt.
  apply Pos2Z.pos_lt_pos in Hgt. rewrite Pos2Z.inj_pow in Hgt.
  assert (Hd : Z.pos (Pos.size m) <= 53) by (unfold prec in H; lia).
  eapply Z.lt_le_trans; [exact Hgt|].
  apply Z.pow_le_mono_r; lia.
Qed.

(** A number that is not NaN, not above [1] and not below [-1] has
    magnitude at most 1. *)
Lemma SFunit_of_comparisons (x : float) :
  is_nan x = false ->
  (1 <? x)%float = false -> (x <? -1)%float = false ->
  SFunit (Prim2SF x).
Proof.
  intros Hn H1 H2. apply Prim2SF_not_nan in Hn.
  rewrite ltb_spec in H1, H2.
  change (Prim2SF 1) with (S754_finite false 4503599627370496 (-52)) in H1.
  change (Prim2SF (-1)) with (S754_finite true 4503599627370496 (-52)) in H2.
  pose proof (Prim2SF_valid x) as Hv.
  destruct (Prim2SF x) as [s|s| |s m e]; cbn [SFunit].
  - exact I.
  - destruct s; [discriminate H2 | discriminate H1].
  - congruence.
  - assert (Hm : Z.pos m < 2 ^ 53) by (apply (valid_mantissa_lt m e), Hv).
    assert (He : e <= -52
                 /\ (e = -52 -> Z.pos m <= 4503599627370496)).
    { unfold SFltb, SFcompare in H1, H2. destruct s.
      - destruct (Z.compare_spec e (-52)) as [->|Hlt|Hgt].
        + split; [lia|]. intros _.
          rewrite Pos.compare_cont_spec in H2. cbn [Pos.switch_Eq] in H2.
          rewrite Pos2Z.inj_compare in H2.
          destruct (Z.compare_spec (Z.pos m) 4503599627370496);
            [lia | lia | discriminate H2].
        + split; lia.
        + discriminate H2.
      - destruct (Z.compare_spec (-52) e) as [<-|Hlt|Hgt].
        + split; [lia|]. intros _.
          rewrite Pos.compare_cont_spec in H1. cbn [Pos.switch_Eq] in H1.
          rewrite Pos2Z.inj_compare in H1.
          destruct (Z.compare_spec 4503599627370496 (Z.pos m));
            [lia | discriminate H1 | lia].
        + discriminate H1.
        + split; lia. }
    destruct He as [He Heq]. split; [lia|].
    destruct (Z.eq_dec e (-52)) as [->|Hne].
    + specialize (Heq eq_refl). change (2 ^ (- -52)) with 4503599627370496. lia.
    + assert (2 ^ 53 <= 2 ^ (- e)) by (apply Z.pow_le_mono_r; lia). lia.
Qed.

(** No scaled sample overflows sixteen bits: truncated towards zero it
    lies in [-32768, 32767]. *)
Lemma scaleSample_range (x : float) :
  -32768 <= truncate (scaleSample x) <= 32767.
Proof.
  unfold scaleSample. cbv zeta.
  destruct (clampSample_cases x)
    as [[Hn ->] | [-> | [-> | (Hn & -> & H1 & H2)]]].
  - assert (Hlt : (x <? 0)%float = false).
    { rewrite ltb_spec, (Prim2SF_is_nan x Hn). reflexivity. }
    rewrite Hlt. unfold truncate.
    rewrite mul_spec, (Prim2SF_is_nan x Hn). cbn. lia.
  - change (truncate (if (1 <? 0)%float then (1 * 32768)%float
                      else (1 * 32767)%float)) with 32767. lia.
  - change (truncate (if (-1 <? 0)%float then (-1 * 32768)%float
                      else (-1 * 32767)%float)) with (-32768). lia.
  - pose proof (SFunit_of_comparisons x Hn H1 H2) as Hu.
    destruct (x <? 0)%float eqn:Hneg; unfold truncate; rewrite mul_spec.
    + change (Prim2SF 32768) with (S754_finite false 4503599627370496 (-37)).
      destruct (SFmul_unit_bound 32768 ltac:(lia) (Prim2SF x)
                  4503599627370496 (-37) Hu ltac:(lia) ltac:(cbn; lia))
        as (v & Hv & ->).
      rewrite ltb_spec in Hneg.
      change (Prim2SF 0) with (S754_zero false) in Hneg.
      destruct (Prim2SF x) as [s|s| |[] m e]; cbn in Hneg, Hu |- *;
        try discriminate Hneg; try contradiction; lia.
    + change (Prim2SF 32767) with (S754_finite false 9006924376834048 (-38)).
      destruct (SFmul_unit_bound 32767 ltac:(lia) (Prim2SF x)
                  9006924376834048 (-38) Hu ltac:(lia) ltac:(cbn; lia))
        as (v & Hv & ->).
      destruct (SFsign (Prim2SF x)); cbn; lia.
Qed.

(** So [setInt16] stores the truncated value itself: [ToInt16] does not
    wrap. *)
Lemma ToInt16_scaleSample (x : float) :
  ToInt16 (scaleSample x) = truncate (scaleSample x).
Proof.
  pose proof (scaleSample_range x) as H. unfold ToInt16.
  destruct (32768 <=? truncate (scaleSample x) mod 65536) eqn:E;
    [apply Z.leb_le in E | apply Z.leb_gt in E];
    revert E; Z.div_mod_to_equations; lia.
Qed.

Lemma SFcompare_None (a b : spec_float) :
  SFcompare a b = None -> a = S754_nan \/ b = S754_nan.
Proof.
  destruct a as [s|s| |s m e], b as [s'|s'| |s' m' e']; cbn;
    intros H; try discriminate H; auto.
Qed.

(** Between two numbers neither of which is NaN, "not less than" is
    "greater than or equal to". *)
Lemma ltb_false_leb_true (x y : float) :
  is_nan x = false -> is_nan y = false ->
  (x <? y)%float = false -> (y <=? x)%float = true.
Proof.
  intros Hx Hy. rewrite ltb_spec, leb_spec. unfold SFltb, SFleb.
  rewrite (SFcompare_antisym (Prim2SF x) (Prim2SF y)).
  destruct (SFcompare (Prim2SF x) (Prim2SF y)) as [[]|] eqn:E; cbn;
    try congruence.
  apply SFcompare_None in E.
  destruct E as [E|E]; [apply Prim2SF_not_nan in Hx | apply Prim2SF_not_nan in Hy];
    contradiction.
Qed.

(** The clamp does clamp: its result is NaN (when the sample is) or lies
    in [-1, 1]. *)
Lemma clampSample_clamps (x : float) :
  (is_nan x = true /\ is_nan (clampSample x) = true)
  \/ ((-1 <=? clampSample x)%float = true
      /\ (clampSample x <=? 1)%float = true).
Proof.
  destruct (clampSample_cases x)
    as [[Hn ->] | [-> | [-> | (Hn & -> & H1 & H2)]]].
  - left. split; assumption.
  - right. split; reflexivity.
  - right. split; reflexivity.
  - right. split; apply ltb_false_leb_true; auto.
Qed.

End ScaleSample.

(** ** The WAV encoder: every store is in range, fields read back *)

Section DataViewFacts.

Implicit Types view : ArrayBuffer.

(** [view'] has the size of [view] and differs from it at most on the
    octets [lo, hi). *)
Definition modifiesOnly (lo hi : Z) view view' : Prop :=
  length view' = length view
  /\ forall k : nat, (Z.of_nat k < lo \/ hi <= Z.of_nat k) ->
                     view' !! k = view !! k.

Lemma modifiesOnly_refl lo hi view : modifiesOnly lo hi view view.
Proof. split; auto. Qed.

Lemma modifiesOnly_trans lo hi lo' hi' view1 view2 view3 :
  modifiesOnly lo hi view1 view2 ->
  modifiesOnly lo' hi' view2 view3 ->
  modifiesOnly (Z.min lo lo') (Z.max hi hi') view1 view3.
Proof.
  intros [L1 A1] [L2 A2]. split; [congruence|].
  intros k Hk. rewrite A2, A1 by lia. reflexivity.
Qed.

Lemma modifiesOnly_weaken lo hi lo' hi' view view' :
  modifiesOnly lo hi view view' -> lo' <= lo -> hi <= hi' ->
  modifiesOnly lo' hi' view view'.
Proof. intros [L A] ? ?. split; [exact L|]. intros k Hk. apply A. lia. Qed.

Lemma peek_outside lo hi view view' j :
  modifiesOnly lo hi view view' -> 0 <= j -> (j < lo \/ hi <= j) ->
  peek view' j = peek view j.
Proof.
  intros [_ A] Hj Ho. unfold peek. rewrite A by lia. reflexivity.
Qed.

Lemma poke_modifiesOnly view i x :
  0 <= i -> modifiesOnly i (i + 1) view (poke view i x).
Proof.
  intros Hi. unfold poke. split.
  - apply length_insert.
  - intros k Hk. apply list_lookup_insert_ne. lia.
Qed.

Lemma peek_poke view i x :
  0 <= i < byteLength view -> peek (poke view i x) i = x.
Proof.
  unfold peek, poke, byteLength. intros Hi.
  rewrite list_lookup_insert_eq by lia. reflexivity.
Qed.

Lemma peek_poke_ne view i j x :
  0 <= i -> 0 <= j -> i <> j -> peek (poke view i x) j = peek view j.
Proof.
  unfold peek, poke. intros Hi Hj Hne.
  rewrite list_lookup_insert_ne by lia. reflexivity.
Qed.

Lemma byteLength_poke view i x : byteLength (poke view i x) = byteLength view.
Proof. unfold byteLength, poke. rewrite length_insert. reflexivity. Qed.

Lemma inRange_true view o size :
  0 <= o -> o + size <= byteLength view -> inRange view o size = true.
Proof.
  intros H1 H2. unfold inRange.
  apply andb_true_intro; split; apply Z.leb_le; assumption.
Qed.

Lemma inRange_same_length view view' o size :
  length view' = length view -> inRange view' o size = inRange view o size.
Proof. intros L. unfold inRange, byteLength. rewrite L. reflexivity. Qed.

Lemma byteLength_modifiesOnly lo hi view view' :
  modifiesOnly lo hi view view' -> byteLength view' = byteLength view.
Proof. intros [L _]. unfold byteLength. rewrite L. reflexivity. Qed.

Lemma setUint8_ok view o v :
  0 <= o -> o + 1 <= byteLength view ->
  exists view', setUint8 view o v = Some view'
    /\ modifiesOnly o (o + 1) view view'
    /\ peek view' o = ToUint8 v.
Proof.
  intros H1 H2. unfold setUint8. rewrite inRange_true by assumption.
  eexists; split; [reflexivity|]. split.
  - apply poke_modifiesOnly; assumption.
  - apply peek_poke. lia.
Qed.

Lemma store16_modifiesOnly view o bits :
  0 <= o -> modifiesOnly o (o + 2) view (store16 view o bits).
Proof.
  intros Ho. unfold store16.
  eapply modifiesOnly_weaken.
  - eapply modifiesOnly_trans; apply poke_modifiesOnly; lia.
  - lia.
  - lia.
Qed.

Lemma getUint16_store16 view o bits :
  0 <= o -> o + 2 <= byteLength view -> 0 <= bits < 65536 ->
  getUint16 (store16 view o bits) o = bits.
Proof.
  intros Ho Hl Hb. unfold getUint16, store16.
  rewrite peek_poke_ne by lia.
  rewrite !peek_poke by (rewrite ?byteLength_poke; lia).
  Z.div_mod_to_equations. lia.
Qed.

Lemma setUint16_ok view o v :
  0 <= o -> o + 2 <= byteLength view ->
  exists view', setUint16 view o v = Some view'
    /\ modifiesOnly o (o + 2) view view'
    /\ getUint16 view' o = ToUint16 v.
Proof.
  intros H1 H2. unfold setUint16. rewrite inRange_true by assumption.
  eexists; split; [reflexivity|]. split.
  - apply store16_modifiesOnly; assumption.
  - apply getUint16_store16; try assumption.
    unfold ToUint16. apply Z.mod_pos_bound. lia.
Qed.

Lemma ToInt16_range x : -32768 <= ToInt16 x < 32768.
Proof.
  unfold ToInt16.
  pose proof (Z.mod_pos_bound (truncate x) 65536 eq_refl) as Hb.
  destruct (32768 <=? truncate x mod 65536) eqn:E;
    [apply Z.leb_le in E | apply Z.leb_gt in E]; lia.
Qed.

Lemma setInt16_ok view o x :
  0 <= o -> o + 2 <= byteLength view ->
  exists view', setInt16 view o x = Some view'
    /\ modifiesOnly o (o + 2) view view'
    /\ getInt16 view' o = ToInt16 x.
Proof.
  intros H1 H2. unfold setInt16. rewrite inRange_true by assumption.
  eexists; split; [reflexivity|]. split.
  - apply store16_modifiesOnly; assumption.
  - unfold getInt16.
    rewrite getUint16_store16
      by (try assumption; apply Z.mod_pos_bound; lia).
    pose proof (ToInt16_range x) as Hr.
    destruct (32768 <=? ToInt16 x mod 65536) eqn:E;
      [apply Z.leb_le in E | apply Z.leb_gt in E];
      revert E; Z.div_mod_to_equations; lia.
Qed.

Lemma setUint32_ok view o v :
  0 <= o -> o + 4 <= byteLength view ->
  exists view', setUint32 view o v = Some view'
    /\ modifiesOnly o (o + 4) view view'
    /\ getUint32 view' o = ToUint32 v.
Proof.
  intros H1 H2. unfold setUint32. rewrite inRange_true by assumption.
  eexists; split; [reflexivity|]. split.
  - eapply modifiesOnly_weaken.
    + eapply modifiesOnly_trans; [|apply poke_modifiesOnly; lia].
      eapply modifiesOnly_trans; [|apply poke_modifiesOnly; lia].
      eapply modifiesOnly_trans; apply poke_modifiesOnly; lia.
    + lia.
    + lia.
  - unfold getUint32, ToUint32.
    repeat first
      [ rewrite peek_poke by (rewrite ?byteLength_poke; lia)
      | rewrite peek_poke_ne by lia ].
    pose proof (Z.mod_pos_bound v 4294967296 eq_refl).
    Z.div_mod_to_equations. lia.
Qed.

Lemma writeString_from_ok codes : forall view offset i,
  0 <= offset + i ->
  offset + i + Z.of_nat (length codes) <= byteLength view ->
  exists view', writeString_from view offset i codes = Some view'
    /\ modifiesOnly (offset + i) (offset + i + Z.of_nat (length codes))
                    view view'.
Proof.
  induction codes as [|c rest IH]; intros view offset i H1 H2; cbn [writeString_from].
  - eexists; split; [reflexivity|]. apply modifiesOnly_refl.
  - cbn [length] in H2.
    destruct (setUint8_ok view (offset + i) c) as (v1 & E1 & M1 & _);
      [lia..|].
    rewrite E1. cbn.
    destruct (IH v1 offset (i + 1)) as (v2 & E2 & M2).
    + lia.
    + rewrite (byteLength_modifiesOnly _ _ _ _ M1). lia.
    + exists v2. split; [exact E2|].
      eapply modifiesOnly_weaken;
        [eapply modifiesOnly_trans; eassumption | cbn [length]; lia..].
Qed.

Lemma writeString_ok view offset s :
  0 <= offset ->
  offset + Z.of_nat (length (charCodes s)) <= byteLength view ->
  exists view', writeString view offset s = Some view'
    /\ modifiesOnly offset (offset + Z.of_nat (length (charCodes s)))
                    view view'.
Proof.
  intros H1 H2. unfold writeString.
  destruct (writeString_from_ok (charCodes s) view offset 0) as (v & E & M);
    [lia..|].
  exists v. split; [exact E|]. rewrite Z.add_0_r in M. exact M.
Qed.

Lemma getUint32_outside lo hi view view' o :
  modifiesOnly lo hi view view' -> 0 <= o -> (o + 4 <= lo \/ hi <= o) ->
  getUint32 view' o = getUint32 view o.
Proof.
  intros M Ho Hd. unfold getUint32.
  rewrite !(peek_outside _ _ _ _ _ M) by lia. reflexivity.
Qed.

Lemma getUint16_outside lo hi view view' o :
  modifiesOnly lo hi view view' -> 0 <= o -> (o + 2 <= lo \/ hi <= o) ->
  getUint16 view' o = getUint16 view o.
Proof.
  intros M Ho Hd. unfold getUint16.
  rewrite !(peek_outside _ _ _ _ _ M) by lia. reflexivity.
Qed.

Lemma getInt16_outside lo hi view view' o :
  modifiesOnly lo hi view view' -> 0 <= o -> (o + 2 <= lo \/ hi <= o) ->
  getInt16 view' o = getInt16 view o.
Proof.
  intros M Ho Hd. unfold getInt16.
  rewrite (getUint16_outside _ _ _ _ _ M) by lia. reflexivity.
Qed.

(** The sample loop: sample [j] of the input lands, as [ToInt16] of its
    scaled value, in the two octets at [offset + 2 * (i + j)]. *)
Lemma writeSamples_ok samples : forall view offset i,
  0 <= offset -> 0 <= i ->
  offset + 2 * (i + Z.of_nat (length samples)) <= byteLength view ->
  exists view', writeSamples view offset 2 i samples = Some view'
    /\ modifiesOnly (offset + 2 * i)
                    (offset + 2 * (i + Z.of_nat (length samples))) view view'
    /\ forall (j : nat) x, samples !! j = Some x ->
         getInt16 view' (offset + 2 * (i + Z.of_nat j))
         = ToInt16 (scaleSample x).
Proof.
  induction samples as [|x rest IH]; intros view offset i Ho Hi Hl;
    cbn [writeSamples].
  - eexists; split; [reflexivity|]. split.
    + apply modifiesOnly_refl.
    + intros j y Hj. discriminate.
  - cbn [length] in Hl.
    destruct (setInt16_ok view (offset + i * 2) (scaleSample x))
      as (v1 & E1 & M1 & R1); [lia..|].
    rewrite E1. cbn.
    destruct (IH v1 offset (i + 1)) as (v2 & E2 & M2 & R2).
    + lia.
    + lia.
    + rewrite (byteLength_modifiesOnly _ _ _ _ M1). lia.
    + exists v2. split; [exact E2|]. split.
      * eapply modifiesOnly_weaken;
          [eapply modifiesOnly_trans; eassumption | cbn [length]; lia..].
      * intros [|j] y Hj; cbn in Hj.
        -- injection Hj as <-.
           rewrite (getInt16_outside _ _ _ _ _ M2) by lia.
           replace (offset + 2 * (i + Z.of_nat 0)) with (offset + i * 2)
             by lia.
           exact R1.
        -- rewrite <- (R2 j y Hj). f_equal. lia.
Qed.

End DataViewFacts.

Section Float32ToWav.

Lemma byteLength_new_ArrayBuffer n :
  0 <= n -> byteLength (new_ArrayBuffer n) = n.
Proof.
  intros Hn. unfold byteLength, new_ArrayBuffer.
  rewrite length_replicate. lia.
Qed.

Local Ltac store lem view' E M R :=
  match goal with
  | |- context [mbind _ (?f ?view ?o ?v)] =>
      destruct (lem view o v) as (view' & E & M & R);
      [ try (cbn; lia).. | rewrite E; cbn [mbind option_bind] ]
  end.

Local Ltac text view' E M :=
  match goal with
  | |- context [mbind _ (writeString ?view ?o ?s)] =>
      destruct (writeString_ok view o s) as (view' & E & M);
      [ try (cbn; lia).. | rewrite E; cbn [mbind option_bind] ]
  end.

Local Ltac carry M L L' :=
  pose proof (byteLength_modifiesOnly _ _ _ _ M) as L'; rewrite L in L'.

(** What [float32ToWav] computes: it never raises, the result has
    [44 + 2 * n] octets, the RIFF chunk-size and data-size fields hold
    [ToUint32] of [totalSize - 8] and of [dataSize], and sample [j] is
    stored, as [ToInt16] of its scaled clamped value, at octet
    [44 + 2 * j]. *)
Lemma float32ToWav_layout (buffer : Float32Array) (rate : Z) :
  let n := Z.of_nat (length buffer) in
  exists wav,
    float32ToWav buffer rate = Some wav
    /\ byteLength wav = 44 + 2 * n
    /\ getUint32 wav 4 = ToUint32 (44 + 2 * n - 8)
    /\ getUint32 wav 24 = ToUint32 rate
    /\ getUint32 wav 40 = ToUint32 (2 * n)
    /\ forall (j : nat) x, buffer !! j = Some x ->
         getInt16 wav (44 + 2 * Z.of_nat j) = ToInt16 (scaleSample x).
Proof.
  intros n. unfold float32ToWav. cbv zeta.
  replace (Z.of_nat (length buffer) * 2) with (2 * n) by lia.
  assert (Hn : 0 <= n) by lia.
  pose proof (byteLength_new_ArrayBuffer (44 + 2 * n) ltac:(lia)) as L0.
  generalize dependent (new_ArrayBuffer (44 + 2 * n)). intros v0 L0.
  text v1 E1 M1. carry M1 L0 L1.
  store setUint32_ok v2 E2 M2 R2. carry M2 L1 L2.
  text v3 E3 M3. carry M3 L2 L3.
  text v4 E4 M4. carry M4 L3 L4.
  store setUint32_ok v5 E5 M5 R5. carry M5 L4 L5.
  store setUint16_ok v6 E6 M6 R6. carry M6 L5 L6.
  store setUint16_ok v7 E7 M7 R7. carry M7 L6 L7.
  store setUint32_ok v8 E8 M8 R8. carry M8 L7 L8.
  store setUint32_ok v9 E9 M9 R9. carry M9 L8 L9.
  store setUint16_ok v10 E10 M10 R10. carry M10 L9 L10.
  store setUint16_ok v11 E11 M11 R11. carry M11 L10 L11.
  text v12 E12 M12. carry M12 L11 L12.
  store setUint32_ok v13 E13 M13 R13. carry M13 L12 L13.
  destruct (writeSamples_ok buffer v13 44 0) as (wav & E & M & R);
    [lia | lia | fold n; lia |].
  exists wav. split; [exact E|].
  cbn in M3, M4, M12. fold n in M.
  repeat split.
  - rewrite (byteLength_modifiesOnly _ _ _ _ M). exact L13.
  - rewrite (getUint32_outside _ _ _ _ _ M) by lia.
    rewrite (getUint32_outside _ _ _ _ _ M13) by lia.
    rewrite (getUint32_outside _ _ _ _ _ M12) by lia.
    rewrite (getUint32_outside _ _ _ _ _ M11) by lia.
    rewrite (getUint32_outside _ _ _ _ _ M10) by lia.
    rewrite (getUint32_outside _ _ _ _ _ M9) by lia.
    rewrite (getUint32_outside _ _ _ _ _ M8) by lia.
    rewrite (getUint32_outside _ _ _ _ _ M7) by lia.
    rewrite (getUint32_outside _ _ _ _ _ M6) by lia.
    rewrite (getUint32_outside _ _ _ _ _ M5) by lia.
    rewrite (getUint32_outside _ _ _ _ _ M4) by lia.
    rewrite (getUint32_outside _ _ _ _ _ M3) by lia.
    exact R2.
  - rewrite (getUint32_outside _ _ _ _ _ M) by lia.
    rewrite (getUint32_outside _ _ _ _ _ M13) by lia.
    rewrite (getUint32_outside _ _ _ _ _ M12) by lia.
    rewrite (getUint32_outside _ _ _ _ _ M11) by lia.
    rewrite (getUint32_outside _ _ _ _ _ M10) by lia.
    rewrite (getUint32_outside _ _ _ _ _ M9) by lia.
    exact R8.
  - rewrite (getUint32_outside _ _ _ _ _ M) by lia.
    exact R13.
  - intros j x Hj. exact (R j x Hj).
Qed.

(** C10, as the code has it. [float32ToWav] never raises and returns
    [44 + 2 * n] octets. The RIFF chunk-size and data-size fields are
    32 bits wide: they hold the total size minus 8 and [2 * n] modulo
    [2 ^ 32], hence these sizes themselves whenever [2 * n + 36 < 2 ^ 32].
    Every sample is clamped (to [-1, 1]; a NaN sample stays NaN and is
    stored as 0) before it is scaled, by 32768 if negative and by 32767
    otherwise, so that its truncated scaled value lies in
    [-32768, 32767] and is stored without wrapping at octet
    [44 + 2 * j]. *)
Theorem C10_float32ToWav_layout_and_range
    (buffer : Float32Array) (sampleRate : Z) :
  let n := Z.of_nat (length buffer) in
  exists wav,
    float32ToWav buffer sampleRate = Some wav
    /\ byteLength wav = 44 + 2 * n
    /\ getUint32 wav 4 = (byteLength wav - 8) mod 2 ^ 32
    /\ getUint32 wav 40 = (2 * n) mod 2 ^ 32
    /\ (2 * n + 36 < 2 ^ 32 ->
        getUint32 wav 4 = byteLength wav - 8 /\ getUint32 wav 40 = 2 * n)
    /\ forall (j : nat) x, buffer !! j = Some x ->
         ((is_nan x = true /\ is_nan (clampSample x) = true)
          \/ ((-1 <=? clampSample x)%float = true
              /\ (clampSample x <=? 1)%float = true))
         /\ scaleSample x
            = (if (clampSample x <? 0)%float
               then (clampSample x * 32768)%float
               else (clampSample x * 32767)%float)
         /\ -32768 <= truncate (scaleSample x) <= 32767
         /\ getInt16 wav (44 + 2 * Z.of_nat j) = truncate (scaleSample x).
Proof.
  intros n.
  destruct (float32ToWav_layout buffer sampleRate)
    as (wav & E & L & R4 & _ & R40 & Rs).
  fold n in L, R4, R40.
  exists wav. split; [exact E|]. split; [exact L|].
  unfold ToUint32 in R4, R40.
  change 4294967296 with (2 ^ 32) in R4, R40.
  split; [rewrite L; exact R4|]. split; [exact R40|]. split.
  - intros Hsmall. rewrite R4, R40, L.
    rewrite !Z.mod_small by lia. split; reflexivity.
  - intros j x Hj. split; [apply clampSample_clamps|].
    split; [reflexivity|]. split; [apply scaleSample_range|].
    rewrite (Rs j x Hj). apply ToInt16_scaleSample.
Qed.

(** The size fields wrap once the file passes 4 GiB. *)
Lemma size_fields_wrap (k : nat) (wav : ArrayBuffer) :
  Z.of_nat k = 2147483630 ->
  float32ToWav (replicate k 0%float) 44100 = Some wav ->
  byteLength wav - 8 = 4294967296 /\ getUint32 wav 4 = 0.
Proof.
  intros Hk E.
  destruct (float32ToWav_layout (replicate k 0%float) 44100)
    as (wav' & E' & L & R4 & _).
  rewrite E in E'. injection E' as <-.
  rewrite length_replicate, Hk in L, R4.
  split; [rewrite L; reflexivity|]. rewrite R4. reflexivity.
Qed.

(** C10 as stated fails on an input of 2147483630 samples: the encoder
    returns 4294967304 octets whose RIFF chunk-size field reads 0, not the
    total size minus 8. *)
Lemma C10_counterexample_riff_size_wraps :
  exists wav,
    float32ToWav (replicate (Z.to_nat 2147483630) 0%float) 44100 = Some wav
    /\ getUint32 wav 4 <> byteLength wav - 8.
Proof.
  destruct (float32ToWav_layout
              (replicate (Z.to_nat 2147483630) 0%float) 44100)
    as (wav & E & _).
  exists wav. split; [exact E|].
  destruct (size_fields_wrap (Z.to_nat 2147483630) wav) as [L R].
  - apply Z2Nat.id. discriminate.
  - exact E.
  - rewrite L, R. discriminate.
Qed.

End Float32ToWav.

(** ** The copy loop of [sendAudioChunk] concatenates the frames *)

Section CopyData.

Lemma totalLength_from (buffers : list Float32Array) : forall acc,
  fold_left (fun acc buffer => acc + Z.of_nat (length buffer)) buffers acc
  = acc + Z.of_nat (length (concat buffers)).
Proof.
  induction buffers as [|b rest IH]; intros acc; cbn [fold_left concat].
  - cbn. lia.
  - rewrite IH, length_app. lia.
Qed.

Lemma totalLength_concat (buffers : list Float32Array) :
  totalLength buffers = Z.of_nat (length (concat buffers)).
Proof. unfold totalLength. rewrite totalLength_from. lia. Qed.

Lemma Float32Array_set_middle (pre old post source : Float32Array) :
  length old = length source ->
  Float32Array_set (pre ++ old ++ post) source (Z.of_nat (length pre))
  = Some (pre ++ source ++ post).
Proof.
  intros L. unfold Float32Array_set.
  rewrite !length_app, Nat2Z.id.
  destruct (Z.leb_spec 0 (Z.of_nat (length pre))); [|lia].
  destruct (Z.leb_spec
              (Z.of_nat (length pre) + Z.of_nat (length source))
              (Z.of_nat (length pre + (length old + length post)))); [|lia].
  cbn [andb]. f_equal.
  rewrite take_app_length.
  rewrite drop_app_ge by lia.
  replace (length pre + length source - length pre)%nat
    with (length old) by lia.
  rewrite drop_app_length. reflexivity.
Qed.

Lemma copyData_fills (buffers : list Float32Array) :
  forall pre fill post : Float32Array,
    length fill = length (concat buffers) ->
    copyData (pre ++ fill ++ post) (Z.of_nat (length pre)) buffers
    = Some (pre ++ concat buffers ++ post).
Proof.
  induction buffers as [|b rest IH]; intros pre fill post L;
    cbn [copyData concat] in *.
  - destruct fill; [reflexivity | discriminate].
  - rewrite length_app in L.
    rewrite <- (take_drop (length b) fill) at 1.
    rewrite <- (app_assoc (take _ fill)).
    rewrite Float32Array_set_middle by (rewrite length_take; lia).
    cbn [mbind option_bind].
    rewrite <- Nat2Z.inj_add, <- length_app.
    rewrite (app_assoc pre b), IH by (rewrite length_drop; lia).
    rewrite <- !app_assoc. reflexivity.
Qed.

(** [new Float32Array(totalLength)] filled by the loop is the
    concatenation of the accumulated frames, first frame first. *)
Lemma copyData_concat (buffers : list Float32Array) :
  copyData (replicate (Z.to_nat (totalLength buffers)) 0%float) 0 buffers
  = Some (concat buffers).
Proof.
  pose proof (copyData_fills buffers []
                (replicate (Z.to_nat (totalLength buffers)) 0%float) []) as H.
  rewrite !app_nil_r in H. cbn [app length] in H. apply H.
  rewrite length_replicate, totalLength_concat. lia.
Qed.

End CopyData.

(** ** Traces and [sendAudioChunk] *)

(** The utterances a trace sends to the server, in order. *)
Definition utterances (trace : list Action) : list ArrayBuffer :=
  omap (fun a => match a with WsSendAudio wav => Some wav | _ => None end)
       trace.

(** How many interrupt signals a trace sends to the server. *)
Definition interrupts (trace : list Action) : nat :=
  length (omap (fun a => match a with WsInterrupt => Some a | _ => None end)
               trace).

(** The events of one kind a trace dispatches, in order. *)
Definition dispatched (event : AudioEvent) (trace : list Action)
  : list EventData :=
  omap (fun a => match a with
                 | Dispatch e data =>
                     if bool_decide (e = event) then Some data else None
                 | _ => None
                 end) trace.

(** The buffers a trace starts playing, in order. *)
Definition started (trace : list Action) : list AudioBuffer :=
  omap (fun a => match a with
                 | NodeStart node => Some (buffer node)
                 | _ => None
                 end) trace.

Section SendAudioChunk.

Lemma set_audioBuffer_same (this : AudioService) :
  set_audioBuffer (audioBuffer this) this = this.
Proof. destruct this; reflexivity. Qed.

Lemma sendAudioChunk_empty (this : AudioService) :
  audioBuffer this = [] -> sendAudioChunk this = Out this [] false.
Proof. intros E. unfold sendAudioChunk. rewrite E. reflexivity. Qed.

Lemma sendAudioChunk_too_short (this : AudioService) :
  isVoiceDetected this = false ->
  (audioLengthMs this <? minRecordingLength this)%float = true ->
  sendAudioChunk this = Out (set_audioBuffer [] this) [] false.
Proof.
  intros Hv Hs. unfold sendAudioChunk.
  case_bool_decide as Hl.
  - apply nil_length_inv in Hl.
    rewrite <- Hl, set_audioBuffer_same. reflexivity.
  - destruct (isProcessing this); [reflexivity|].
    rewrite Hv, Hs. reflexivity.
Qed.

Lemma sendAudioChunk_sends (this : AudioService) :
  audioBuffer this <> [] ->
  isProcessing this = false ->
  isVoiceDetected this = true
    \/ (audioLengthMs this <? minRecordingLength this)%float = false ->
  exists wav,
    float32ToWav (concat (audioBuffer this)) (sampleRate (config this))
      = Some wav
    /\ sendAudioChunk this
       = Out (set_audioBuffer [] this) [WsSendAudio wav] false.
Proof.
  intros Hne Hp Hlong.
  destruct (float32ToWav_layout (concat (audioBuffer this))
              (sampleRate (config this))) as (wav & Ewav & _).
  exists wav. split; [exact Ewav|].
  unfold sendAudioChunk.
  case_bool_decide as Hl; [apply nil_length_inv in Hl; contradiction|].
  rewrite Hp.
  replace (negb (isVoiceDetected this)
           && (audioLengthMs this <? minRecordingLength this)%float)
    with false
    by (destruct Hlong as [-> | ->]; rewrite ?andb_false_r; reflexivity).
  rewrite copyData_concat. cbn [mbind option_bind]. rewrite Ewav.
  reflexivity.
Qed.

End SendAudioChunk.

(** ** Invariants of procedures and of runs *)

Section Preservation.

Variable I : AudioService -> Prop.
Variable A : Action -> Prop.

(** From a state satisfying [I], [p] ends (normally or not) in a state
    satisfying [I], having performed only actions satisfying [A]. *)
Definition Preserves (p : Proc) : Prop :=
  forall this, I this -> I (final (p this)) /\ Forall A (actions (p this)).

Lemma Preserves_skip : Preserves skip.
Proof. intros this H. split; [exact H | constructor]. Qed.

Lemma Preserves_throw : Preserves throw.
Proof. intros this H. split; [exact H | constructor]. Qed.

Lemma Preserves_act a : A a -> Preserves (act a).
Proof. intros Ha this H. split; [exact H | repeat constructor; exact Ha]. Qed.

Lemma Preserves_dispatchEvent e d :
  A (Dispatch e d) -> Preserves (dispatchEvent e d).
Proof. apply Preserves_act. Qed.

Lemma Preserves_assign f :
  (forall this, I this -> I (f this)) -> Preserves (assign f).
Proof. intros Hf this H. split; [apply Hf, H | constructor]. Qed.

Lemma Preserves_seq p q : Preserves p -> Preserves q -> Preserves (seq p q).
Proof.
  intros Hp Hq this H. rewrite seq_run.
  destruct (Hp this H) as [H1 A1].
  destruct (thrown (p this)); [split; assumption|].
  destruct (Hq _ H1) as [H2 A2]. split; [exact H2|].
  rewrite actions_after. apply Forall_app; split; assumption.
Qed.

Lemma Preserves_tryCatch p h :
  Preserves p -> Preserves h -> Preserves (tryCatch p h).
Proof.
  intros Hp Hh this H. rewrite tryCatch_run.
  destruct (Hp this H) as [H1 A1].
  destruct (thrown (p this)); [|split; assumption].
  destruct (Hh _ H1) as [H2 A2]. split; [exact H2|].
  rewrite actions_after. apply Forall_app; split; assumption.
Qed.

Lemma Preserves_ifThenElse c p q :
  Preserves p -> Preserves q -> Preserves (ifThenElse c p q).
Proof.
  intros Hp Hq this H. rewrite run_ifThenElse.
  destruct (c this); auto.
Qed.

Lemma Preserves_ifThenElse_false c p q :
  (forall this, I this -> c this = false) ->
  Preserves q -> Preserves (ifThenElse c p q).
Proof.
  intros Hc Hq this H. rewrite run_ifThenElse, (Hc this H). auto.
Qed.

Lemma Preserves_when c p : Preserves p -> Preserves (when c p).
Proof. intros Hp. apply Preserves_ifThenElse; [exact Hp | apply Preserves_skip]. Qed.

Lemma Preserves_when_false c p :
  (forall this, I this -> c this = false) -> Preserves (when c p).
Proof.
  intros Hc. apply Preserves_ifThenElse_false; [exact Hc | apply Preserves_skip].
Qed.

Lemma Preserves_withThis k :
  (forall s, I s -> Preserves (k s)) -> Preserves (withThis k).
Proof. intros Hk this H. rewrite run_withThis. apply Hk; exact H. Qed.

Lemma Preserves_if (b : bool) p q :
  Preserves p -> Preserves q -> Preserves (if b then p else q).
Proof. destruct b; auto. Qed.

Lemma Preserves_ext p q :
  (forall this, I this -> p this = q this) -> Preserves q -> Preserves p.
Proof. intros E Hq this H. rewrite (E this H). auto. Qed.

End Preservation.

(** Break a procedure down along its structure. What is left are the
    assignments (does the new state satisfy the invariant?), the actions
    (are they allowed?) and the calls of other methods. *)
Ltac preserves_rule :=
  lazymatch goal with
  | |- Preserves _ _ (seq _ _) => apply Preserves_seq
  | |- Preserves _ _ (tryCatch _ _) => apply Preserves_tryCatch
  | |- Preserves _ _ skip => apply Preserves_skip
  | |- Preserves _ _ throw => apply Preserves_throw
  | |- Preserves _ _ (ifThenElse _ _ _) => apply Preserves_ifThenElse
  | |- Preserves _ _ (when _ _) => apply Preserves_when
  | |- Preserves _ _ (assign _) => apply Preserves_assign
  | |- Preserves _ _ (act _) => apply Preserves_act
  | |- Preserves _ _ (dispatchEvent _ _) => apply Preserves_dispatchEvent
  | |- Preserves _ _ (withThis _) =>
      apply Preserves_withThis; intros ? ?; cbv zeta
  | |- Preserves _ _ (match ?x with _ => _ end) =>
      first [ apply Preserves_if | destruct x ]
  end.

Ltac preserves_with tac := repeat first [ tac | preserves_rule ].

Ltac preserves_struct := preserves_with fail.

Section RunInvariant.

Variable startThrows stopThrows : AudioBufferSourceNode -> bool.
Variable I : AudioService -> Prop.
Variable A : Action -> Prop.

(** If the handler of every input of a run preserves [I] with actions in
    [A], then so does the run, and [I] holds after every prefix of it. *)
Lemma run_Preserves (inputs : list Input) : forall this,
  (forall i, i ∈ inputs -> Preserves I A (handler startThrows stopThrows i)) ->
  I this ->
  I (run startThrows stopThrows inputs this).1
  /\ Forall A (run startThrows stopThrows inputs this).2.
Proof.
  induction inputs as [|i rest IH]; intros this Hall H; cbn [run].
  - split; [exact H | constructor].
  - destruct (Hall i ltac:(left)) with this as [H1 A1]; [exact H|].
    destruct (IH (final (handler startThrows stopThrows i this))) as [H2 A2].
    + intros j Hj. apply Hall. right. exact Hj.
    + exact H1.
    + destruct (run startThrows stopThrows rest _) as [s t]. cbn in *.
      split; [exact H2|]. apply Forall_app; split; assumption.
Qed.

End RunInvariant.

(** ** Properties *)

Section Properties.

Variable startThrows : AudioBufferSourceNode -> bool.
Variable stopThrows : AudioBufferSourceNode -> bool.

(** C3. While any of [isProcessing], [isVisionProcessing], [isGreeting] is
    set, [handleAudioProcess] leaves the whole service state as it was (so
    the frame is not appended to [audioBuffer]), sends neither an interrupt
    nor an utterance, and dispatches exactly one [RECORDING_DATA] event for
    the frame, with [isVoice] false. *)
Theorem C3_protected_state_only_visualizes
    (this : AudioService) (inputData : Float32Array) (now : Z) :
  isProcessing this = true \/ isVisionProcessing this = true
    \/ isGreeting this = true ->
  let r := handleAudioProcess stopThrows inputData now this in
  final r = this
  /\ audioBuffer (final r) = audioBuffer this
  /\ (WsInterrupt ∉ actions r)
  /\ (forall wav, WsSendAudio wav ∉ actions r)
  /\ actions r =
       [Dispatch RECORDING_DATA
          (RecordingData inputData (calculateRMSEnergy inputData) false)]
  /\ thrown r = false.
Proof.
  intros Hprot.
  assert (Hp : protectedState this = true).
  { unfold protectedState. destruct Hprot as [-> | [-> | ->]];
      rewrite ?orb_true_r; reflexivity. }
  assert (Hr : handleAudioProcess stopThrows inputData now this =
               Out this [Dispatch RECORDING_DATA
                 (RecordingData inputData (calculateRMSEnergy inputData) false)]
                 false).
  { unfold handleAudioProcess, ifThenElse. rewrite Hp.
    destruct (voiceThreshold this <? calculateRMSEnergy inputData)%float;
      reflexivity. }
  cbv zeta. rewrite Hr. cbn.
  repeat split; try reflexivity.
  - intros H. apply list_elem_of_singleton in H. discriminate.
  - intros wav H. apply list_elem_of_singleton in H. discriminate.
Qed.

(** The frame that ends a voice segment: voice was detected, the frame is
    at or below the threshold, and more than [silenceTimeout] ms have
    passed since the last voiced frame. The frame joins the segment, the
    flag is cleared and [sendAudioChunk] runs. *)
Lemma handleAudioProcess_silence_timeout
    (this : AudioService) (inputData : Float32Array) (now : Z) :
  protectedState this = false ->
  isVoiceDetected this = true ->
  (calculateRMSEnergy inputData <=? voiceThreshold this)%float = true ->
  silenceTimeout this < now - lastVoiceTime this ->
  handleAudioProcess stopThrows inputData now this =
    seq sendAudioChunk
        (withThis (fun this' =>
           dispatchEvent RECORDING_DATA
             (RecordingData inputData (calculateRMSEnergy inputData)
                            (isVoiceDetected this'))))
        (set_isVoiceDetected false
           (set_audioBuffer (audioBuffer this ++ [inputData]) this)).
Proof.
  intros Hp Hv He Ht.
  unfold handleAudioProcess. cbv zeta.
  rewrite run_ifThenElse, (leb_true_ltb_false _ _ He).
  rewrite run_ifThenElse, Hp.
  repeat proc_step. rewrite Hv.
  repeat proc_step. cbn.
  rewrite He. apply Z.ltb_lt in Ht. rewrite Ht. reflexivity.
Qed.

Lemma protectedState_false (this : AudioService) :
  isProcessing this = false -> isVisionProcessing this = false ->
  isGreeting this = false -> protectedState this = false.
Proof. intros H1 H2 H3. unfold protectedState. rewrite H1, H2, H3. reflexivity. Qed.

(** C7. A voice segment is finalized by the first frame at or below the
    threshold that arrives more than [silenceTimeout] ms after the last
    voiced frame. If the segment, this frame included, lasts at least
    [minRecordingLength], the call sends exactly one utterance: the WAV
    encoding of the samples of all accumulated frames, concatenated in
    capture order (sample [j] of the concatenation is the 16-bit word at
    octet [44 + 2 * j]); the buffer is then empty and the flag cleared, so
    the segment cannot be sent again. *)
Theorem C7_finalized_segment_sent_once_in_order
    (this : AudioService) (inputData : Float32Array) (now : Z) :
  isProcessing this = false ->
  isVisionProcessing this = false ->
  isGreeting this = false ->
  isVoiceDetected this = true ->
  (calculateRMSEnergy inputData <=? voiceThreshold this)%float = true ->
  silenceTimeout this < now - lastVoiceTime this ->
  (minRecordingLength this
   <=? audioLengthMs
         (set_audioBuffer (audioBuffer this ++ [inputData]) this))%float
    = true ->
  let samples := concat (audioBuffer this ++ [inputData]) in
  let r := handleAudioProcess stopThrows inputData now this in
  exists wav,
    utterances (actions r) = [wav]
    /\ float32ToWav samples (sampleRate (config this)) = Some wav
    /\ byteLength wav = 44 + 2 * Z.of_nat (length samples)
    /\ (forall (j : nat) x, samples !! j = Some x ->
          getInt16 wav (44 + 2 * Z.of_nat j) = ToInt16 (scaleSample x))
    /\ audioBuffer (final r) = []
    /\ isVoiceDetected (final r) = false
    /\ thrown r = false.
Proof.
  intros H1 H2 H3 Hv He Ht Hlong samples r.
  subst r.
  rewrite handleAudioProcess_silence_timeout
    by auto using protectedState_false.
  set (this1 := set_isVoiceDetected false _).
  destruct (sendAudioChunk_sends this1) as (wav & Ewav & Esend).
  - subst this1. cbn. intros E. apply app_eq_nil in E as [_ E]. discriminate.
  - exact H1.
  - right. apply leb_true_ltb_false. exact Hlong.
  - destruct (float32ToWav_layout samples (sampleRate (config this)))
      as (wav' & Ewav' & Hlen & _ & _ & _ & Hsamples).
    assert (wav' = wav) as -> by (subst this1 samples; cbn in Ewav; congruence).
    exists wav. rewrite seq_run, Esend. cbn.
    repeat proc_step. cbn.
    repeat split; assumption.
Qed.

(** C8. [sendAudioChunk] on a segment shorter than [minRecordingLength]
    while the voice-detected flag is not set: nothing is sent, no event
    (so no [AUDIO_ERROR]) is dispatched, nothing is thrown, and the only
    change to the service is that [audioBuffer] is emptied. The same holds
    of the whole [handleAudioProcess] call that finalizes such a segment,
    which dispatches only the frame's [RECORDING_DATA] event. *)
Theorem C8_short_segment_discarded
    (this : AudioService) :
  isVoiceDetected this = false ->
  (audioLengthMs this <? minRecordingLength this)%float = true ->
  let r := sendAudioChunk this in
  actions r = []
  /\ utterances (actions r) = []
  /\ dispatched AUDIO_ERROR (actions r) = []
  /\ thrown r = false
  /\ final r = set_audioBuffer [] this
  /\ audioBuffer (final r) = []
  /\ forall (frame : Float32Array) (now : Z) (before : AudioService),
       this = set_isVoiceDetected false
                (set_audioBuffer (audioBuffer before ++ [frame]) before) ->
       protectedState before = false ->
       isVoiceDetected before = true ->
       (calculateRMSEnergy frame <=? voiceThreshold before)%float = true ->
       silenceTimeout before < now - lastVoiceTime before ->
       let r' := handleAudioProcess stopThrows frame now before in
       actions r' = [Dispatch RECORDING_DATA
                       (RecordingData frame (calculateRMSEnergy frame) false)]
       /\ audioBuffer (final r') = []
       /\ thrown r' = false.
Proof.
  intros Hv Hs r. subst r.
  rewrite (sendAudioChunk_too_short this Hv Hs). cbn.
  do 6 (split; [reflexivity|]).
  intros frame now before -> Hp Hvb He Ht.
  rewrite handleAudioProcess_silence_timeout by assumption.
  rewrite seq_run, (sendAudioChunk_too_short _ Hv Hs). cbn.
  repeat proc_step. cbn.
  repeat split; reflexivity.
Qed.

(** *** No voice, no utterance *)

(** No segment is in progress: the flag is down and nothing is buffered
    ([t] names the threshold, which no method assigns). *)
Definition noVoice (t : float) (this : AudioService) : Prop :=
  isVoiceDetected this = false /\ audioBuffer this = []
  /\ voiceThreshold this = t.

Definition notUtterance (a : Action) : Prop :=
  match a with WsSendAudio _ => False | _ => True end.

(** The frames among the inputs stay at or below the threshold [t] (or
    have no energy to speak of: an empty frame's is NaN). *)
Definition quiet (t : float) (i : Input) : Prop :=
  match i with
  | Frame inputData _ => (t <? calculateRMSEnergy inputData)%float = false
  | _ => True
  end.

Lemma utterances_none (trace : list Action) :
  Forall notUtterance trace -> utterances trace = [].
Proof.
  induction 1 as [|a rest Ha _ IH]; [reflexivity|].
  unfold utterances in *. cbn. rewrite IH.
  destruct a; try reflexivity. destruct Ha.
Qed.

Local Ltac noVoice_assign :=
  let s := fresh "s" in
  intros s (? & ? & ?); repeat split; cbn; auto.

Local Ltac noVoice_solve :=
  preserves_struct; first [ noVoice_assign | exact I ].

Lemma noVoice_clearPlaybackTimeout t :
  Preserves (noVoice t) notUtterance clearPlaybackTimeout.
Proof. unfold clearPlaybackTimeout. noVoice_solve. Qed.

Lemma noVoice_sendAudioChunk t :
  Preserves (noVoice t) notUtterance sendAudioChunk.
Proof.
  apply Preserves_ext with (q := skip); [|apply Preserves_skip].
  intros this (_ & Hb & _). apply sendAudioChunk_empty, Hb.
Qed.

Lemma noVoice_stopPlayback t :
  Preserves (noVoice t) notUtterance (stopPlayback stopThrows).
Proof.
  unfold stopPlayback, nodeStop.
  preserves_struct;
    first [ apply noVoice_clearPlaybackTimeout | noVoice_assign | exact I ].
Qed.

Lemma noVoice_playNextChunk_from t (queue : list AudioBuffer) :
  Preserves (noVoice t) notUtterance (playNextChunk_from startThrows queue).
Proof.
  induction queue as [|b rest IH]; cbn [playNextChunk_from];
    unfold nodeStart, armPlaybackTimeout;
    preserves_struct;
    first [ apply noVoice_clearPlaybackTimeout | exact IH
          | noVoice_assign | exact I ].
Qed.

Lemma noVoice_playNextChunk t :
  Preserves (noVoice t) notUtterance (playNextChunk startThrows).
Proof.
  unfold playNextChunk. apply Preserves_withThis. intros s _.
  apply noVoice_playNextChunk_from.
Qed.

Lemma noVoice_stopRecording t :
  Preserves (noVoice t) notUtterance stopRecording.
Proof.
  unfold stopRecording.
  preserves_struct;
    first [ apply noVoice_sendAudioChunk | noVoice_assign | exact I ].
Qed.

Lemma noVoice_handler t (i : Input) :
  quiet t i ->
  Preserves (noVoice t) notUtterance (handler startThrows stopThrows i).
Proof.
  destruct i; cbn [handler quiet]; intros Hq.
  - (* Frame *)
    unfold handleAudioProcess. cbv zeta.
    apply Preserves_ifThenElse_false.
    { intros s (_ & _ & ->). exact Hq. }
    apply Preserves_ifThenElse; [noVoice_solve|].
    apply Preserves_seq; [|noVoice_solve].
    apply Preserves_when_false. intros s (Hv & _). exact Hv.
  - unfold setProcessingState. noVoice_solve.
  - unfold setGreetingState. noVoice_solve.
  - unfold setVisionProcessingState. noVoice_solve.
  - unfold startRecording, initAudioContext.
    preserves_struct;
      first [ apply noVoice_stopRecording | noVoice_assign | exact I ].
  - apply noVoice_stopRecording.
  - unfold playAudioChunk, initAudioContext.
    preserves_struct;
      first [ apply noVoice_playNextChunk | noVoice_assign | exact I ].
  - unfold onended.
    preserves_struct;
      first [ apply noVoice_clearPlaybackTimeout | apply noVoice_playNextChunk
            | noVoice_assign | exact I ].
  - unfold onPlaybackTimeout.
    preserves_struct;
      first [ apply noVoice_playNextChunk | noVoice_assign | exact I ].
  - apply noVoice_stopPlayback.
  - unfold releaseHardware.
    preserves_struct;
      first [ apply noVoice_stopRecording | apply noVoice_stopPlayback
            | apply noVoice_clearPlaybackTimeout | noVoice_assign | exact I ].
  - unfold toggleMicrophoneMute. noVoice_solve.
Qed.

(** C6. Start with no segment in progress (as [new AudioService] and
    [startRecording] leave the service) and let anything happen: frames,
    calls of the public methods, playback callbacks, [stopRecording]
    included. If no frame's energy exceeds [voiceThreshold], then after
    every prefix of the run the voice-detected flag is false and the
    accumulation buffer is empty, and the run sends no utterance. *)
Theorem C6_no_voice_no_utterance
    (this : AudioService) (inputs : list Input) :
  isVoiceDetected this = false ->
  audioBuffer this = [] ->
  (forall inputData now,
     Frame inputData now ∈ inputs ->
     (voiceThreshold this <? calculateRMSEnergy inputData)%float = false) ->
  (forall k : nat,
     let this' := (run startThrows stopThrows (take k inputs) this).1 in
     isVoiceDetected this' = false /\ audioBuffer this' = [])
  /\ utterances (run startThrows stopThrows inputs this).2 = [].
Proof.
  intros Hv Hb Hq.
  assert (Hall : forall prefix, prefix `prefix_of` inputs ->
            noVoice (voiceThreshold this)
              (run startThrows stopThrows prefix this).1
            /\ Forall notUtterance
                 (run startThrows stopThrows prefix this).2).
  { intros prefix [suffix ->].
    apply run_Preserves; [|repeat split; assumption].
    intros i Hi. apply noVoice_handler.
    destruct i as [inputData now| | | | | | | | | | |]; cbn; auto.
    apply (Hq inputData now). apply elem_of_app. left. exact Hi. }
  split.
  - intros k. cbv zeta.
    destruct (Hall (take k inputs)) as [(H1 & H2 & _) _].
    + apply prefix_take.
    + split; assumption.
  - apply utterances_none. apply (Hall inputs). reflexivity.
Qed.

(** *** Interrupting playback *)

(** [sendAudioChunk] assigns no field but [audioBuffer] and does nothing
    to the outside world but send an utterance. *)
Lemma sendAudioChunk_footprint (this : AudioService) :
  exists frames trace t,
    sendAudioChunk this = Out (set_audioBuffer frames this) trace t
    /\ Forall (fun a => exists wav, a = WsSendAudio wav) trace.
Proof.
  unfold sendAudioChunk.
  case_bool_decide.
  { exists (audioBuffer this), [], false.
    rewrite set_audioBuffer_same. split; [reflexivity | constructor]. }
  destruct (isProcessing this).
  { exists [], [], false. split; [reflexivity | constructor]. }
  destruct (negb (isVoiceDetected this) && _).
  { exists [], [], false. split; [reflexivity | constructor]. }
  destruct (_ ≫= _) as [wav|].
  - exists [], [WsSendAudio wav], false. split; [reflexivity|].
    repeat constructor. exists wav. reflexivity.
  - exists (audioBuffer this), [], true.
    rewrite set_audioBuffer_same. split; [reflexivity | constructor].
Qed.

Definition queueEmpty (this : AudioService) : Prop := audioQueue this = [].

Definition notNodeStart (a : Action) : Prop :=
  match a with NodeStart _ => False | _ => True end.

(** Inputs other than the arrival of a decoded chunk. *)
Definition notEnqueue (i : Input) : Prop :=
  match i with
  | PlayAudioChunk _ (Some _) => False
  | _ => True
  end.

Lemma started_none (trace : list Action) :
  Forall notNodeStart trace -> started trace = [].
Proof.
  induction 1 as [|a rest Ha _ IH]; [reflexivity|].
  unfold started in *. cbn. rewrite IH.
  destruct a; try reflexivity. destruct Ha.
Qed.

Local Ltac queueEmpty_assign :=
  let s := fresh "s" in intros s ?; unfold queueEmpty in *; cbn; auto.

Local Ltac queueEmpty_solve :=
  preserves_struct; first [ queueEmpty_assign | exact I ].

Lemma queueEmpty_clearPlaybackTimeout :
  Preserves queueEmpty notNodeStart clearPlaybackTimeout.
Proof. unfold clearPlaybackTimeout. queueEmpty_solve. Qed.

Lemma queueEmpty_sendAudioChunk :
  Preserves queueEmpty notNodeStart sendAudioChunk.
Proof.
  intros this H.
  destruct (sendAudioChunk_footprint this) as (frames & trace & t & -> & Hs).
  split; [exact H|]. cbn.
  eapply Forall_impl; [exact Hs|]. intros a [wav ->]. exact I.
Qed.

Lemma queueEmpty_stopPlayback :
  Preserves queueEmpty notNodeStart (stopPlayback stopThrows).
Proof.
  unfold stopPlayback, nodeStop.
  preserves_struct;
    first [ apply queueEmpty_clearPlaybackTimeout | queueEmpty_assign
          | exact I ].
Qed.

Lemma queueEmpty_playNextChunk :
  Preserves queueEmpty notNodeStart (playNextChunk startThrows).
Proof.
  unfold playNextChunk. apply Preserves_withThis. intros s Hs.
  rewrite Hs. cbn [playNextChunk_from].
  preserves_struct;
    first [ apply queueEmpty_clearPlaybackTimeout | queueEmpty_assign
          | exact I ].
Qed.

Lemma queueEmpty_stopRecording :
  Preserves queueEmpty notNodeStart stopRecording.
Proof.
  unfold stopRecording.
  preserves_struct;
    first [ apply queueEmpty_sendAudioChunk | queueEmpty_assign | exact I ].
Qed.

Lemma queueEmpty_handler (i : Input) :
  notEnqueue i ->
  Preserves queueEmpty notNodeStart (handler startThrows stopThrows i).
Proof.
  destruct i; cbn [handler notEnqueue]; intros Hi.
  - unfold handleAudioProcess. cbv zeta.
    preserves_struct;
      first [ apply queueEmpty_stopPlayback | apply queueEmpty_sendAudioChunk
            | queueEmpty_assign | exact I ].
  - unfold setProcessingState. queueEmpty_solve.
  - unfold setGreetingState. queueEmpty_solve.
  - unfold setVisionProcessingState. queueEmpty_solve.
  - unfold startRecording, initAudioContext.
    preserves_struct;
      first [ apply queueEmpty_stopRecording | queueEmpty_assign | exact I ].
  - apply queueEmpty_stopRecording.
  - destruct decoded as [b|]; [destruct Hi|].
    unfold playAudioChunk, initAudioContext.
    preserves_struct; first [ queueEmpty_assign | exact I ].
  - unfold onended.
    preserves_struct;
      first [ apply queueEmpty_clearPlaybackTimeout
            | apply queueEmpty_playNextChunk | queueEmpty_assign | exact I ].
  - unfold onPlaybackTimeout.
    preserves_struct;
      first [ apply queueEmpty_playNextChunk | queueEmpty_assign | exact I ].
  - apply queueEmpty_stopPlayback.
  - unfold releaseHardware.
    preserves_struct;
      first [ apply queueEmpty_stopRecording | apply queueEmpty_stopPlayback
            | apply queueEmpty_clearPlaybackTimeout | queueEmpty_assign
            | exact I ].
  - unfold toggleMicrophoneMute. queueEmpty_solve.
Qed.

(** What [stopPlayback] does when a source is current, whether or not
    its [stop()] raises. *)
Lemma stopPlayback_current (this : AudioService)
    (source : AudioBufferSourceNode) :
  currentSource this = Some source ->
  stopPlayback stopThrows this =
    Out (set_isSpeaking false
           (set_isPlaying false
              (set_audioState
                 (if bool_decide (audioState this = SPEAKING)
                  then INTERRUPTED else INACTIVE)
                 (set_audioQueue []
                    (set_currentSource
                       (if stopThrows source then Some source else None)
                       (set_playbackTimeoutId None this))))))
        (match playbackTimeoutId this with
         | Some id => [ClearTimeout id]
         | None => []
         end
         ++ (if stopThrows source then [] else [NodeStop source])
         ++ [Dispatch PLAYBACK_STOP
               (PlaybackStopped (bool_decide (audioState this = SPEAKING))
                                (audioState this))])
        false.
Proof.
  intros Hs. unfold stopPlayback. rewrite run_withThis, Hs. cbv zeta.
  unfold clearPlaybackTimeout, nodeStop.
  rewrite seq_withThis.
  destruct this as [cfg ctx ab st q pl sp mu cs [id|] pr gr vi vd th sil lv mn nc tc];
    cbn [playbackTimeoutId audioState currentSource] in *; subst cs;
    destruct (stopThrows source);
    repeat proc_step; rewrite ?seq_run, ?tryCatch_run;
    repeat proc_step; cbn;
    destruct (bool_decide (st = SPEAKING)); repeat proc_step; reflexivity.
Qed.

Lemma stopPlayback_run (this : AudioService) (source : AudioBufferSourceNode) :
  currentSource this = Some source ->
  stopThrows source = false ->
  stopPlayback stopThrows this =
    Out (set_isSpeaking false
           (set_isPlaying false
              (set_audioState
                 (if bool_decide (audioState this = SPEAKING)
                  then INTERRUPTED else INACTIVE)
                 (set_audioQueue []
                    (set_currentSource None
                       (set_playbackTimeoutId None this))))))
        (match playbackTimeoutId this with
         | Some id => [ClearTimeout id]
         | None => []
         end
         ++ [NodeStop source;
             Dispatch PLAYBACK_STOP
               (PlaybackStopped (bool_decide (audioState this = SPEAKING))
                                (audioState this))])
        false.
Proof.
  intros Hs Ht. rewrite (stopPlayback_current this source Hs), Ht.
  reflexivity.
Qed.

Lemma stopPlayback_idle (this : AudioService) :
  currentSource this = None -> stopPlayback stopThrows this = Out this [] false.
Proof.
  intros Hs. unfold stopPlayback. rewrite run_withThis, Hs. reflexivity.
Qed.

(** C2. [stopPlayback] called while a source is playing in the [SPEAKING]
    state: the source is stopped, the queue is emptied, the safety timer,
    if armed, is cleared, the playing and speaking flags are reset, and one
    [PLAYBACK_STOP] event is dispatched with [interrupted = true] and
    [previousState = SPEAKING]. After that no buffer starts playing, whatever
    happens, until a decoded chunk is enqueued. ([stop()] on a playing node
    does not raise.) *)
Theorem C2_interrupt_stops_and_clears
    (this : AudioService) (source : AudioBufferSourceNode) :
  currentSource this = Some source ->
  audioState this = SPEAKING ->
  stopThrows source = false ->
  let r := stopPlayback stopThrows this in
  NodeStop source ∈ actions r
  /\ started (actions r) = []
  /\ audioQueue (final r) = []
  /\ currentSource (final r) = None
  /\ playbackTimeoutId (final r) = None
  /\ (forall id, playbackTimeoutId this = Some id ->
        ClearTimeout id ∈ actions r)
  /\ isPlaying (final r) = false
  /\ isSpeaking (final r) = false
  /\ audioState (final r) = INTERRUPTED
  /\ dispatched PLAYBACK_STOP (actions r) = [PlaybackStopped true SPEAKING]
  /\ thrown r = false
  /\ forall inputs : list Input,
       (forall i, i ∈ inputs -> notEnqueue i) ->
       started (run startThrows stopThrows inputs (final r)).2 = [].
Proof.
  intros Hs Hst Ht r. subst r.
  rewrite (stopPlayback_run this source Hs Ht), Hst. cbn.
  repeat split.
  - apply elem_of_app. right. left.
  - destruct (playbackTimeoutId this); reflexivity.
  - intros id ->. left.
  - destruct (playbackTimeoutId this); reflexivity.
  - intros inputs Hin. apply started_none.
    apply (run_Preserves startThrows stopThrows queueEmpty notNodeStart).
    + intros i Hi. apply queueEmpty_handler, Hin, Hi.
    + reflexivity.
Qed.

(** *** Barge-in *)



Lemma interrupts_app (t1 t2 : list Action) :
  interrupts (t1 ++ t2) = (interrupts t1 + interrupts t2)%nat.
Proof. unfold interrupts. rewrite omap_app, length_app. reflexivity. Qed.



(** The onset frame while the assistant speaks: the flag goes up,
    [stopPlayback] runs, one interrupt is sent, [PLAYBACK_STOP] is
    dispatched, and the frame opens the new segment. *)
Lemma handleAudioProcess_onset
    (this : AudioService) (inputData : Float32Array) (now : Z) :
  protectedState this = false ->
  (voiceThreshold this <? calculateRMSEnergy inputData)%float = true ->
  isVoiceDetected this = false ->
  isSpeaking this || bool_decide (audioState this = SPEAKING) = true ->
  let stopped := stopPlayback stopThrows (set_isVoiceDetected true this) in
  handleAudioProcess stopThrows inputData now this =
    Out (set_audioBuffer (audioBuffer this ++ [inputData])
           (set_lastVoiceTime now (final stopped)))
        (actions stopped
         ++ [WsInterrupt;
             Dispatch PLAYBACK_STOP UserInterrupt;
             Dispatch RECORDING_DATA
               (RecordingData inputData (calculateRMSEnergy inputData) true)])
        false.
Proof.
  intros Hp Hloud Hv Hsp stopped.
  assert (Hg : isGreeting this = false).
  { unfold protectedState in Hp. apply orb_false_elim in Hp as [_ Hp]. exact Hp. }
  unfold handleAudioProcess. cbv zeta.
  rewrite run_ifThenElse, Hloud, run_ifThenElse, Hp.
  repeat proc_step. rewrite Hv. cbn [negb].
  repeat proc_step. cbn [isSpeaking audioState isGreeting set_isVoiceDetected].
  rewrite Hsp, Hg. cbn [negb andb].
  repeat proc_step.
  rewrite seq_run. fold stopped.
  assert (Hstopped :
    thrown stopped = false
    /\ protectedState (final stopped) = false
    /\ isVoiceDetected (final stopped) = true
    /\ voiceThreshold (final stopped) = voiceThreshold this
    /\ audioBuffer (final stopped) = audioBuffer this).
  { subst stopped.
    destruct (currentSource this) as [source|] eqn:Hs.
    - rewrite (stopPlayback_current _ source) by exact Hs. cbn.
      repeat split; try reflexivity. exact Hp.
    - rewrite stopPlayback_idle by exact Hs. cbn.
      repeat split; try reflexivity. exact Hp. }
  destruct Hstopped as (Ht & Hp' & Hv' & Hth & Hb). rewrite Ht.
  repeat proc_step.
  change (protectedState (set_lastVoiceTime now (final stopped)))
    with (protectedState (final stopped)).
  rewrite Hp'.
  cbn [set_lastVoiceTime set_audioBuffer isVoiceDetected voiceThreshold
       audioBuffer silenceTimeout lastVoiceTime].
  rewrite Hv', Hth, (ltb_true_leb_false _ _ Hloud), Hb. cbn [andb].
  unfold after. cbn [final actions thrown].
  rewrite <- !app_assoc. reflexivity.
Qed.

Lemma stopPlayback_no_interrupt (this : AudioService) :
  interrupts (actions (stopPlayback stopThrows this)) = 0%nat.
Proof.
  destruct (currentSource this) as [source|] eqn:Hs.
  - rewrite (stopPlayback_current _ source) by exact Hs. cbn.
    destruct (playbackTimeoutId this), (stopThrows source); reflexivity.
  - rewrite stopPlayback_idle by exact Hs. reflexivity.
Qed.


(** *** The playback queue *)

Lemma started_app (t1 t2 : list Action) :
  started (t1 ++ t2) = started t1 ++ started t2.
Proof. apply omap_app. Qed.

Lemma dispatched_app e (t1 t2 : list Action) :
  dispatched e (t1 ++ t2) = dispatched e t1 ++ dispatched e t2.
Proof. apply omap_app. Qed.

(** The actions of [clearPlaybackTimeout]. *)
Definition clearing (this : AudioService) : list Action :=
  match playbackTimeoutId this with
  | Some id => [ClearTimeout id]
  | None => []
  end.

Lemma clearPlaybackTimeout_run (this : AudioService) :
  clearPlaybackTimeout this
  = Out (set_playbackTimeoutId None this) (clearing this) false.
Proof.
  unfold clearPlaybackTimeout, clearing. rewrite run_withThis.
  destruct this as [cfg ctx ab st q pl sp mu cs [id|] pr gr vi vd th sil lv mn nc tc];
    cbn [playbackTimeoutId]; repeat proc_step; reflexivity.
Qed.

(** [playNextChunk] on a non-empty queue, with an audio context, when
    [start()] does not raise: the head of the queue is shifted out and
    started on a new node, the safety timer is armed with
    [duration * 1000 + 1000] ms, and [PLAYBACK_START] is dispatched only if
    nothing was playing. *)
Lemma playNextChunk_starts (this : AudioService) (b : AudioBuffer)
    (rest : list AudioBuffer) :
  audioQueue this = b :: rest ->
  hasAudioContext this = true ->
  startThrows {| node_id := nodesCreated this; buffer := b |} = false ->
  playNextChunk startThrows this =
    Out (set_playbackTimeoutId (Some (timersCreated this))
           (set_timersCreated (S (timersCreated this))
              (set_currentSource
                 (Some {| node_id := nodesCreated this; buffer := b |})
                 (set_nodesCreated (S (nodesCreated this))
                    (set_audioState SPEAKING
                       (set_isSpeaking true
                          (set_isPlaying true
                             (set_audioQueue rest
                                (set_playbackTimeoutId None this)))))))))
        (clearing this
         ++ [NodeStart {| node_id := nodesCreated this; buffer := b |};
             SetTimeout (timersCreated this) (duration b * 1000 + 1000)]
         ++ (if isPlaying this then [] else [Dispatch PLAYBACK_START Empty]))
        false.
Proof.
  intros Hq Hc Hs. unfold playNextChunk. rewrite run_withThis, Hq.
  cbn [playNextChunk_from]. rewrite seq_run, clearPlaybackTimeout_run.
  cbn [thrown final actions]. rewrite run_when.
  cbn [hasAudioContext set_playbackTimeoutId]. rewrite Hc.
  rewrite seq_assign, run_withThis. cbv zeta.
  cbn [isPlaying nodesCreated set_audioQueue set_playbackTimeoutId].
  repeat proc_step. rewrite tryCatch_run.
  unfold nodeStart. rewrite Hs. unfold armPlaybackTimeout.
  repeat proc_step.
  cbn [timersCreated set_currentSource set_nodesCreated set_audioState
       set_isSpeaking set_isPlaying set_audioQueue set_playbackTimeoutId].
  destruct (isPlaying this); repeat proc_step; cbn [thrown];
    unfold after; cbn [final actions thrown]; reflexivity.
Qed.

(** [playNextChunk] on an empty queue ends the playback. *)
Lemma playNextChunk_empty (this : AudioService) :
  audioQueue this = [] ->
  playNextChunk startThrows this =
    Out (set_audioState INACTIVE
           (set_isSpeaking false
              (set_isPlaying false (set_playbackTimeoutId None this))))
        (clearing this
         ++ [Dispatch PLAYBACK_END (PlaybackEnded SPEAKING false false)])
        false.
Proof.
  intros Hq. unfold playNextChunk. rewrite run_withThis, Hq.
  cbn [playNextChunk_from]. rewrite seq_run, clearPlaybackTimeout_run.
  cbn [thrown final actions]. repeat proc_step. reflexivity.
Qed.

Lemma started_clearing (this : AudioService) : started (clearing this) = [].
Proof. unfold clearing. destruct (playbackTimeoutId this); reflexivity. Qed.

Lemma dispatched_clearing e (this : AudioService) :
  dispatched e (clearing this) = [].
Proof. unfold clearing. destruct (playbackTimeoutId this); reflexivity. Qed.

(** Playback is under way with [queue] still to play. *)
Definition playingWith (queue : list AudioBuffer) (this : AudioService)
  : Prop :=
  audioQueue this = queue /\ hasAudioContext this = true
  /\ isPlaying this = true.

Section StartNeverRaises.

Hypothesis start_ok : forall node, startThrows node = false.

Lemma onended_run_next (this : AudioService) (b : AudioBuffer)
    (rest : list AudioBuffer) :
  audioQueue this = b :: rest ->
  hasAudioContext this = true ->
  onended startThrows this =
    after (clearing this)
      (playNextChunk startThrows (set_playbackTimeoutId None this)).
Proof.
  intros Hq Hc. unfold onended.
  rewrite seq_run, clearPlaybackTimeout_run. cbn [thrown final actions].
  rewrite run_ifThenElse. unfold queueNonEmpty.
  cbn [audioQueue set_playbackTimeoutId]. rewrite Hq. reflexivity.
Qed.

Lemma onended_run_last (this : AudioService) :
  audioQueue this = [] ->
  onended startThrows this =
    Out (set_currentSource None
           (set_audioState INACTIVE
              (set_isSpeaking false
                 (set_isPlaying false (set_playbackTimeoutId None this)))))
        (clearing this
         ++ [Dispatch PLAYBACK_END (PlaybackEnded SPEAKING false false)])
        false.
Proof.
  intros Hq. unfold onended.
  rewrite seq_run, clearPlaybackTimeout_run. cbn [thrown final actions].
  rewrite run_ifThenElse. unfold queueNonEmpty.
  cbn [audioQueue set_playbackTimeoutId]. rewrite Hq.
  cbn [length bool_decide]. repeat proc_step. reflexivity.
Qed.

Lemma onPlaybackTimeout_run_next (this : AudioService) (b : AudioBuffer)
    (rest : list AudioBuffer) :
  audioQueue this = b :: rest ->
  onPlaybackTimeout startThrows this =
    playNextChunk startThrows (set_currentSource None this).
Proof.
  intros Hq. unfold onPlaybackTimeout.
  rewrite seq_assign, run_ifThenElse. unfold queueNonEmpty.
  cbn [audioQueue set_currentSource]. rewrite Hq. reflexivity.
Qed.

Lemma onPlaybackTimeout_run_last (this : AudioService) :
  audioQueue this = [] ->
  onPlaybackTimeout startThrows this =
    Out (set_audioState INACTIVE
           (set_isSpeaking false
              (set_isPlaying false (set_currentSource None this))))
        [Dispatch PLAYBACK_END (PlaybackEnded SPEAKING false true)]
        false.
Proof.
  intros Hq. unfold onPlaybackTimeout.
  rewrite seq_assign, run_ifThenElse. unfold queueNonEmpty.
  cbn [audioQueue set_currentSource]. rewrite Hq.
  cbn [length bool_decide]. repeat proc_step. reflexivity.
Qed.

Lemma onPlaybackTimeout_step_next (this : AudioService) (b : AudioBuffer)
    (rest : list AudioBuffer) :
  playingWith (b :: rest) this ->
  let r := onPlaybackTimeout startThrows this in
  playingWith rest (final r)
  /\ started (actions r) = [b]
  /\ dispatched PLAYBACK_START (actions r) = []
  /\ dispatched PLAYBACK_END (actions r) = [].
Proof.
  intros (Hq & Hc & Hp) r. subst r.
  rewrite (onPlaybackTimeout_run_next this b rest Hq).
  rewrite (playNextChunk_starts _ b rest) by (auto using start_ok).
  cbn [isPlaying set_currentSource]. rewrite Hp.
  unfold playingWith. cbn [final actions thrown].
  rewrite !started_app, !dispatched_app, ?started_clearing,
    ?dispatched_clearing.
  cbn. repeat split; first [ reflexivity | assumption ].
Qed.

Lemma playAudioChunk_while_playing (this : AudioService) (b : AudioBuffer) :
  isPlaying this = true ->
  playAudioChunk startThrows true (Some b) this =
    Out (set_audioQueue (audioQueue this ++ [b])
           (set_hasAudioContext true this)) [] false.
Proof.
  intros Hp. unfold playAudioChunk, initAudioContext.
  rewrite tryCatch_run. repeat proc_step.
  cbn [hasAudioContext set_hasAudioContext negb].
  rewrite tryCatch_run. repeat proc_step.
  cbn [isPlaying set_audioQueue set_hasAudioContext]. rewrite Hp.
  reflexivity.
Qed.

Lemma playAudioChunk_while_idle (this : AudioService) (b : AudioBuffer) :
  isPlaying this = false ->
  playAudioChunk startThrows true (Some b) this =
    playNextChunk startThrows
      (set_audioQueue (audioQueue this ++ [b])
         (set_hasAudioContext true this)).
Proof.
  intros Hp. unfold playAudioChunk, initAudioContext.
  rewrite tryCatch_run. repeat proc_step.
  cbn [hasAudioContext set_hasAudioContext negb].
  rewrite tryCatch_run. repeat proc_step.
  cbn [isPlaying set_audioQueue set_hasAudioContext]. rewrite Hp.
  cbn [negb].
  set (this' := set_audioQueue _ _).
  destruct (audioQueue this') as [|b' rest] eqn:Hq.
  - rewrite (playNextChunk_empty _ Hq). reflexivity.
  - destruct (hasAudioContext this') eqn:Hc; [|discriminate Hc].
    rewrite (playNextChunk_starts _ b' rest Hq Hc) by apply start_ok.
    reflexivity.
Qed.

Lemma run_cons (i : Input) (rest : list Input) (this : AudioService) :
  run startThrows stopThrows (i :: rest) this =
    let r := handler startThrows stopThrows i this in
    ((run startThrows stopThrows rest (final r)).1,
     actions r ++ (run startThrows stopThrows rest (final r)).2).
Proof.
  cbn [run]. destruct (run startThrows stopThrows rest _). reflexivity.
Qed.

(** The buffers a schedule enqueues, in arrival order. *)
Definition enqueued (inputs : list Input) : list AudioBuffer :=
  omap (fun i => match i with
                 | PlayAudioChunk _ (Some b) => Some b
                 | _ => None
                 end) inputs.

(** If completion callbacks never come, the safety timeouts alone drain
    the queue: one per buffer left, then the one that ends the playback. *)
Lemma timeouts_drain (queue : list AudioBuffer) :
  forall this : AudioService,
    playingWith queue this ->
    let d :=
      run startThrows stopThrows
          (replicate (S (length queue)) PlaybackTimeout) this in
    started d.2 = queue
    /\ dispatched PLAYBACK_END d.2 = [PlaybackEnded SPEAKING false true]
    /\ isPlaying d.1 = false
    /\ isSpeaking d.1 = false
    /\ audioState d.1 = INACTIVE.
Proof.
  induction queue as [|b rest IH]; intros this Hplay; cbv zeta;
    cbn [length replicate]; rewrite run_cons; cbv zeta;
    cbn [fst snd handler].
  - destruct Hplay as (Hq & _ & _).
    rewrite (onPlaybackTimeout_run_last this Hq). cbn.
    repeat split; reflexivity.
  - destruct (onPlaybackTimeout_step_next this b rest Hplay)
      as (Hplay' & S1 & _ & S3).
    destruct (IH _ Hplay') as (H1 & H2 & H3 & H4 & H5).
    cbn [length replicate] in *.
    rewrite started_app, dispatched_app, S1, S3, H1, H2.
    repeat split; assumption.
Qed.

(** The safety timer while an audio context exists and [start()] does not
    raise: [playNextChunk] starts the head of the queue and arms the timer
    with [duration * 1000 + 1000] ms. If the [onended] callback does not
    come and the timer fires, its handler starts the next queued buffer,
    or, the queue being empty, resets the playing and speaking flags and
    dispatches [PLAYBACK_END]; timeouts alone bring the controller to rest.
    If [onended] does come, it clears the timer. *)
Lemma safety_timeout_with_context
    (this : AudioService) (b : AudioBuffer) (rest : list AudioBuffer) :
  audioQueue this = b :: rest ->
  hasAudioContext this = true ->
  let node := {| node_id := nodesCreated this; buffer := b |} in
  let timer := timersCreated this in
  let r := playNextChunk startThrows this in
  (* the buffer is started and the timer armed *)
  NodeStart node ∈ actions r
  /\ SetTimeout timer (duration b * 1000 + 1000) ∈ actions r
  /\ playbackTimeoutId (final r) = Some timer
  (* the timer fires *)
  /\ (let t := onPlaybackTimeout startThrows (final r) in
      match rest with
      | next :: rest' =>
          started (actions t) = [next]
          /\ audioQueue (final t) = rest'
          /\ isPlaying (final t) = true
          /\ dispatched PLAYBACK_END (actions t) = []
      | [] =>
          started (actions t) = []
          /\ isPlaying (final t) = false
          /\ isSpeaking (final t) = false
          /\ audioState (final t) = INACTIVE
          /\ dispatched PLAYBACK_END (actions t)
             = [PlaybackEnded SPEAKING false true]
      end)
  (* timers alone drain the queue *)
  /\ (let d :=
        run startThrows stopThrows
            (replicate (S (length rest)) PlaybackTimeout) (final r) in
      started d.2 = rest
      /\ dispatched PLAYBACK_END d.2 = [PlaybackEnded SPEAKING false true]
      /\ isPlaying d.1 = false
      /\ isSpeaking d.1 = false
      /\ audioState d.1 = INACTIVE)
  (* the completion callback comes *)
  /\ (let e := onended startThrows (final r) in
      (exists later, actions e = ClearTimeout timer :: later)
      /\ (rest = [] -> playbackTimeoutId (final e) = None)).
Proof.
  intros Hq Hc node timer r.
  assert (Hr : r = _) by (apply (playNextChunk_starts this b rest Hq Hc), start_ok).
  assert (Hplay : playingWith rest (final r)).
  { rewrite Hr. unfold playingWith. cbn. auto. }
  assert (Hid : playbackTimeoutId (final r) = Some timer)
    by (rewrite Hr; reflexivity).
  split; [|split; [|split; [|split; [|split]]]].
  - rewrite Hr. cbn [actions]. apply elem_of_app. right. left.
  - rewrite Hr. cbn [actions]. apply elem_of_app. right. right. left.
  - exact Hid.
  - cbv zeta. destruct rest as [|next rest'].
    + destruct Hplay as (Hq' & _ & _).
      rewrite (onPlaybackTimeout_run_last _ Hq'). cbn.
      repeat split; reflexivity.
    + destruct (onPlaybackTimeout_step_next _ next rest' Hplay)
        as ((Hq' & _ & Hp') & S1 & _ & S3).
      repeat split; assumption.
  - apply timeouts_drain, Hplay.
  - cbv zeta. destruct Hplay as (Hq' & Hc' & _). split.
    + destruct rest as [|next rest'].
      * rewrite (onended_run_last _ Hq'). cbn [actions].
        unfold clearing. rewrite Hid. eexists. reflexivity.
      * rewrite (onended_run_next _ next rest' Hq' Hc'). unfold after.
        cbn [actions]. unfold clearing. rewrite Hid. eexists. reflexivity.
    + intros ->. rewrite (onended_run_last _ Hq'). reflexivity.
Qed.

End StartNeverRaises.

End Properties.

(** ** Further properties of the service

    *** Exceptions stay inside the handlers *)

Section NeverThrows.

(** [p] always ends normally. *)
Definition NeverThrows (p : Proc) : Prop :=
  forall this, thrown (p this) = false.

Lemma NeverThrows_skip : NeverThrows skip.
Proof. intros this. reflexivity. Qed.

Lemma NeverThrows_act a : NeverThrows (act a).
Proof. intros this. reflexivity. Qed.

Lemma NeverThrows_dispatchEvent e d : NeverThrows (dispatchEvent e d).
Proof. intros this. reflexivity. Qed.

Lemma NeverThrows_assign f : NeverThrows (assign f).
Proof. intros this. reflexivity. Qed.

Lemma NeverThrows_seq p q :
  NeverThrows p -> NeverThrows q -> NeverThrows (seq p q).
Proof.
  intros Hp Hq this. rewrite seq_run, (Hp this), thrown_after. apply Hq.
Qed.

(** A [try] block may throw if its handler does not. *)
Lemma NeverThrows_tryCatch p h : NeverThrows h -> NeverThrows (tryCatch p h).
Proof.
  intros Hh this. rewrite tryCatch_run.
  destruct (thrown (p this)) eqn:E; [|exact E].
  rewrite thrown_after. apply Hh.
Qed.

Lemma NeverThrows_ifThenElse c p q :
  NeverThrows p -> NeverThrows q -> NeverThrows (ifThenElse c p q).
Proof. intros Hp Hq this. rewrite run_ifThenElse. destruct (c this); auto. Qed.

Lemma NeverThrows_when c p : NeverThrows p -> NeverThrows (when c p).
Proof.
  intros Hp. apply NeverThrows_ifThenElse; [exact Hp | apply NeverThrows_skip].
Qed.

Lemma NeverThrows_withThis k :
  (forall s, NeverThrows (k s)) -> NeverThrows (withThis k).
Proof. intros Hk this. rewrite run_withThis. apply Hk. Qed.

Lemma NeverThrows_if (b : bool) p q :
  NeverThrows p -> NeverThrows q -> NeverThrows (if b then p else q).
Proof. destruct b; auto. Qed.

End NeverThrows.

Ltac never_throws_rule :=
  lazymatch goal with
  | |- NeverThrows (seq _ _) => apply NeverThrows_seq
  | |- NeverThrows (tryCatch _ _) => apply NeverThrows_tryCatch
  | |- NeverThrows skip => apply NeverThrows_skip
  | |- NeverThrows (ifThenElse _ _ _) => apply NeverThrows_ifThenElse
  | |- NeverThrows (when _ _) => apply NeverThrows_when
  | |- NeverThrows (assign _) => apply NeverThrows_assign
  | |- NeverThrows (act _) => apply NeverThrows_act
  | |- NeverThrows (dispatchEvent _ _) => apply NeverThrows_dispatchEvent
  | |- NeverThrows (withThis _) =>
      apply NeverThrows_withThis; intros ?; cbv zeta
  | |- NeverThrows (match ?x with _ => _ end) =>
      first [ apply NeverThrows_if | destruct x ]
  end.

Ltac never_throws tac := repeat first [ tac | never_throws_rule ].

Section HandlersNeverThrow.

Variable startThrows : AudioBufferSourceNode -> bool.
Variable stopThrows : AudioBufferSourceNode -> bool.

(** What [sendAudioChunk] does, case by case; it never raises, because
    every store of the encoder is in range. *)
Lemma sendAudioChunk_run (this : AudioService) :
  sendAudioChunk this =
    if bool_decide (length (audioBuffer this) = 0%nat) then Out this [] false
    else if isProcessing this then Out (set_audioBuffer [] this) [] false
    else if negb (isVoiceDetected this)
            && (audioLengthMs this <? minRecordingLength this)%float
    then Out (set_audioBuffer [] this) [] false
    else
      match float32ToWav (concat (audioBuffer this))
                         (sampleRate (config this)) with
      | Some wav => Out (set_audioBuffer [] this) [WsSendAudio wav] false
      | None => Out this [] true
      end.
Proof.
  unfold sendAudioChunk.
  case_bool_decide; [reflexivity|].
  destruct (isProcessing this); [reflexivity|].
  destruct (negb (isVoiceDetected this) && _); [reflexivity|].
  rewrite copyData_concat. cbn [mbind option_bind].
  destruct (float32ToWav _ _); reflexivity.
Qed.

Lemma NeverThrows_sendAudioChunk : NeverThrows sendAudioChunk.
Proof.
  intros this. rewrite sendAudioChunk_run.
  case_bool_decide; [reflexivity|].
  destruct (isProcessing this); [reflexivity|].
  destruct (negb (isVoiceDetected this) && _); [reflexivity|].
  destruct (float32ToWav_layout (concat (audioBuffer this))
              (sampleRate (config this))) as (wav & -> & _).
  reflexivity.
Qed.

Lemma NeverThrows_clearPlaybackTimeout : NeverThrows clearPlaybackTimeout.
Proof. unfold clearPlaybackTimeout. never_throws fail. Qed.

Lemma NeverThrows_stopPlayback : NeverThrows (stopPlayback stopThrows).
Proof.
  unfold stopPlayback.
  never_throws ltac:(idtac; apply NeverThrows_clearPlaybackTimeout).
Qed.

Lemma NeverThrows_playNextChunk_from (queue : list AudioBuffer) :
  NeverThrows (playNextChunk_from startThrows queue).
Proof.
  induction queue as [|b rest IH]; cbn [playNextChunk_from];
    never_throws ltac:(idtac; first [ apply NeverThrows_clearPlaybackTimeout
                                    | exact IH ]).
Qed.

Lemma NeverThrows_playNextChunk : NeverThrows (playNextChunk startThrows).
Proof.
  unfold playNextChunk. apply NeverThrows_withThis. intros s.
  apply NeverThrows_playNextChunk_from.
Qed.

Lemma NeverThrows_stopRecording : NeverThrows stopRecording.
Proof.
  unfold stopRecording.
  never_throws ltac:(idtac; apply NeverThrows_sendAudioChunk).
Qed.

Lemma NeverThrows_handleAudioProcess inputData now :
  NeverThrows (handleAudioProcess stopThrows inputData now).
Proof.
  unfold handleAudioProcess. cbv zeta.
  never_throws ltac:(idtac; first [ apply NeverThrows_sendAudioChunk
                                  | apply NeverThrows_stopPlayback ]).
Qed.

(** The inputs other than [startRecording], which rethrows what it
    catches. *)
Definition notStartRecording (i : Input) : Prop :=
  match i with StartRecording _ _ => False | _ => True end.

Lemma NeverThrows_handler (i : Input) :
  notStartRecording i -> NeverThrows (handler startThrows stopThrows i).
Proof.
  destruct i; cbn [handler notStartRecording]; intros Hi;
    try destruct Hi.
  - apply NeverThrows_handleAudioProcess.
  - apply NeverThrows_assign.
  - apply NeverThrows_assign.
  - apply NeverThrows_assign.
  - apply NeverThrows_stopRecording.
  - unfold playAudioChunk. apply NeverThrows_tryCatch.
    apply NeverThrows_dispatchEvent.
  - unfold onended.
    never_throws ltac:(idtac; first [ apply NeverThrows_clearPlaybackTimeout
                                    | apply NeverThrows_playNextChunk ]).
  - unfold onPlaybackTimeout.
    never_throws ltac:(idtac; apply NeverThrows_playNextChunk).
  - apply NeverThrows_stopPlayback.
  - unfold releaseHardware.
    never_throws ltac:(idtac; first [ apply NeverThrows_clearPlaybackTimeout
                                    | apply NeverThrows_stopRecording
                                    | apply NeverThrows_stopPlayback ]).
  - unfold toggleMicrophoneMute. never_throws fail.
Qed.

Lemma thrown_seq (p q : Proc) (this : AudioService) :
  thrown (seq p q this)
  = if thrown (p this) then true else thrown (q (final (p this))).
Proof.
  rewrite seq_run. destruct (thrown (p this)) eqn:E; [exact E|].
  apply thrown_after.
Qed.

Lemma thrown_tryCatch (p h : Proc) (this : AudioService) :
  thrown (tryCatch p h this)
  = if thrown (p this) then thrown (h (final (p this))) else false.
Proof.
  rewrite tryCatch_run. destruct (thrown (p this)) eqn:E; [|exact E].
  apply thrown_after.
Qed.

Lemma startRecording_thrown (contextCreated granted : bool)
    (this : AudioService) :
  thrown (startRecording contextCreated granted this)
  = negb (bool_decide (audioState this = RECORDING))
    && negb (contextCreated && granted).
Proof.
  unfold startRecording. rewrite run_ifThenElse.
  case_bool_decide; [reflexivity|]. cbn [negb andb].
  rewrite thrown_tryCatch.
  assert (Hh : forall s,
             thrown ((dispatchEvent AUDIO_ERROR ErrorData;;
                      stopRecording;; throw)%proc s) = true).
  { intros s. rewrite thrown_seq. cbn [thrown dispatchEvent act final].
    rewrite run_dispatchEvent. cbn [thrown final].
    rewrite thrown_seq, NeverThrows_stopRecording. reflexivity. }
  rewrite Hh. unfold initAudioContext.
  destruct contextCreated, granted; cbn [andb negb];
    rewrite !thrown_seq; repeat proc_step; cbn [thrown final];
    rewrite ?thrown_seq; repeat proc_step; cbn [thrown final hasAudioContext
      set_hasAudioContext]; reflexivity.
Qed.

(** X1. The exceptions of the model are those of the platform's
    [start()] and [stop()], the range errors of the typed-array and
    [DataView] stores behind [sendAudioChunk], and the [throw] statements
    of the service itself; every other platform or websocket call is taken
    to return. None of them leaves one of the twelve handlers (the capture
    callback, [onended], the safety-timeout callback, and the methods
    [startRecording], [stopRecording], [playAudioChunk], [stopPlayback],
    [releaseHardware], [toggleMicrophoneMute] and the three state
    setters), with one exception: [startRecording] rethrows, exactly when
    it was not already recording and the audio context or the microphone
    could not be had. *)
Theorem X1_exceptions_never_escape (i : Input) (this : AudioService) :
  thrown (handler startThrows stopThrows i this)
  = match i with
    | StartRecording contextCreated granted =>
        negb (bool_decide (audioState this = RECORDING))
        && negb (contextCreated && granted)
    | _ => false
    end.
Proof.
  destruct i; try (apply NeverThrows_handler; exact I).
  apply startRecording_thrown.
Qed.

End HandlersNeverThrow.

(** *** Stopping and starting the recording *)

Section Recording.

Variable startThrows : AudioBufferSourceNode -> bool.
Variable stopThrows : AudioBufferSourceNode -> bool.

Lemma stopRecording_run (this : AudioService) :
  audioState this = RECORDING ->
  stopRecording this =
    Out (set_audioBuffer []
           (set_audioState INACTIVE (final (sendAudioChunk this))))
        (actions (sendAudioChunk this) ++ [Dispatch RECORDING_STOP Empty])
        false.
Proof.
  intros Hs. unfold stopRecording. rewrite run_ifThenElse, Hs.
  cbn [bool_decide decide_rel]. rewrite seq_run.
  rewrite (NeverThrows_sendAudioChunk this). repeat proc_step.
  reflexivity.
Qed.

Lemma stopRecording_not_recording (this : AudioService) :
  audioState this <> RECORDING -> stopRecording this = Out this [] false.
Proof.
  intros Hs. unfold stopRecording. rewrite run_ifThenElse.
  rewrite bool_decide_true by exact Hs. reflexivity.
Qed.

(** Whether [sendAudioChunk] would send what is buffered. *)
Definition sendable (this : AudioService) : bool :=
  negb (bool_decide (length (audioBuffer this) = 0%nat))
  && negb (isProcessing this)
  && (isVoiceDetected this
      || negb (audioLengthMs this <? minRecordingLength this)%float).

Lemma utterances_sendAudioChunk (this : AudioService) :
  utterances (actions (sendAudioChunk this))
  = if sendable this
    then option_list (float32ToWav (concat (audioBuffer this))
                                   (sampleRate (config this)))
    else [].
Proof.
  rewrite sendAudioChunk_run. unfold sendable.
  case_bool_decide; [reflexivity|].
  destruct (isProcessing this); [reflexivity|].
  destruct (isVoiceDetected this); cbn [negb andb orb].
  - destruct (float32ToWav _ _); reflexivity.
  - destruct (audioLengthMs this <? minRecordingLength this)%float;
      cbn [negb]; [reflexivity|].
    destruct (float32ToWav _ _); reflexivity.
Qed.

(** X2. [stopRecording] does nothing unless the service is in the
    [RECORDING] state. In that state it flushes the buffer through
    [sendAudioChunk]: the buffered frames are sent, as one utterance, if
    there are any, the service is not processing, and either voice is still
    detected (then whatever their duration) or they last at least
    [minRecordingLength]; otherwise they are dropped. Either way the state
    becomes [INACTIVE], the buffer is emptied and one [RECORDING_STOP]
    event is dispatched. *)
Theorem X2_stopRecording_flushes_or_ignores (this : AudioService) :
  let r := stopRecording this in
  if bool_decide (audioState this = RECORDING)
  then
    audioState (final r) = INACTIVE
    /\ audioBuffer (final r) = []
    /\ dispatched RECORDING_STOP (actions r) = [Empty]
    /\ utterances (actions r)
       = (if sendable this
          then option_list (float32ToWav (concat (audioBuffer this))
                                         (sampleRate (config this)))
          else [])
    /\ (sendable this = true -> length (utterances (actions r)) = 1%nat)
  else r = Out this [] false.
Proof.
  cbv zeta. case_bool_decide as Hs.
  - rewrite (stopRecording_run this Hs). cbn [final actions].
    assert (Hd : dispatched RECORDING_STOP (actions (sendAudioChunk this)) = []).
    { destruct (sendAudioChunk_footprint this) as (f & t & b & -> & Ht).
      cbn [actions]. clear -Ht. induction Ht as [|a rest [wav ->] _ IH];
        [reflexivity | exact IH]. }
    assert (Hu : utterances (actions (sendAudioChunk this)
                             ++ [Dispatch RECORDING_STOP Empty])
                 = utterances (actions (sendAudioChunk this))).
    { unfold utterances. rewrite omap_app. cbn. apply app_nil_r. }
    split; [reflexivity|]. split; [reflexivity|]. split.
    + rewrite dispatched_app, Hd. reflexivity.
    + rewrite Hu, utterances_sendAudioChunk. split; [reflexivity|].
      intros ->.
      destruct (float32ToWav_layout (concat (audioBuffer this))
                  (sampleRate (config this))) as (wav & -> & _).
      reflexivity.
  - apply stopRecording_not_recording, Hs.
Qed.

(** X3. Playback takes the [audioState] field over: once a chunk has
    started playing the state is [SPEAKING], not [RECORDING], and a call of
    [stopRecording] then changes nothing and sends nothing, so that frames
    already buffered stay buffered. *)
Theorem X3_stopRecording_ignored_once_playback_started
    (this : AudioService) (chunk : AudioBuffer) :
  (forall node, startThrows node = false) ->
  isPlaying this = false ->
  let playing := final (playAudioChunk startThrows true (Some chunk) this) in
  audioState playing = SPEAKING
  /\ audioBuffer playing = audioBuffer this
  /\ stopRecording playing = Out playing [] false.
Proof.
  intros Hok Hp playing.
  assert (Hs : audioState playing = SPEAKING
               /\ audioBuffer playing = audioBuffer this).
  { subst playing. rewrite (playAudioChunk_while_idle startThrows Hok this chunk Hp).
    set (this' := set_audioQueue _ _).
    destruct (audioQueue this') as [|b rest] eqn:Hq.
    - subst this'. cbn in Hq. apply app_eq_nil in Hq as [_ Hq]. discriminate.
    - rewrite (playNextChunk_starts startThrows this' b rest Hq eq_refl)
        by apply Hok.
      split; reflexivity. }
  destruct Hs as [Hs Hb]. split; [exact Hs|]. split; [exact Hb|].
  apply stopRecording_not_recording. rewrite Hs. discriminate.
Qed.

(** X4. [startRecording] in normal form. Already recording: nothing
    happens, whatever the platform would answer (the buffer is not
    cleared). Otherwise, with a context and the microphone: the buffer and
    the voice flag are reset, the state becomes [RECORDING] and
    [RECORDING_START] is dispatched. Otherwise it dispatches [AUDIO_ERROR]
    (a second time when it was the context that failed, which
    [initAudioContext] reports itself), calls [stopRecording], which does
    nothing since the state is not [RECORDING], and rethrows: the state,
    the buffer and the voice flag are as before. *)
Theorem X4_startRecording_outcomes
    (contextCreated granted : bool) (this : AudioService) :
  startRecording contextCreated granted this =
    if bool_decide (audioState this = RECORDING) then Out this [] false
    else if contextCreated && granted then
      Out (set_lastVoiceTime 0
             (set_isVoiceDetected false
                (set_audioState RECORDING
                   (set_audioBuffer [] (set_hasAudioContext true this)))))
          [Dispatch RECORDING_START Empty] false
    else
      Out (set_hasAudioContext contextCreated this)
          ((if contextCreated then [] else [Dispatch AUDIO_ERROR ErrorData])
           ++ [Dispatch AUDIO_ERROR ErrorData])
          true.
Proof.
  set (r := Out _ _ true).
  unfold startRecording. rewrite run_ifThenElse.
  case_bool_decide as Hs; [reflexivity|].
  rewrite tryCatch_run.
  assert (Hcatch : forall s, audioState s = audioState this ->
            (dispatchEvent AUDIO_ERROR ErrorData;; stopRecording;; throw) s
            = Out s [Dispatch AUDIO_ERROR ErrorData] true).
  { intros s E. rewrite seq_dispatchEvent, seq_run.
    rewrite stopRecording_not_recording by (rewrite E; exact Hs).
    reflexivity. }
  destruct contextCreated, granted; cbn [andb]; [reflexivity|..];
    lazymatch goal with
    | |- (if ?b then ?x else _) = _ => change b with true; change (x = r)
    end;
    rewrite Hcatch by reflexivity; reflexivity.
Qed.

End Recording.

(** *** Playback: stopping, start failures, queue order *)

Section Playback.

Variable startThrows : AudioBufferSourceNode -> bool.
Variable stopThrows : AudioBufferSourceNode -> bool.

Lemma run_throw (this : AudioService) : throw this = Out this [] true.
Proof. reflexivity. Qed.

Lemma clearPlaybackTimeout_none (this : AudioService) :
  playbackTimeoutId this = None -> clearPlaybackTimeout this = Out this [] false.
Proof.
  intros H. unfold clearPlaybackTimeout. rewrite run_withThis, H.
  reflexivity.
Qed.

(** [playNextChunk] case by case, for any queue contents. *)
Lemma playNextChunk_from_nil (this : AudioService) :
  playNextChunk_from startThrows [] this =
    Out (set_audioState INACTIVE
           (set_isSpeaking false
              (set_isPlaying false (set_playbackTimeoutId None this))))
        (clearing this
         ++ [Dispatch PLAYBACK_END (PlaybackEnded SPEAKING false false)])
        false.
Proof.
  cbn [playNextChunk_from]. rewrite seq_run, clearPlaybackTimeout_run.
  cbn [thrown final actions]. repeat proc_step. reflexivity.
Qed.

Lemma playNextChunk_from_no_context (b : AudioBuffer)
    (rest : list AudioBuffer) (this : AudioService) :
  hasAudioContext this = false ->
  playNextChunk_from startThrows (b :: rest) this =
    Out (set_playbackTimeoutId None this) (clearing this) false.
Proof.
  intros Hc. cbn [playNextChunk_from].
  rewrite seq_run, clearPlaybackTimeout_run.
  cbn [thrown final actions]. rewrite run_when.
  cbn [hasAudioContext set_playbackTimeoutId]. rewrite Hc.
  rewrite run_skip, after_Out, app_nil_r. reflexivity.
Qed.

Lemma playNextChunk_from_started (b : AudioBuffer)
    (rest : list AudioBuffer) (this : AudioService) :
  hasAudioContext this = true ->
  startThrows {| node_id := nodesCreated this; buffer := b |} = false ->
  playNextChunk_from startThrows (b :: rest) this =
    Out (set_playbackTimeoutId (Some (timersCreated this))
           (set_timersCreated (S (timersCreated this))
              (set_currentSource
                 (Some {| node_id := nodesCreated this; buffer := b |})
                 (set_nodesCreated (S (nodesCreated this))
                    (set_audioState SPEAKING
                       (set_isSpeaking true
                          (set_isPlaying true
                             (set_audioQueue rest
                                (set_playbackTimeoutId None this)))))))))
        (clearing this
         ++ [NodeStart {| node_id := nodesCreated this; buffer := b |};
             SetTimeout (timersCreated this) (duration b * 1000 + 1000)]
         ++ (if isPlaying this then [] else [Dispatch PLAYBACK_START Empty]))
        false.
Proof.
  intros Hc Hs.
  cbn [playNextChunk_from]. rewrite seq_run, clearPlaybackTimeout_run.
  cbn [thrown final actions]. rewrite run_when.
  cbn [hasAudioContext set_playbackTimeoutId]. rewrite Hc.
  rewrite seq_assign, run_withThis. cbv zeta.
  cbn [isPlaying nodesCreated set_audioQueue set_playbackTimeoutId].
  repeat proc_step. rewrite tryCatch_run.
  unfold nodeStart. rewrite Hs. unfold armPlaybackTimeout.
  repeat proc_step.
  cbn [timersCreated set_currentSource set_nodesCreated set_audioState
       set_isSpeaking set_isPlaying set_audioQueue set_playbackTimeoutId].
  destruct (isPlaying this); repeat proc_step; cbn [thrown];
    unfold after; cbn [final actions thrown]; reflexivity.
Qed.

(** The state in which the [catch] block of [playNextChunk] goes on to the
    rest of the queue after [start()] raised on the head. *)
Definition afterFailedStart (b : AudioBuffer) (rest : list AudioBuffer)
    (this : AudioService) : AudioService :=
  set_currentSource None
    (set_currentSource
       (Some {| node_id := nodesCreated this; buffer := b |})
       (set_nodesCreated (S (nodesCreated this))
          (set_audioState SPEAKING
             (set_isSpeaking true
                (set_isPlaying true
                   (set_audioQueue rest
                      (set_playbackTimeoutId None this))))))).

Lemma playNextChunk_from_failed (b : AudioBuffer)
    (rest : list AudioBuffer) (this : AudioService) :
  hasAudioContext this = true ->
  startThrows {| node_id := nodesCreated this; buffer := b |} = true ->
  playNextChunk_from startThrows (b :: rest) this =
    after (clearing this ++ [Dispatch AUDIO_ERROR ErrorData])
      match rest with
      | _ :: _ =>
          playNextChunk_from startThrows rest (afterFailedStart b rest this)
      | [] =>
          Out (set_audioState INACTIVE
                 (set_isSpeaking false
                    (set_isPlaying false (afterFailedStart b rest this))))
              [Dispatch PLAYBACK_END (PlaybackEnded SPEAKING true false)]
              false
      end.
Proof.
  intros Hc Hs.
  cbn [playNextChunk_from]. rewrite seq_run, clearPlaybackTimeout_run.
  cbn [thrown final actions]. rewrite run_when.
  cbn [hasAudioContext set_playbackTimeoutId]. rewrite Hc.
  rewrite seq_assign, run_withThis. cbv zeta.
  cbn [isPlaying nodesCreated set_audioQueue set_playbackTimeoutId].
  repeat proc_step. rewrite tryCatch_run.
  unfold nodeStart. rewrite Hs. rewrite seq_throw, run_throw.
  cbn [thrown final actions].
  rewrite seq_dispatchEvent, seq_run.
  rewrite clearPlaybackTimeout_none by reflexivity.
  cbn [thrown final actions].
  rewrite seq_assign.
  destruct rest as [|b' rest']; repeat proc_step;
    rewrite ?app_nil_r, <- ?app_assoc; reflexivity.
Qed.

(** X5. [stopPlayback] with no current source does nothing at all. With a
    current source it empties the queue, clears the safety timer, resets
    the playing and speaking flags and dispatches exactly one
    [PLAYBACK_STOP]; the state becomes [INTERRUPTED] if it was [SPEAKING]
    and [INACTIVE] otherwise. If [stop()] did not raise, the source is
    forgotten and a second call does nothing; if it raised, the node is
    still the current source. *)
Theorem X5_stopPlayback_effect_and_idempotence (this : AudioService) :
  let r := stopPlayback stopThrows this in
  match currentSource this with
  | None => r = Out this [] false
  | Some source =>
      audioQueue (final r) = []
      /\ playbackTimeoutId (final r) = None
      /\ isPlaying (final r) = false
      /\ isSpeaking (final r) = false
      /\ audioState (final r)
         = (if bool_decide (audioState this = SPEAKING)
            then INTERRUPTED else INACTIVE)
      /\ dispatched PLAYBACK_STOP (actions r)
         = [PlaybackStopped (bool_decide (audioState this = SPEAKING))
                            (audioState this)]
      /\ started (actions r) = []
      /\ if stopThrows source
         then currentSource (final r) = Some source
         else stopPlayback stopThrows (final r) = Out (final r) [] false
  end.
Proof.
  intros r. subst r. destruct (currentSource this) as [source|] eqn:Hs.
  - rewrite (stopPlayback_current stopThrows this source Hs).
    cbn [final actions thrown].
    rewrite !dispatched_app, !started_app.
    change (match playbackTimeoutId this with
            | Some id => [ClearTimeout id]
            | None => []
            end) with (clearing this).
    rewrite dispatched_clearing, started_clearing.
    do 5 (split; [reflexivity|]).
    destruct (stopThrows source); cbn.
    + repeat split; reflexivity.
    + repeat split; reflexivity.
  - apply stopPlayback_idle, Hs.
Qed.

(** How a procedure that ends normally composes with what follows. *)
Lemma seq_normal (p q : Proc) (this : AudioService) :
  thrown (p this) = false ->
  seq p q this = after (actions (p this)) (q (final (p this))).
Proof. intros H. rewrite seq_run, H. reflexivity. Qed.

Lemma utterances_app (t1 t2 : list Action) :
  utterances (t1 ++ t2) = utterances t1 ++ utterances t2.
Proof. apply omap_app. Qed.

(** Neither [sendAudioChunk] nor [stopRecording] touches the playback side. *)
Lemma sendAudioChunk_playback_untouched (this : AudioService) :
  currentSource (final (sendAudioChunk this)) = currentSource this
  /\ audioQueue (final (sendAudioChunk this)) = audioQueue this
  /\ started (actions (sendAudioChunk this)) = [].
Proof.
  rewrite sendAudioChunk_run.
  case_bool_decide; [repeat split; reflexivity|].
  destruct (isProcessing this); [repeat split; reflexivity|].
  destruct (negb (isVoiceDetected this) && _); [repeat split; reflexivity|].
  destruct (float32ToWav _ _); repeat split; reflexivity.
Qed.

Lemma stopRecording_playback_untouched (this : AudioService) :
  currentSource (final (stopRecording this)) = currentSource this
  /\ audioQueue (final (stopRecording this)) = audioQueue this
  /\ started (actions (stopRecording this)) = [].
Proof.
  destruct (decide (audioState this = RECORDING)) as [Hr|Hr].
  - rewrite (stopRecording_run this Hr). cbn [final actions].
    destruct (sendAudioChunk_playback_untouched this) as (H1 & H2 & H3).
    rewrite started_app, H3. repeat split; assumption.
  - rewrite (stopRecording_not_recording this Hr). repeat split; reflexivity.
Qed.

(** X6. [releaseHardware] always ends normally, in a state that is
    [INACTIVE], not playing, not speaking, without detected voice, with an
    empty capture buffer and no safety timer. What was captured is sent
    exactly as [stopRecording] would send it. The playback queue, however,
    is emptied only when a source node is current: otherwise queued buffers
    stay queued. *)
Theorem X6_releaseHardware_resets (this : AudioService) :
  let r := releaseHardware stopThrows this in
  thrown r = false
  /\ audioState (final r) = INACTIVE
  /\ isPlaying (final r) = false
  /\ isSpeaking (final r) = false
  /\ isVoiceDetected (final r) = false
  /\ audioBuffer (final r) = []
  /\ playbackTimeoutId (final r) = None
  /\ utterances (actions r) = utterances (actions (stopRecording this))
  /\ started (actions r) = []
  /\ audioQueue (final r)
     = match currentSource this with
       | Some _ => []
       | None => audioQueue this
       end.
Proof.
  intros r. subst r. unfold releaseHardware.
  rewrite (seq_normal stopRecording) by apply NeverThrows_stopRecording.
  pose proof (stopRecording_playback_untouched this) as Hcs.
  set (r1 := stopRecording this) in *.
  destruct Hcs as (Hcs & Hq & Hst).
  rewrite (seq_normal (stopPlayback stopThrows))
    by apply NeverThrows_stopPlayback.
  rewrite (seq_normal clearPlaybackTimeout)
    by apply NeverThrows_clearPlaybackTimeout.
  rewrite clearPlaybackTimeout_run.
  repeat proc_step.
  cbn [final actions thrown].
  rewrite !utterances_app, !started_app, Hst.
  set (r2 := stopPlayback stopThrows (final r1)).
  assert (H2 : utterances (actions r2) = [] /\ started (actions r2) = []
               /\ audioQueue (final r2)
                  = match currentSource this with
                    | Some _ => []
                    | None => audioQueue this
                    end).
  { subst r2. rewrite <- Hcs, <- Hq.
    destruct (currentSource (final r1)) as [source|] eqn:E.
    - rewrite (stopPlayback_current stopThrows _ source E).
      cbn [final actions]. destruct (playbackTimeoutId (final r1));
        destruct (stopThrows source); repeat split; reflexivity.
    - rewrite (stopPlayback_idle stopThrows _ E). repeat split; reflexivity. }
  destruct H2 as (H2u & H2s & H2q).
  rewrite H2u, H2s.
  assert (Hu : utterances (clearing (final r2)) = []).
  { unfold clearing. destruct (playbackTimeoutId (final r2)); reflexivity. }
  rewrite Hu, started_clearing, !app_nil_r.
  repeat split; try reflexivity. exact H2q.
Qed.

(** While something is playing, [playNextChunk] announces no start. *)
Lemma playNextChunk_from_no_announce (queue : list AudioBuffer) :
  forall this, isPlaying this = true ->
    dispatched PLAYBACK_START
      (actions (playNextChunk_from startThrows queue this)) = [].
Proof.
  induction queue as [|b rest IH]; intros this Hp.
  - rewrite playNextChunk_from_nil. cbn [actions].
    rewrite dispatched_app, dispatched_clearing. reflexivity.
  - destruct (hasAudioContext this) eqn:Hc.
    + destruct (startThrows {| node_id := nodesCreated this; buffer := b |})
        eqn:Hs.
      * rewrite (playNextChunk_from_failed b rest this Hc Hs).
        rewrite actions_after, !dispatched_app, dispatched_clearing.
        destruct rest as [|b' rest']; [reflexivity|].
        rewrite IH by reflexivity. reflexivity.
      * rewrite (playNextChunk_from_started b rest this Hc Hs).
        cbn [actions]. rewrite !dispatched_app, dispatched_clearing, Hp.
        reflexivity.
    + rewrite (playNextChunk_from_no_context b rest this Hc).
      apply dispatched_clearing.
Qed.

(** X7. [PLAYBACK_START] is dispatched by [playNextChunk] at most once,
    and only when nothing was playing, a context exists and [start()]
    succeeds on the very first buffer of the queue. If the first buffer
    fails to start and a later one starts within the same call, playback
    begins without any [PLAYBACK_START]. *)
Theorem X7_playback_start_only_with_first_buffer (this : AudioService) :
  dispatched PLAYBACK_START (actions (playNextChunk startThrows this)) =
    match audioQueue this with
    | b :: _ =>
        if negb (isPlaying this) && hasAudioContext this
           && negb (startThrows
                      {| node_id := nodesCreated this; buffer := b |})
        then [Empty] else []
    | [] => []
    end.
Proof.
  unfold playNextChunk. rewrite run_withThis.
  destruct (audioQueue this) as [|b rest].
  - rewrite playNextChunk_from_nil. cbn [actions].
    rewrite dispatched_app, dispatched_clearing. reflexivity.
  - destruct (hasAudioContext this) eqn:Hc.
    + destruct (startThrows {| node_id := nodesCreated this; buffer := b |})
        eqn:Hs.
      * rewrite (playNextChunk_from_failed b rest this Hc Hs).
        rewrite actions_after, !dispatched_app, dispatched_clearing.
        rewrite andb_false_r.
        destruct rest as [|b' rest']; [reflexivity|].
        rewrite playNextChunk_from_no_announce by reflexivity. reflexivity.
      * rewrite (playNextChunk_from_started b rest this Hc Hs).
        cbn [actions]. rewrite !dispatched_app, dispatched_clearing.
        destruct (isPlaying this); reflexivity.
    + rewrite (playNextChunk_from_no_context b rest this Hc).
      rewrite andb_false_r. apply dispatched_clearing.
Qed.



End Playback.

(** *** The playback queue is first in, first out *)

Section Fifo.

(** [p] takes buffers from the front of the queue only: what it starts,
    followed by what it leaves queued, is a subsequence of what was queued
    followed by [added]. *)
Definition Fifo (added : list AudioBuffer) (p : Proc) : Prop :=
  forall this,
    sublist (started (actions (p this)) ++ audioQueue (final (p this)))
            (audioQueue this ++ added).

Lemma Fifo_skip : Fifo [] skip.
Proof. intros this. rewrite run_skip. cbn. rewrite app_nil_r. reflexivity. Qed.

Lemma Fifo_throw : Fifo [] throw.
Proof.
  intros this. change (throw this) with (Out this [] true). cbn.
  rewrite app_nil_r. reflexivity.
Qed.

Lemma Fifo_act a : started [a] = [] -> Fifo [] (act a).
Proof.
  intros Ha this. rewrite run_act. cbn [final actions].
  rewrite Ha, app_nil_r.
  reflexivity.
Qed.

Lemma Fifo_dispatchEvent e d : Fifo [] (dispatchEvent e d).
Proof. apply Fifo_act. reflexivity. Qed.

Lemma Fifo_assign f :
  (forall this, sublist (audioQueue (f this)) (audioQueue this)) ->
  Fifo [] (assign f).
Proof.
  intros Hf this. rewrite run_assign. cbn. rewrite app_nil_r. apply Hf.
Qed.

Lemma Fifo_seq added1 added2 p q :
  Fifo added1 p -> Fifo added2 q -> Fifo (added1 ++ added2) (seq p q).
Proof.
  intros Hp Hq this. rewrite seq_run. specialize (Hp this).
  destruct (thrown (p this)).
  - rewrite app_assoc. apply sublist_inserts_r, Hp.
  - rewrite final_after, actions_after, started_app, <- app_assoc.
    specialize (Hq (final (p this))).
    etransitivity; [apply sublist_app; [reflexivity | exact Hq]|].
    rewrite !app_assoc. apply sublist_app; [exact Hp | reflexivity].
Qed.

Lemma Fifo_seq_nil p q : Fifo [] p -> Fifo [] q -> Fifo [] (seq p q).
Proof. apply (Fifo_seq [] []). Qed.

Lemma Fifo_tryCatch added1 added2 p h :
  Fifo added1 p -> Fifo added2 h -> Fifo (added1 ++ added2) (tryCatch p h).
Proof.
  intros Hp Hh this. rewrite tryCatch_run. specialize (Hp this).
  destruct (thrown (p this)).
  - rewrite final_after, actions_after, started_app, <- app_assoc.
    specialize (Hh (final (p this))).
    etransitivity; [apply sublist_app; [reflexivity | exact Hh]|].
    rewrite !app_assoc. apply sublist_app; [exact Hp | reflexivity].
  - rewrite app_assoc. apply sublist_inserts_r, Hp.
Qed.

Lemma Fifo_tryCatch_nil p h : Fifo [] p -> Fifo [] h -> Fifo [] (tryCatch p h).
Proof. apply (Fifo_tryCatch [] []). Qed.

Lemma Fifo_seq_r added p q : Fifo [] p -> Fifo added q -> Fifo added (seq p q).
Proof. apply (Fifo_seq [] added). Qed.

Lemma Fifo_tryCatch_l added p h :
  Fifo added p -> Fifo [] h -> Fifo added (tryCatch p h).
Proof.
  intros Hp Hh. rewrite <- (app_nil_r added). apply Fifo_tryCatch; assumption.
Qed.

Lemma Fifo_ifThenElse added c p q :
  Fifo added p -> Fifo added q -> Fifo added (ifThenElse c p q).
Proof.
  intros Hp Hq this. rewrite run_ifThenElse. destruct (c this); auto.
Qed.

Lemma Fifo_when c p : Fifo [] p -> Fifo [] (when c p).
Proof. intros Hp. apply Fifo_ifThenElse; [exact Hp | apply Fifo_skip]. Qed.

Lemma Fifo_withThis added k :
  (forall s, Fifo added (k s)) -> Fifo added (withThis k).
Proof. intros Hk this. rewrite run_withThis. apply Hk. Qed.

Lemma Fifo_if added (b : bool) p q :
  Fifo added p -> Fifo added q -> Fifo added (if b then p else q).
Proof. destruct b; auto. Qed.

End Fifo.

Ltac fifo_rule :=
  lazymatch goal with
  | |- Fifo [] (seq _ _) => apply Fifo_seq_nil
  | |- Fifo [] (tryCatch _ _) => apply Fifo_tryCatch_nil
  | |- Fifo [] skip => apply Fifo_skip
  | |- Fifo [] throw => apply Fifo_throw
  | |- Fifo [] (ifThenElse _ _ _) => apply Fifo_ifThenElse
  | |- Fifo [] (when _ _) => apply Fifo_when
  | |- Fifo [] (assign _) =>
      apply Fifo_assign; intros ?; cbn;
      first [ reflexivity | apply sublist_nil_l ]
  | |- Fifo [] (act _) => apply Fifo_act; reflexivity
  | |- Fifo [] (dispatchEvent _ _) => apply Fifo_dispatchEvent
  | |- Fifo [] (withThis _) => apply Fifo_withThis; intros ?; cbv zeta
  | |- Fifo [] (match ?x with _ => _ end) =>
      first [ apply Fifo_if | destruct x ]
  end.

Ltac fifo tac := repeat first [ tac | fifo_rule ].

Section FifoHandlers.

Variable startThrows : AudioBufferSourceNode -> bool.
Variable stopThrows : AudioBufferSourceNode -> bool.

Lemma Fifo_clearPlaybackTimeout : Fifo [] clearPlaybackTimeout.
Proof. unfold clearPlaybackTimeout. fifo fail. Qed.

Lemma Fifo_sendAudioChunk : Fifo [] sendAudioChunk.
Proof.
  intros this.
  destruct (sendAudioChunk_playback_untouched this) as (_ & -> & ->).
  rewrite app_nil_r. reflexivity.
Qed.

Lemma Fifo_stopPlayback : Fifo [] (stopPlayback stopThrows).
Proof.
  unfold stopPlayback. apply Fifo_withThis. intros s.
  destruct (currentSource s) as [source|]; [|apply Fifo_skip].
  cbv zeta. unfold nodeStop.
  fifo ltac:(idtac; apply Fifo_clearPlaybackTimeout).
Qed.

(** [playNextChunk] starts at most the first buffer that can be started
    and drops those before it. *)
Lemma playNextChunk_from_order (queue : list AudioBuffer) :
  forall this, audioQueue this = queue ->
    let r := playNextChunk_from startThrows queue this in
    sublist (started (actions r) ++ audioQueue (final r)) queue.
Proof.
  induction queue as [|b rest IH]; intros this Hq r; subst r.
  - rewrite playNextChunk_from_nil. cbn [final actions].
    rewrite started_app, started_clearing. cbn. rewrite Hq. reflexivity.
  - destruct (hasAudioContext this) eqn:Hc.
    + destruct (startThrows {| node_id := nodesCreated this; buffer := b |})
        eqn:Hs.
      * rewrite (playNextChunk_from_failed startThrows b rest this Hc Hs).
        rewrite final_after, actions_after, !started_app, started_clearing.
        destruct rest as [|b' rest']; [apply sublist_nil_l|].
        apply sublist_cons. cbn [app started omap].
        apply (IH (afterFailedStart b (b' :: rest') this)). reflexivity.
      * rewrite (playNextChunk_from_started startThrows b rest this Hc Hs).
        cbn [final actions].
        rewrite !started_app, started_clearing.
        destruct (isPlaying this); cbn; reflexivity.
    + rewrite (playNextChunk_from_no_context startThrows b rest this Hc).
      cbn [final actions]. rewrite started_clearing. cbn. rewrite Hq.
      reflexivity.
Qed.

Lemma Fifo_playNextChunk : Fifo [] (playNextChunk startThrows).
Proof.
  intros this. unfold playNextChunk. rewrite run_withThis, app_nil_r.
  apply playNextChunk_from_order. reflexivity.
Qed.

Lemma Fifo_stopRecording : Fifo [] stopRecording.
Proof.
  unfold stopRecording. fifo ltac:(idtac; apply Fifo_sendAudioChunk).
Qed.

Lemma Fifo_handleAudioProcess inputData now :
  Fifo [] (handleAudioProcess stopThrows inputData now).
Proof.
  unfold handleAudioProcess. cbv zeta.
  fifo ltac:(idtac; first [ apply Fifo_sendAudioChunk
                          | apply Fifo_stopPlayback ]).
Qed.

Lemma Fifo_initAudioContext created : Fifo [] (initAudioContext created).
Proof. unfold initAudioContext. fifo fail. Qed.

Lemma Fifo_playAudioChunk contextCreated decoded :
  Fifo (match decoded with Some b => [b] | None => [] end)
       (playAudioChunk startThrows contextCreated decoded).
Proof.
  unfold playAudioChunk.
  apply Fifo_tryCatch_l; [|apply Fifo_dispatchEvent].
  apply Fifo_seq_r; [apply Fifo_initAudioContext|].
  apply Fifo_seq_r; [fifo fail|].
  apply Fifo_tryCatch_l.
  - destruct decoded as [b|]; [|apply Fifo_throw].
    apply (Fifo_seq [b] []).
    + intros this. rewrite run_assign. cbn. reflexivity.
    + fifo ltac:(idtac; apply Fifo_playNextChunk).
  - fifo fail.
Qed.

Lemma Fifo_handler (i : Input) :
  Fifo (enqueued [i]) (handler startThrows stopThrows i).
Proof.
  destruct i; cbn [handler];
    try (change (enqueued [_]) with (@nil AudioBuffer)).
  - apply Fifo_handleAudioProcess.
  - unfold setProcessingState. fifo fail.
  - unfold setGreetingState. fifo fail.
  - unfold setVisionProcessingState. fifo fail.
  - unfold startRecording.
    fifo ltac:(idtac; first [ apply Fifo_initAudioContext
                            | apply Fifo_stopRecording ]).
  - apply Fifo_stopRecording.
  - destruct decoded; apply (Fifo_playAudioChunk contextCreated).
  - unfold onended.
    fifo ltac:(idtac; first [ apply Fifo_clearPlaybackTimeout
                            | apply Fifo_playNextChunk ]).
  - unfold onPlaybackTimeout. fifo ltac:(idtac; apply Fifo_playNextChunk).
  - apply Fifo_stopPlayback.
  - unfold releaseHardware.
    fifo ltac:(idtac; first [ apply Fifo_clearPlaybackTimeout
                            | apply Fifo_stopRecording
                            | apply Fifo_stopPlayback ]).
  - unfold toggleMicrophoneMute. fifo fail.
Qed.

Lemma run_order (inputs : list Input) : forall this,
  sublist (started (run startThrows stopThrows inputs this).2
           ++ audioQueue (run startThrows stopThrows inputs this).1)
          (audioQueue this ++ enqueued inputs).
Proof.
  induction inputs as [|i rest IH]; intros this.
  - cbn. rewrite app_nil_r. reflexivity.
  - rewrite run_cons. cbv zeta. cbn [fst snd].
    rewrite started_app, <- app_assoc.
    replace (enqueued (i :: rest)) with (enqueued [i] ++ enqueued rest)
      by (symmetry; apply (omap_app _ [i] rest)).
    etransitivity; [apply sublist_app; [reflexivity | apply IH]|].
    rewrite !app_assoc. apply sublist_app; [|reflexivity].
    apply Fifo_handler.
Qed.

(** X9. Whatever the application and the platform do, in whatever order,
    and whichever [start()] or [stop()] calls raise: the buffers that start
    playing are, in order, a subsequence of the buffers queued at the
    beginning followed by the decoded chunks in arrival order. Playback
    never reorders buffers, never plays one twice and never plays one that
    was not queued; it may only skip some. *)
Theorem X9_playback_is_first_in_first_out
    (inputs : list Input) (this : AudioService) :
  sublist (started (run startThrows stopThrows inputs this).2)
          (audioQueue this ++ enqueued inputs).
Proof.
  etransitivity; [|apply run_order].
  apply sublist_inserts_r. reflexivity.
Qed.

End FifoHandlers.

(** *** Voice-activity detection, frame by frame *)

Section Vad.

Variable stopThrows : AudioBufferSourceNode -> bool.

Lemma handleAudioProcess_protected
    (this : AudioService) (inputData : Float32Array) (now : Z) :
  protectedState this = true ->
  handleAudioProcess stopThrows inputData now this =
    Out this
        [Dispatch RECORDING_DATA
           (RecordingData inputData (calculateRMSEnergy inputData) false)]
        false.
Proof.
  intros Hp. unfold handleAudioProcess, ifThenElse. rewrite Hp.
  destruct (voiceThreshold this <? calculateRMSEnergy inputData)%float;
    reflexivity.
Qed.

(** A frame that is not above the threshold and does not end a segment. *)
Lemma handleAudioProcess_quiet_run
    (this : AudioService) (inputData : Float32Array) (now : Z) :
  protectedState this = false ->
  (voiceThreshold this <? calculateRMSEnergy inputData)%float = false ->
  (calculateRMSEnergy inputData <=? voiceThreshold this)%float
  && (silenceTimeout this <? now - lastVoiceTime this) = false ->
  handleAudioProcess stopThrows inputData now this =
    Out (if isVoiceDetected this
         then set_audioBuffer (audioBuffer this ++ [inputData]) this
         else this)
        [Dispatch RECORDING_DATA
           (RecordingData inputData (calculateRMSEnergy inputData)
                          (isVoiceDetected this))]
        false.
Proof.
  intros Hp Hq Ht. unfold handleAudioProcess. cbv zeta.
  rewrite run_ifThenElse, Hq, run_ifThenElse, Hp.
  repeat proc_step. destruct (isVoiceDetected this) eqn:Hv.
  - repeat proc_step.
    cbn [voiceThreshold silenceTimeout lastVoiceTime set_audioBuffer].
    rewrite Ht. repeat proc_step.
    cbn [isVoiceDetected set_audioBuffer]. rewrite ?Hv. reflexivity.
  - repeat proc_step. rewrite ?Hv. reflexivity.
Qed.

Lemma sendAudioChunk_no_interrupt (this : AudioService) :
  interrupts (actions (sendAudioChunk this)) = 0%nat.
Proof.
  rewrite sendAudioChunk_run.
  case_bool_decide; [reflexivity|].
  destruct (isProcessing this); [reflexivity|].
  destruct (negb (isVoiceDetected this) && _); [reflexivity|].
  destruct (float32ToWav _ _); reflexivity.
Qed.

(** What [stopPlayback] leaves alone. *)
Lemma stopPlayback_capture_untouched (this : AudioService) :
  let r := stopPlayback stopThrows this in
  isVoiceDetected (final r) = isVoiceDetected this
  /\ audioBuffer (final r) = audioBuffer this
  /\ utterances (actions r) = []
  /\ dispatched RECORDING_DATA (actions r) = [].
Proof.
  intros r. subst r. destruct (currentSource this) as [source|] eqn:Hs.
  - rewrite (stopPlayback_current stopThrows this source Hs).
    cbn [final actions].
    destruct (playbackTimeoutId this), (stopThrows source);
      repeat split; reflexivity.
  - rewrite (stopPlayback_idle stopThrows this Hs). repeat split; reflexivity.
Qed.

(** A frame above the threshold, outside the protected states. *)
Lemma handleAudioProcess_loud
    (this : AudioService) (inputData : Float32Array) (now : Z) :
  protectedState this = false ->
  (voiceThreshold this <? calculateRMSEnergy inputData)%float = true ->
  let r := handleAudioProcess stopThrows inputData now this in
  isVoiceDetected (final r) = true
  /\ lastVoiceTime (final r) = now
  /\ audioBuffer (final r) = audioBuffer this ++ [inputData]
  /\ utterances (actions r) = []
  /\ dispatched RECORDING_DATA (actions r)
     = [RecordingData inputData (calculateRMSEnergy inputData) true]
  /\ thrown r = false
  /\ interrupts (actions r)
     = (if negb (isVoiceDetected this)
           && (isSpeaking this || bool_decide (audioState this = SPEAKING))
        then 1 else 0)%nat.
Proof.
  intros Hp Hloud r. subst r.
  destruct (isVoiceDetected this) eqn:Hv.
  - (* the segment goes on *)
    unfold handleAudioProcess. cbv zeta.
    rewrite run_ifThenElse, Hloud, run_ifThenElse, Hp.
    repeat proc_step. rewrite Hv. cbn [negb].
    repeat proc_step.
    change (protectedState (set_lastVoiceTime now this))
      with (protectedState this).
    rewrite Hp.
    cbn [set_lastVoiceTime set_audioBuffer isVoiceDetected voiceThreshold
         audioBuffer silenceTimeout lastVoiceTime].
    rewrite Hv, (ltb_true_leb_false _ _ Hloud). cbn [andb].
    repeat proc_step. cbn [isVoiceDetected set_audioBuffer]. rewrite ?Hv.
    cbn. rewrite ?Hv. repeat split; reflexivity.
  - destruct (isSpeaking this || bool_decide (audioState this = SPEAKING))
      eqn:Hsp.
    + (* onset while the assistant speaks *)
      rewrite (handleAudioProcess_onset stopThrows this inputData now
                 Hp Hloud Hv Hsp).
      cbv zeta. cbn [final actions thrown].
      destruct (stopPlayback_capture_untouched (set_isVoiceDetected true this))
        as (H1 & H2 & H3 & H4).
      rewrite utterances_app, dispatched_app, interrupts_app, H3, H4.
      rewrite (stopPlayback_no_interrupt stopThrows).
      cbn [set_audioBuffer set_lastVoiceTime isVoiceDetected lastVoiceTime
           audioBuffer].
      rewrite ?H1, ?H2. repeat split; reflexivity.
    + (* onset while nothing plays *)
      assert (Hg : isGreeting this = false).
      { unfold protectedState in Hp. apply orb_false_elim in Hp as [_ Hp].
        exact Hp. }
      unfold handleAudioProcess. cbv zeta.
      rewrite run_ifThenElse, Hloud, run_ifThenElse, Hp.
      repeat proc_step. rewrite Hv. cbn [negb].
      repeat proc_step.
      cbn [isSpeaking audioState isGreeting set_isVoiceDetected].
      rewrite Hsp. cbn [andb].
      repeat proc_step.
      change (protectedState (set_lastVoiceTime now
                                (set_isVoiceDetected true this)))
        with (protectedState this).
      rewrite Hp.
      cbn [set_lastVoiceTime set_audioBuffer set_isVoiceDetected
           isVoiceDetected voiceThreshold audioBuffer silenceTimeout
           lastVoiceTime].
      rewrite (ltb_true_leb_false _ _ Hloud). cbn [andb].
      repeat proc_step. cbn. repeat split; reflexivity.
Qed.

(** X10. A frame makes the service send an interrupt exactly when its
    energy is above the threshold, no protected state is set, no voice
    segment is in progress yet and the assistant is speaking; it then sends
    exactly one. *)
Theorem X10_interrupt_exactly_at_onset_while_speaking
    (this : AudioService) (inputData : Float32Array) (now : Z) :
  interrupts (actions (handleAudioProcess stopThrows inputData now this)) =
    if (voiceThreshold this <? calculateRMSEnergy inputData)%float
       && negb (protectedState this)
       && negb (isVoiceDetected this)
       && (isSpeaking this || bool_decide (audioState this = SPEAKING))
    then 1%nat else 0%nat.
Proof.
  destruct (protectedState this) eqn:Hp.
  { rewrite (handleAudioProcess_protected this inputData now Hp).
    rewrite andb_false_r. reflexivity. }
  destruct (voiceThreshold this <? calculateRMSEnergy inputData)%float
    eqn:Hloud.
  { destruct (handleAudioProcess_loud this inputData now Hp Hloud)
      as (_ & _ & _ & _ & _ & _ & H).
    rewrite H. reflexivity. }
  cbn [andb].
  destruct ((calculateRMSEnergy inputData <=? voiceThreshold this)%float
            && (silenceTimeout this <? now - lastVoiceTime this)) eqn:Ht.
  - destruct (isVoiceDetected this) eqn:Hv.
    + apply andb_prop in Ht as [He Ht]. apply Z.ltb_lt in Ht.
      rewrite (handleAudioProcess_silence_timeout stopThrows this inputData
                 now Hp Hv He Ht).
      rewrite (seq_normal sendAudioChunk) by apply NeverThrows_sendAudioChunk.
      rewrite actions_after, interrupts_app,
        sendAudioChunk_no_interrupt.
      reflexivity.
    + unfold handleAudioProcess. cbv zeta.
      rewrite run_ifThenElse, Hloud, run_ifThenElse, Hp.
      repeat proc_step. rewrite ?Hv. repeat proc_step. reflexivity.
  - rewrite (handleAudioProcess_quiet_run this inputData now Hp Hloud Ht).
    reflexivity.
Qed.

(** X11. A frame above the threshold, outside the protected states, always
    belongs to a voice segment when the call returns: the flag is up, the
    frame is the last one of the capture buffer, [lastVoiceTime] is the
    time of the call, the frame is reported as voice, and no utterance is
    sent, however long ago the previous voiced frame was. *)
Theorem X11_voiced_frame_extends_the_segment
    (this : AudioService) (inputData : Float32Array) (now : Z) :
  protectedState this = false ->
  (voiceThreshold this <? calculateRMSEnergy inputData)%float = true ->
  let r := handleAudioProcess stopThrows inputData now this in
  isVoiceDetected (final r) = true
  /\ lastVoiceTime (final r) = now
  /\ audioBuffer (final r) = audioBuffer this ++ [inputData]
  /\ utterances (actions r) = []
  /\ dispatched RECORDING_DATA (actions r)
     = [RecordingData inputData (calculateRMSEnergy inputData) true]
  /\ thrown r = false.
Proof.
  intros Hp Hloud r.
  destruct (handleAudioProcess_loud this inputData now Hp Hloud)
    as (H1 & H2 & H3 & H4 & H5 & H6 & _).
  repeat split; assumption.
Qed.

(** X12. A frame that is not above the threshold, outside the protected
    states, and that does not end a segment (its energy is not at or below
    the threshold, or the silence timeout has not passed): while a segment
    is in progress it is appended to the capture buffer and reported as
    voice; otherwise it is dropped, and the state does not change at all.
    Either way nothing is sent and [lastVoiceTime] is not advanced. *)
Theorem X12_quiet_frame_is_buffered_only_during_a_segment
    (this : AudioService) (inputData : Float32Array) (now : Z) :
  protectedState this = false ->
  (voiceThreshold this <? calculateRMSEnergy inputData)%float = false ->
  (calculateRMSEnergy inputData <=? voiceThreshold this)%float
  && (silenceTimeout this <? now - lastVoiceTime this) = false ->
  let r := handleAudioProcess stopThrows inputData now this in
  final r = (if isVoiceDetected this
             then set_audioBuffer (audioBuffer this ++ [inputData]) this
             else this)
  /\ actions r
     = [Dispatch RECORDING_DATA
          (RecordingData inputData (calculateRMSEnergy inputData)
                         (isVoiceDetected this))]
  /\ thrown r = false
  /\ lastVoiceTime (final r) = lastVoiceTime this
  /\ isVoiceDetected (final r) = isVoiceDetected this.
Proof.
  intros Hp Hq Ht r. subst r.
  rewrite (handleAudioProcess_quiet_run this inputData now Hp Hq Ht).
  cbn [final actions thrown].
  destruct (isVoiceDetected this) eqn:Hv; repeat split; try reflexivity.
  all: cbn; exact Hv.
Qed.

(** **** Frames whose energy is not a number *)

Lemma is_nan_of_Prim2SF (x : float) : Prim2SF x = S754_nan -> is_nan x = true.
Proof.
  intros H. destruct (is_nan x) eqn:E; [reflexivity|].
  destruct (Prim2SF_not_nan x E H).
Qed.

Lemma is_nan_mul_self (x : float) : is_nan x = true -> is_nan (x * x) = true.
Proof.
  intros H. apply is_nan_of_Prim2SF.
  rewrite mul_spec, (Prim2SF_is_nan x H). reflexivity.
Qed.

Lemma is_nan_add_l (x y : float) : is_nan x = true -> is_nan (x + y) = true.
Proof.
  intros H. apply is_nan_of_Prim2SF.
  rewrite add_spec, (Prim2SF_is_nan x H). reflexivity.
Qed.

Lemma is_nan_add_r (x y : float) : is_nan y = true -> is_nan (x + y) = true.
Proof.
  intros H. apply is_nan_of_Prim2SF.
  rewrite add_spec, (Prim2SF_is_nan y H).
  destruct (Prim2SF x) as [[]|[]| |]; reflexivity.
Qed.

Lemma is_nan_div_l (x y : float) : is_nan x = true -> is_nan (x / y) = true.
Proof.
  intros H. apply is_nan_of_Prim2SF.
  rewrite div_spec, (Prim2SF_is_nan x H). reflexivity.
Qed.

Lemma is_nan_sqrt (x : float) :
  is_nan x = true -> is_nan (PrimFloat.sqrt x) = true.
Proof.
  intros H. apply is_nan_of_Prim2SF.
  rewrite sqrt_spec, (Prim2SF_is_nan x H). reflexivity.
Qed.

Lemma sum_of_squares_nan (buffer : Float32Array) : forall sum,
  is_nan sum = true ->
  is_nan (fold_left (fun sum x => (sum + x * x)%float) buffer sum) = true.
Proof.
  induction buffer as [|x rest IH]; intros sum H; cbn [fold_left];
    [exact H|].
  apply IH, is_nan_add_l, H.
Qed.

(** A frame with no samples, or with a sample that is not a number, has an
    energy that is not a number. *)
Lemma calculateRMSEnergy_nan (buffer : Float32Array) :
  buffer = [] \/ (exists x, x ∈ buffer /\ is_nan x = true) ->
  is_nan (calculateRMSEnergy buffer) = true.
Proof.
  intros [-> | (x & Hin & Hx)]; [reflexivity|].
  unfold calculateRMSEnergy. cbv zeta.
  apply is_nan_sqrt, is_nan_div_l.
  apply list_elem_of_split in Hin as (l1 & l2 & ->).
  rewrite fold_left_app. cbn [fold_left].
  apply sum_of_squares_nan, is_nan_add_r, is_nan_mul_self, Hx.
Qed.

Lemma ltb_nan_r (x y : float) : is_nan y = true -> (x <? y)%float = false.
Proof.
  intros H. rewrite ltb_spec, (Prim2SF_is_nan y H). unfold SFltb.
  destruct (Prim2SF x) as [[]|[]| |]; reflexivity.
Qed.

Lemma leb_nan_l (x y : float) : is_nan x = true -> (x <=? y)%float = false.
Proof.
  intros H. rewrite leb_spec, (Prim2SF_is_nan x H). reflexivity.
Qed.

(** X13. A frame with no samples, or containing a sample that is not a
    number, has an energy that is not a number, which is neither above the
    threshold nor at or below it. Outside the protected states such a frame
    never starts a segment and never ends one, however long the silence has
    lasted: during a segment it is appended to the capture buffer, and
    nothing is sent. *)
Theorem X13_frame_without_energy_neither_voice_nor_silence
    (this : AudioService) (inputData : Float32Array) (now : Z) :
  inputData = [] \/ (exists x, x ∈ inputData /\ is_nan x = true) ->
  protectedState this = false ->
  let r := handleAudioProcess stopThrows inputData now this in
  is_nan (calculateRMSEnergy inputData) = true
  /\ final r = (if isVoiceDetected this
                then set_audioBuffer (audioBuffer this ++ [inputData]) this
                else this)
  /\ actions r
     = [Dispatch RECORDING_DATA
          (RecordingData inputData (calculateRMSEnergy inputData)
                         (isVoiceDetected this))]
  /\ thrown r = false.
Proof.
  intros Hnan Hp r. subst r.
  apply calculateRMSEnergy_nan in Hnan.
  rewrite (handleAudioProcess_quiet_run this inputData now Hp).
  - repeat split; [exact Hnan|reflexivity..].
  - apply ltb_nan_r, Hnan.
  - rewrite (leb_nan_l _ _ Hnan). reflexivity.
Qed.

End Vad.

(** *** The WAV encoder: header, octets, saturation *)

Section WavHeader.

Implicit Types view : ArrayBuffer.

(** [writeString] stores the character codes in order. *)
Lemma writeString_from_reads codes : forall view offset i view',
  0 <= offset + i ->
  offset + i + Z.of_nat (length codes) <= byteLength view ->
  writeString_from view offset i codes = Some view' ->
  forall (j : nat) c, codes !! j = Some c ->
    peek view' (offset + i + Z.of_nat j) = ToUint8 c.
Proof.
  induction codes as [|c0 rest IH]; intros view offset i view' H1 H2 E j c Hj.
  - discriminate Hj.
  - cbn [writeString_from] in E. cbn [length] in H2.
    destruct (setUint8_ok view (offset + i) c0) as (v1 & E1 & M1 & R1);
      [lia..|].
    rewrite E1 in E. cbn [mbind option_bind] in E.
    pose proof (byteLength_modifiesOnly _ _ _ _ M1) as L1.
    destruct j as [|j]; cbn in Hj.
    + injection Hj as <-.
      destruct (writeString_from_ok rest v1 offset (i + 1))
        as (v2 & E2 & M2); [lia | rewrite L1; lia |].
      rewrite E in E2. injection E2 as <-.
      rewrite (peek_outside _ _ _ _ _ M2) by lia.
      rewrite Z.add_0_r. exact R1.
    + replace (offset + i + Z.of_nat (S j))
        with (offset + (i + 1) + Z.of_nat j) by lia.
      apply (IH v1 offset (i + 1) view'); [lia | rewrite L1; lia | exact E
                                          | exact Hj].
Qed.

Lemma writeString_reads view offset s view' :
  0 <= offset ->
  offset + Z.of_nat (length (charCodes s)) <= byteLength view ->
  writeString view offset s = Some view' ->
  forall (j : nat) c, charCodes s !! j = Some c ->
    peek view' (offset + Z.of_nat j) = ToUint8 c.
Proof.
  intros H1 H2 E j c Hj.
  rewrite <- (writeString_from_reads (charCodes s) view offset 0 view'
                ltac:(lia) ltac:(lia) E j c Hj).
  f_equal. lia.
Qed.

Local Ltac stored lem view' E M R :=
  match goal with
  | |- context [mbind _ (?f ?view ?o ?v)] =>
      destruct (lem view o v) as (view' & E & M & R);
      [ try (cbn; lia).. | rewrite E; cbn [mbind option_bind] ]
  end.

Local Ltac written view' E M R :=
  match goal with
  | |- context [mbind _ (writeString ?view ?o ?s)] =>
      destruct (writeString_ok view o s) as (view' & E & M);
      [ try (cbn; lia).. | ];
      pose proof (writeString_reads view o s view' ltac:(lia)
                    ltac:(cbn; lia) E) as R;
      rewrite E; cbn [mbind option_bind]
  end.

Local Ltac sized M L L' :=
  pose proof (byteLength_modifiesOnly _ _ _ _ M) as L'; rewrite L in L'.

(** Read a field of the result back from the view it was stored in. *)
Local Ltac back :=
  repeat match goal with
  | M : modifiesOnly _ _ ?v ?w |- context [getUint32 ?w ?o] =>
      rewrite (getUint32_outside _ _ v w o M) by (cbn; lia)
  | M : modifiesOnly _ _ ?v ?w |- context [getUint16 ?w ?o] =>
      rewrite (getUint16_outside _ _ v w o M) by (cbn; lia)
  | M : modifiesOnly _ _ ?v ?w |- context [peek ?w ?o] =>
      rewrite (peek_outside _ _ v w o M) by (cbn; lia)
  end.

(** The 44-octet header [float32ToWav] writes, field by field. *)
Lemma float32ToWav_header (buffer : Float32Array) (rate : Z) :
  exists wav,
    float32ToWav buffer rate = Some wav
    /\ map (peek wav) (seqZ 0 4) = charCodes "RIFF"
    /\ map (peek wav) (seqZ 8 4) = charCodes "WAVE"
    /\ map (peek wav) (seqZ 12 4) = charCodes "fmt "
    /\ getUint32 wav 16 = 16
    /\ getUint16 wav 20 = 1
    /\ getUint16 wav 22 = 1
    /\ getUint32 wav 24 = rate mod 2 ^ 32
    /\ getUint32 wav 28 = (rate * 2) mod 2 ^ 32
    /\ getUint16 wav 32 = 2
    /\ getUint16 wav 34 = 16
    /\ map (peek wav) (seqZ 36 4) = charCodes "data".
Proof.
  unfold float32ToWav. cbv zeta.
  set (n := Z.of_nat (length buffer)).
  replace (n * 2) with (2 * n) by lia.
  assert (Hn : 0 <= n) by lia.
  pose proof (byteLength_new_ArrayBuffer (44 + 2 * n) ltac:(lia)) as L0.
  generalize dependent (new_ArrayBuffer (44 + 2 * n)). intros v0 L0.
  written v1 E1 M1 R1. sized M1 L0 L1.
  stored setUint32_ok v2 E2 M2 R2. sized M2 L1 L2.
  written v3 E3 M3 R3. sized M3 L2 L3.
  written v4 E4 M4 R4. sized M4 L3 L4.
  stored setUint32_ok v5 E5 M5 R5. sized M5 L4 L5.
  stored setUint16_ok v6 E6 M6 R6. sized M6 L5 L6.
  stored setUint16_ok v7 E7 M7 R7. sized M7 L6 L7.
  stored setUint32_ok v8 E8 M8 R8. sized M8 L7 L8.
  stored setUint32_ok v9 E9 M9 R9. sized M9 L8 L9.
  stored setUint16_ok v10 E10 M10 R10. sized M10 L9 L10.
  stored setUint16_ok v11 E11 M11 R11. sized M11 L10 L11.
  written v12 E12 M12 R12. sized M12 L11 L12.
  stored setUint32_ok v13 E13 M13 R13. sized M13 L12 L13.
  destruct (writeSamples_ok buffer v13 44 0) as (wav & E & M & R);
    [lia | lia | fold n; lia |].
  exists wav. split; [exact E|].
  clear E E1 E2 E3 E4 E5 E6 E7 E8 E9 E10 E11 E12 E13 R.
  cbn in M1, M3, M4, M12.
  change (seqZ 0 4) with [0; 1; 2; 3].
  change (seqZ 8 4) with [8; 9; 10; 11].
  change (seqZ 12 4) with [12; 13; 14; 15].
  change (seqZ 36 4) with [36; 37; 38; 39].
  change (charCodes "RIFF") with [82; 73; 70; 70].
  change (charCodes "WAVE") with [87; 65; 86; 69].
  change (charCodes "fmt ") with [102; 109; 116; 32].
  change (charCodes "data") with [100; 97; 116; 97].
  cbn [map].
  repeat split; back.
  - f_equal; [exact (R1 0%nat 82 eq_refl)|].
    f_equal; [exact (R1 1%nat 73 eq_refl)|].
    f_equal; [exact (R1 2%nat 70 eq_refl)|].
    f_equal. exact (R1 3%nat 70 eq_refl).
  - f_equal; [exact (R3 0%nat 87 eq_refl)|].
    f_equal; [exact (R3 1%nat 65 eq_refl)|].
    f_equal; [exact (R3 2%nat 86 eq_refl)|].
    f_equal. exact (R3 3%nat 69 eq_refl).
  - f_equal; [exact (R4 0%nat 102 eq_refl)|].
    f_equal; [exact (R4 1%nat 109 eq_refl)|].
    f_equal; [exact (R4 2%nat 116 eq_refl)|].
    f_equal. exact (R4 3%nat 32 eq_refl).
  - exact R5.
  - exact R6.
  - exact R7.
  - exact R8.
  - rewrite R9. unfold ToUint32. f_equal. lia.
  - exact R10.
  - exact R11.
  - f_equal; [exact (R12 0%nat 100 eq_refl)|].
    f_equal; [exact (R12 1%nat 97 eq_refl)|].
    f_equal; [exact (R12 2%nat 116 eq_refl)|].
    f_equal. exact (R12 3%nat 97 eq_refl).
Qed.

(** X14. Whatever the samples and the rate, [float32ToWav] returns a file
    that begins with the canonical header of mono 16-bit PCM: the tags
    RIFF, WAVE, fmt and data at octets 0, 8, 12 and 36, a format chunk of
    16 octets, format 1 (PCM), one channel, the sample rate and the byte
    rate [2 * rate] as 32-bit fields (so modulo [2 ^ 32]), a block
    alignment of 2 and 16 bits per sample. *)
Theorem X14_wav_header_is_mono_16_bit_pcm (buffer : Float32Array) (rate : Z) :
  exists wav,
    float32ToWav buffer rate = Some wav
    /\ map (peek wav) (seqZ 0 4) = charCodes "RIFF"
    /\ map (peek wav) (seqZ 8 4) = charCodes "WAVE"
    /\ map (peek wav) (seqZ 12 4) = charCodes "fmt "
    /\ getUint32 wav 16 = 16
    /\ getUint16 wav 20 = 1
    /\ getUint16 wav 22 = 1
    /\ getUint32 wav 24 = rate mod 2 ^ 32
    /\ getUint32 wav 28 = (rate * 2) mod 2 ^ 32
    /\ getUint16 wav 32 = 2
    /\ getUint16 wav 34 = 16
    /\ map (peek wav) (seqZ 36 4) = charCodes "data"
    /\ (0 <= rate < 2 ^ 31 ->
        getUint32 wav 24 = rate /\ getUint32 wav 28 = 2 * rate).
Proof.
  destruct (float32ToWav_header buffer rate)
    as (wav & E & H0 & H8 & H12 & H16 & H20 & H22 & H24 & H28 & H32 & H34
        & H36).
  exists wav. do 12 (split; [assumption|]).
  intros Hr. rewrite H24, H28. rewrite !Z.mod_small by lia. lia.
Qed.

(** **** Every element of the result is an octet *)

Definition octets view : Prop := Forall (fun b => 0 <= b < 256) view.

Lemma new_ArrayBuffer_octets n : octets (new_ArrayBuffer n).
Proof. apply Forall_replicate. lia. Qed.

Lemma poke_octets view i x : octets view -> 0 <= x < 256 -> octets (poke view i x).
Proof. intros H Hx. apply Forall_insert; assumption. Qed.

Lemma store16_octets view o bits : octets view -> octets (store16 view o bits).
Proof.
  intros H. unfold store16.
  repeat apply poke_octets; try exact H; apply Z.mod_pos_bound; lia.
Qed.

Lemma setUint8_octets view o v view' :
  octets view -> setUint8 view o v = Some view' -> octets view'.
Proof.
  intros H. unfold setUint8. destruct (inRange view o 1); [|discriminate].
  intros [= <-]. apply poke_octets; [exact H|]. apply Z.mod_pos_bound. lia.
Qed.

Lemma setUint16_octets view o v view' :
  octets view -> setUint16 view o v = Some view' -> octets view'.
Proof.
  intros H. unfold setUint16. destruct (inRange view o 2); [|discriminate].
  intros [= <-]. apply store16_octets, H.
Qed.

Lemma setInt16_octets view o x view' :
  octets view -> setInt16 view o x = Some view' -> octets view'.
Proof.
  intros H. unfold setInt16. destruct (inRange view o 2); [|discriminate].
  intros [= <-]. apply store16_octets, H.
Qed.

Lemma setUint32_octets view o v view' :
  octets view -> setUint32 view o v = Some view' -> octets view'.
Proof.
  intros H. unfold setUint32. destruct (inRange view o 4); [|discriminate].
  cbv zeta. intros [= <-].
  repeat apply poke_octets; try exact H; apply Z.mod_pos_bound; lia.
Qed.

Lemma writeString_from_octets codes : forall view offset i view',
  octets view -> writeString_from view offset i codes = Some view' ->
  octets view'.
Proof.
  induction codes as [|c rest IH]; intros view offset i view' H E;
    cbn [writeString_from] in E.
  - injection E as <-. exact H.
  - apply bind_Some in E as (v1 & E1 & E).
    apply (IH v1 offset (i + 1) view'); [|exact E].
    apply (setUint8_octets view (offset + i) c v1 H E1).
Qed.

Lemma writeSamples_octets samples : forall view offset size i view',
  octets view -> writeSamples view offset size i samples = Some view' ->
  octets view'.
Proof.
  induction samples as [|x rest IH]; intros view offset size i view' H E;
    cbn [writeSamples] in E.
  - injection E as <-. exact H.
  - cbv zeta in E. apply bind_Some in E as (v1 & E1 & E).
    apply (IH v1 offset size (i + 1) view'); [|exact E].
    apply (setInt16_octets view _ _ v1 H E1).
Qed.

Lemma float32ToWav_octets (buffer : Float32Array) (rate : Z) wav :
  float32ToWav buffer rate = Some wav -> octets wav.
Proof.
  unfold float32ToWav, writeString. cbv zeta. intros E.
  pose proof (new_ArrayBuffer_octets (44 + Z.of_nat (length buffer) * 2))
    as O0.
  apply bind_Some in E as (v1 & E1 & E).
  pose proof (writeString_from_octets _ _ _ _ _ O0 E1) as O1.
  apply bind_Some in E as (v2 & E2 & E).
  pose proof (setUint32_octets _ _ _ _ O1 E2) as O2.
  apply bind_Some in E as (v3 & E3 & E).
  pose proof (writeString_from_octets _ _ _ _ _ O2 E3) as O3.
  apply bind_Some in E as (v4 & E4 & E).
  pose proof (writeString_from_octets _ _ _ _ _ O3 E4) as O4.
  apply bind_Some in E as (v5 & E5 & E).
  pose proof (setUint32_octets _ _ _ _ O4 E5) as O5.
  apply bind_Some in E as (v6 & E6 & E).
  pose proof (setUint16_octets _ _ _ _ O5 E6) as O6.
  apply bind_Some in E as (v7 & E7 & E).
  pose proof (setUint16_octets _ _ _ _ O6 E7) as O7.
  apply bind_Some in E as (v8 & E8 & E).
  pose proof (setUint32_octets _ _ _ _ O7 E8) as O8.
  apply bind_Some in E as (v9 & E9 & E).
  pose proof (setUint32_octets _ _ _ _ O8 E9) as O9.
  apply bind_Some in E as (v10 & E10 & E).
  pose proof (setUint16_octets _ _ _ _ O9 E10) as O10.
  apply bind_Some in E as (v11 & E11 & E).
  pose proof (setUint16_octets _ _ _ _ O10 E11) as O11.
  apply bind_Some in E as (v12 & E12 & E).
  pose proof (writeString_from_octets _ _ _ _ _ O11 E12) as O12.
  apply bind_Some in E as (v13 & E13 & E).
  pose proof (setUint32_octets _ _ _ _ O12 E13) as O13.
  apply (writeSamples_octets _ _ _ _ _ _ O13 E).
Qed.

(** X15. [float32ToWav] always returns, and what it returns is a sequence
    of [44 + 2 * n] octets: every element lies in [0, 255], whatever the
    samples (infinite or NaN included) and whatever the rate (negative or
    beyond 32 bits included). *)
Theorem X15_wav_is_a_sequence_of_octets (buffer : Float32Array) (rate : Z) :
  exists wav,
    float32ToWav buffer rate = Some wav
    /\ length wav = (44 + 2 * length buffer)%nat
    /\ Forall (fun b => 0 <= b < 256) wav.
Proof.
  destruct (float32ToWav_layout buffer rate) as (wav & E & L & _).
  exists wav. split; [exact E|]. split.
  - unfold byteLength in L. lia.
  - exact (float32ToWav_octets buffer rate wav E).
Qed.

End WavHeader.

(** **** Samples outside [-1, 1] saturate *)

Section Saturation.

Lemma is_nan_mul_l (x y : float) : is_nan x = true -> is_nan (x * y) = true.
Proof.
  intros H. apply is_nan_of_Prim2SF.
  rewrite mul_spec, (Prim2SF_is_nan x H). reflexivity.
Qed.

Lemma ltb_nan_l (x y : float) : is_nan x = true -> (x <? y)%float = false.
Proof.
  intros H. rewrite ltb_spec, (Prim2SF_is_nan x H). reflexivity.
Qed.

Lemma ltb_not_nan_r (x y : float) : (x <? y)%float = true -> is_nan y = false.
Proof.
  intros H. destruct (is_nan y) eqn:E; [|reflexivity].
  rewrite (ltb_nan_r x y E) in H. discriminate.
Qed.

Lemma ltb_not_nan_l (x y : float) : (x <? y)%float = true -> is_nan x = false.
Proof.
  intros H. destruct (is_nan x) eqn:E; [|reflexivity].
  rewrite (ltb_nan_l x y E) in H. discriminate.
Qed.

Lemma ltb_asym (x y : float) : (x <? y)%float = true -> (y <? x)%float = false.
Proof.
  rewrite !ltb_spec. unfold SFltb.
  rewrite (SFcompare_antisym (Prim2SF x) (Prim2SF y)).
  destruct (SFcompare (Prim2SF x) (Prim2SF y)) as [[]|]; cbn; congruence.
Qed.

(** Nothing lies both above 1 and below -1. *)
Lemma above_one_not_below x :
  (1 <? x)%float = true -> (x <? -1)%float = false.
Proof.
  rewrite !ltb_spec. unfold SFltb.
  change (Prim2SF 1) with (S754_finite false 4503599627370496 (-52)).
  change (Prim2SF (-1)) with (S754_finite true 4503599627370496 (-52)).
  destruct (Prim2SF x) as [[]|[]| |[] m e]; cbn [SFcompare];
    first [ congruence | intros _; reflexivity ].
Qed.

Lemma clampSample_above (x : float) :
  (1 <? x)%float = true -> clampSample x = 1%float.
Proof.
  intros H. unfold clampSample, Math_min.
  change (is_nan 1) with false. cbv iota.
  rewrite (ltb_not_nan_r _ _ H), H. reflexivity.
Qed.

Lemma clampSample_below (x : float) :
  (x <? -1)%float = true -> clampSample x = (-1)%float.
Proof.
  intros H. unfold clampSample.
  assert (Hmin : Math_min 1 x = x).
  { unfold Math_min. change (is_nan 1) with false. cbv iota.
    rewrite (ltb_not_nan_l _ _ H).
    destruct (1 <? x)%float eqn:H1.
    - rewrite (above_one_not_below x H1) in H. discriminate.
    - destruct (x <? 1)%float; reflexivity. }
  rewrite Hmin. unfold Math_max. change (is_nan (-1)) with false. cbv iota.
  rewrite (ltb_not_nan_l _ _ H), (ltb_asym _ _ H), H. reflexivity.
Qed.

Lemma clampSample_nan (x : float) : is_nan x = true -> clampSample x = x.
Proof.
  intros H. unfold clampSample, Math_min, Math_max.
  change (is_nan 1) with false. change (is_nan (-1)) with false.
  cbv iota. rewrite H. cbv iota. rewrite H. reflexivity.
Qed.

(** X16. The encoder saturates: a sample above 1 is stored as 32767, a
    sample below -1 as -32768 (the infinities included), and a sample that
    is not a number as 0. *)
Theorem X16_samples_saturate
    (buffer : Float32Array) (rate : Z) (j : nat) (x : float) :
  buffer !! j = Some x ->
  exists wav,
    float32ToWav buffer rate = Some wav
    /\ ((1 <? x)%float = true -> getInt16 wav (44 + 2 * Z.of_nat j) = 32767)
    /\ ((x <? -1)%float = true -> getInt16 wav (44 + 2 * Z.of_nat j) = -32768)
    /\ (is_nan x = true -> getInt16 wav (44 + 2 * Z.of_nat j) = 0).
Proof.
  intros Hj.
  destruct (float32ToWav_layout buffer rate) as (wav & E & _ & _ & _ & _ & R).
  exists wav. split; [exact E|].
  rewrite (R j x Hj). unfold scaleSample. cbv zeta.
  split; [|split]; intros H.
  - rewrite (clampSample_above x H). reflexivity.
  - rewrite (clampSample_below x H). reflexivity.
  - rewrite (clampSample_nan x H), (ltb_nan_l x 0 H).
    unfold ToInt16, truncate.
    rewrite (Prim2SF_is_nan _ (is_nan_mul_l x 32767 H)). reflexivity.
Qed.

End Saturation.

(** *** Invariants of every run: the two playback flags, the safety timer *)

Section PlaybackFlags.

Variable startThrows : AudioBufferSourceNode -> bool.
Variable stopThrows : AudioBufferSourceNode -> bool.

(** [isPlaying] and [isSpeaking] agree, and the state is [SPEAKING] only
    while they are set. *)
Definition flagsAgree (this : AudioService) : Prop :=
  isPlaying this = isSpeaking this
  /\ (audioState this = SPEAKING -> isPlaying this = true).

Definition anyAction (a : Action) : Prop := True.

Lemma Forall_anyAction (trace : list Action) : Forall anyAction trace.
Proof. apply Forall_forall. intros a _. exact I. Qed.

(** A procedure whose final state satisfies the invariant wherever it
    starts. *)
Lemma flagsAgree_established (p : Proc) :
  (forall this, flagsAgree (final (p this))) ->
  Preserves flagsAgree anyAction p.
Proof. intros H this _. split; [apply H | apply Forall_anyAction]. Qed.

Local Ltac flags_assign :=
  let s := fresh "s" in
  intros s [? ?]; split;
  [ assumption | first [ assumption | intros; discriminate ] ].

(** The assignments that end a playback come in a row: both flags down,
    state [INACTIVE]. *)
Local Ltac flags_block :=
  lazymatch goal with
  | |- Preserves _ _ (seq (assign (set_isPlaying false)) _) => idtac
  | |- Preserves _ _ (seq (assign (set_audioState INACTIVE))
                          (seq (assign (set_isVoiceDetected false)) _)) => idtac
  end;
  apply flagsAgree_established; intros ?; repeat proc_step;
  split; [reflexivity | intros; discriminate].

Local Ltac flags_solve tac :=
  preserves_with ltac:(idtac; first [ flags_block | tac ]);
  first [ flags_assign | exact I ].

Lemma flagsAgree_clearPlaybackTimeout :
  Preserves flagsAgree anyAction clearPlaybackTimeout.
Proof. unfold clearPlaybackTimeout. flags_solve fail. Qed.

Lemma flagsAgree_sendAudioChunk :
  Preserves flagsAgree anyAction sendAudioChunk.
Proof.
  intros this H. split; [|apply Forall_anyAction].
  destruct (sendAudioChunk_footprint this) as (frames & trace & t & -> & _).
  exact H.
Qed.

Lemma flagsAgree_stopPlayback :
  Preserves flagsAgree anyAction (stopPlayback stopThrows).
Proof.
  intros this H. split; [|apply Forall_anyAction].
  destruct (currentSource this) as [source|] eqn:Hs.
  - rewrite (stopPlayback_current stopThrows this source Hs).
    split; [reflexivity|]. cbn.
    destruct (bool_decide (audioState this = SPEAKING)); discriminate.
  - rewrite (stopPlayback_idle stopThrows this Hs). exact H.
Qed.

Lemma flagsAgree_playNextChunk_from (queue : list AudioBuffer) :
  Preserves flagsAgree anyAction (playNextChunk_from startThrows queue).
Proof.
  induction queue as [|b rest IH]; intros this H;
    (split; [|apply Forall_anyAction]).
  - rewrite playNextChunk_from_nil. split; [reflexivity | discriminate].
  - destruct (hasAudioContext this) eqn:Hc.
    + destruct (startThrows {| node_id := nodesCreated this; buffer := b |})
        eqn:Hs.
      * rewrite (playNextChunk_from_failed startThrows b rest this Hc Hs).
        rewrite final_after.
        destruct rest as [|b' rest'];
          [split; [reflexivity | discriminate]|].
        apply IH. split; reflexivity.
      * rewrite (playNextChunk_from_started startThrows b rest this Hc Hs).
        split; reflexivity.
    + rewrite (playNextChunk_from_no_context startThrows b rest this Hc).
      exact H.
Qed.

Lemma flagsAgree_playNextChunk :
  Preserves flagsAgree anyAction (playNextChunk startThrows).
Proof.
  unfold playNextChunk. apply Preserves_withThis. intros s _.
  apply flagsAgree_playNextChunk_from.
Qed.

Lemma flagsAgree_stopRecording :
  Preserves flagsAgree anyAction stopRecording.
Proof.
  unfold stopRecording.
  flags_solve ltac:(idtac; apply flagsAgree_sendAudioChunk).
Qed.

Lemma flagsAgree_handler (i : Input) :
  Preserves flagsAgree anyAction (handler startThrows stopThrows i).
Proof.
  destruct i; cbn [handler].
  - unfold handleAudioProcess. cbv zeta.
    flags_solve ltac:(idtac; first [ apply flagsAgree_sendAudioChunk
                                   | apply flagsAgree_stopPlayback ]).
  - unfold setProcessingState. flags_solve fail.
  - unfold setGreetingState. flags_solve fail.
  - unfold setVisionProcessingState. flags_solve fail.
  - unfold startRecording, initAudioContext.
    flags_solve ltac:(idtac; apply flagsAgree_stopRecording).
  - apply flagsAgree_stopRecording.
  - unfold playAudioChunk, initAudioContext.
    flags_solve ltac:(idtac; apply flagsAgree_playNextChunk).
  - unfold onended.
    flags_solve ltac:(idtac; first [ apply flagsAgree_clearPlaybackTimeout
                                   | apply flagsAgree_playNextChunk ]).
  - unfold onPlaybackTimeout.
    flags_solve ltac:(idtac; apply flagsAgree_playNextChunk).
  - apply flagsAgree_stopPlayback.
  - unfold releaseHardware.
    flags_solve ltac:(idtac; first [ apply flagsAgree_clearPlaybackTimeout
                                   | apply flagsAgree_stopRecording
                                   | apply flagsAgree_stopPlayback ]).
  - unfold toggleMicrophoneMute. flags_solve fail.
Qed.

(** X17. In every state the service can reach (from one where the two
    flags agree and the state is not [SPEAKING] without them, as in a new
    service), [isSpeaking] equals [isPlaying], and the state is [SPEAKING]
    only while both are set. So the test
    [isSpeaking || audioState === SPEAKING] that decides on an interrupt
    always has the value of [isPlaying]. *)
Theorem X17_speaking_flag_mirrors_playing_flag
    (inputs : list Input) (this : AudioService) :
  isPlaying this = isSpeaking this ->
  (audioState this = SPEAKING -> isPlaying this = true) ->
  let this' := (run startThrows stopThrows inputs this).1 in
  isSpeaking this' = isPlaying this'
  /\ (audioState this' = SPEAKING -> isPlaying this' = true)
  /\ isSpeaking this' || bool_decide (audioState this' = SPEAKING)
     = isPlaying this'.
Proof.
  intros H1 H2 this'.
  destruct (run_Preserves startThrows stopThrows flagsAgree anyAction
              inputs this) as [[Ha Hb] _].
  - intros i _. apply flagsAgree_handler.
  - split; assumption.
  - fold this' in Ha, Hb. split; [symmetry; exact Ha|]. split; [exact Hb|].
    rewrite <- Ha. case_bool_decide as Hs.
    + rewrite (Hb Hs). reflexivity.
    + apply orb_false_r.
Qed.

End PlaybackFlags.

Section SafetyTimer.

Variable startThrows : AudioBufferSourceNode -> bool.
Variable stopThrows : AudioBufferSourceNode -> bool.

(** Follow the calls of [setTimeout] and [clearTimeout] in a trace.
    [armed] is the timer that has been armed and not cleared since, if
    there is one; it may have fired already, for a timeout callback is an
    input and leaves no mark in the trace. The result is [None] if a timer
    is armed while [armed] is not cleared, or if a timer other than [armed]
    is cleared; otherwise it is the timer armed and not cleared at the
    end. *)
Fixpoint timerAfter (armed : option nat) (trace : list Action)
  : option (option nat) :=
  match trace with
  | [] => Some armed
  | SetTimeout id _ :: rest =>
      match armed with
      | None => timerAfter (Some id) rest
      | Some _ => None
      end
  | ClearTimeout id :: rest =>
      if bool_decide (armed = Some id) then timerAfter None rest else None
  | _ :: rest => timerAfter armed rest
  end.

Lemma timerAfter_app (t1 t2 : list Action) : forall armed,
  timerAfter armed (t1 ++ t2)
  = timerAfter armed t1 ≫= fun armed' => timerAfter armed' t2.
Proof.
  induction t1 as [|a rest IH]; intros armed; [reflexivity|].
  destruct a; cbn [app timerAfter]; try apply IH.
  - destruct armed; [reflexivity | apply IH].
  - case_bool_decide; [apply IH | reflexivity].
Qed.

(** [p] keeps [playbackTimeoutId] in step with the timer calls it makes. *)
Definition Timed (p : Proc) : Prop :=
  forall this,
    timerAfter (playbackTimeoutId this) (actions (p this))
    = Some (playbackTimeoutId (final (p this))).

Lemma Timed_skip : Timed skip.
Proof. intros this. reflexivity. Qed.

Lemma Timed_throw : Timed throw.
Proof. intros this. reflexivity. Qed.

Lemma Timed_act a : timerAfter None [a] = Some None -> Timed (act a).
Proof.
  intros Ha this. rewrite run_act. cbn [final actions].
  destruct a; try reflexivity; cbn in Ha; discriminate.
Qed.

Lemma Timed_dispatchEvent e d : Timed (dispatchEvent e d).
Proof. intros this. reflexivity. Qed.

Lemma Timed_assign f :
  (forall this, playbackTimeoutId (f this) = playbackTimeoutId this) ->
  Timed (assign f).
Proof. intros Hf this. rewrite run_assign. cbn. rewrite Hf. reflexivity. Qed.

Lemma Timed_seq p q : Timed p -> Timed q -> Timed (seq p q).
Proof.
  intros Hp Hq this. rewrite seq_run. specialize (Hp this).
  destruct (thrown (p this)); [exact Hp|].
  rewrite final_after, actions_after, timerAfter_app, Hp. apply Hq.
Qed.

Lemma Timed_tryCatch p h : Timed p -> Timed h -> Timed (tryCatch p h).
Proof.
  intros Hp Hh this. rewrite tryCatch_run. specialize (Hp this).
  destruct (thrown (p this)); [|exact Hp].
  rewrite final_after, actions_after, timerAfter_app, Hp. apply Hh.
Qed.

Lemma Timed_ifThenElse c p q : Timed p -> Timed q -> Timed (ifThenElse c p q).
Proof. intros Hp Hq this. rewrite run_ifThenElse. destruct (c this); auto. Qed.

Lemma Timed_when c p : Timed p -> Timed (when c p).
Proof. intros Hp. apply Timed_ifThenElse; [exact Hp | apply Timed_skip]. Qed.

Lemma Timed_withThis k : (forall s, Timed (k s)) -> Timed (withThis k).
Proof. intros Hk this. rewrite run_withThis. apply Hk. Qed.

Lemma Timed_if (b : bool) p q : Timed p -> Timed q -> Timed (if b then p else q).
Proof. destruct b; auto. Qed.

End SafetyTimer.

Ltac timed_rule :=
  lazymatch goal with
  | |- Timed (seq _ _) => apply Timed_seq
  | |- Timed (tryCatch _ _) => apply Timed_tryCatch
  | |- Timed skip => apply Timed_skip
  | |- Timed throw => apply Timed_throw
  | |- Timed (ifThenElse _ _ _) => apply Timed_ifThenElse
  | |- Timed (when _ _) => apply Timed_when
  | |- Timed (assign _) => apply Timed_assign; intros ?; reflexivity
  | |- Timed (act _) => apply Timed_act; reflexivity
  | |- Timed (dispatchEvent _ _) => apply Timed_dispatchEvent
  | |- Timed (withThis _) => apply Timed_withThis; intros ?; cbv zeta
  | |- Timed (match ?x with _ => _ end) =>
      first [ apply Timed_if | destruct x ]
  end.

Ltac timed tac := repeat first [ tac | timed_rule ].

Section SafetyTimerHandlers.

Variable startThrows : AudioBufferSourceNode -> bool.
Variable stopThrows : AudioBufferSourceNode -> bool.

Lemma timerAfter_clearing (this : AudioService) :
  timerAfter (playbackTimeoutId this) (clearing this) = Some None.
Proof.
  unfold clearing. destruct (playbackTimeoutId this) as [id|]; cbn;
    [rewrite bool_decide_true by reflexivity|]; reflexivity.
Qed.

Lemma Timed_clearPlaybackTimeout : Timed clearPlaybackTimeout.
Proof.
  intros this. rewrite clearPlaybackTimeout_run. apply timerAfter_clearing.
Qed.

Lemma Timed_sendAudioChunk : Timed sendAudioChunk.
Proof.
  intros this. rewrite sendAudioChunk_run.
  case_bool_decide; [reflexivity|].
  destruct (isProcessing this); [reflexivity|].
  destruct (negb (isVoiceDetected this) && _); [reflexivity|].
  destruct (float32ToWav _ _); reflexivity.
Qed.

Lemma Timed_stopPlayback : Timed (stopPlayback stopThrows).
Proof.
  unfold stopPlayback. apply Timed_withThis. intros s.
  destruct (currentSource s) as [source|]; [|apply Timed_skip].
  cbv zeta. unfold nodeStop.
  timed ltac:(idtac; apply Timed_clearPlaybackTimeout).
Qed.

Lemma Timed_playNextChunk_from (queue : list AudioBuffer) :
  Timed (playNextChunk_from startThrows queue).
Proof.
  induction queue as [|b rest IH]; intros this.
  - rewrite playNextChunk_from_nil. cbn [final actions].
    rewrite timerAfter_app, timerAfter_clearing. reflexivity.
  - destruct (hasAudioContext this) eqn:Hc.
    + destruct (startThrows {| node_id := nodesCreated this; buffer := b |})
        eqn:Hs.
      * rewrite (playNextChunk_from_failed startThrows b rest this Hc Hs).
        rewrite final_after, actions_after, !timerAfter_app,
          timerAfter_clearing.
        destruct rest as [|b' rest']; [reflexivity|].
        apply (IH (afterFailedStart b (b' :: rest') this)).
      * rewrite (playNextChunk_from_started startThrows b rest this Hc Hs).
        cbn [final actions].
        rewrite timerAfter_app, timerAfter_clearing.
        destruct (isPlaying this); reflexivity.
    + rewrite (playNextChunk_from_no_context startThrows b rest this Hc).
      apply timerAfter_clearing.
Qed.

Lemma Timed_playNextChunk : Timed (playNextChunk startThrows).
Proof.
  unfold playNextChunk. apply Timed_withThis. intros s.
  apply Timed_playNextChunk_from.
Qed.

Lemma Timed_stopRecording : Timed stopRecording.
Proof. unfold stopRecording. timed ltac:(idtac; apply Timed_sendAudioChunk). Qed.

Lemma Timed_handler (i : Input) : Timed (handler startThrows stopThrows i).
Proof.
  destruct i; cbn [handler].
  - unfold handleAudioProcess. cbv zeta.
    timed ltac:(idtac; first [ apply Timed_sendAudioChunk
                             | apply Timed_stopPlayback ]).
  - unfold setProcessingState. timed fail.
  - unfold setGreetingState. timed fail.
  - unfold setVisionProcessingState. timed fail.
  - unfold startRecording, initAudioContext.
    timed ltac:(idtac; apply Timed_stopRecording).
  - apply Timed_stopRecording.
  - unfold playAudioChunk, initAudioContext.
    timed ltac:(idtac; apply Timed_playNextChunk).
  - unfold onended.
    timed ltac:(idtac; first [ apply Timed_clearPlaybackTimeout
                             | apply Timed_playNextChunk ]).
  - unfold onPlaybackTimeout. timed ltac:(idtac; apply Timed_playNextChunk).
  - apply Timed_stopPlayback.
  - unfold releaseHardware.
    timed ltac:(idtac; first [ apply Timed_clearPlaybackTimeout
                             | apply Timed_stopRecording
                             | apply Timed_stopPlayback ]).
  - unfold toggleMicrophoneMute. timed fail.
Qed.

(** X18. Whatever happens, the service arms a safety timer only when the
    one it armed before has been cleared, it never clears a timer other
    than the one armed last and not cleared since, and [playbackTimeoutId]
    is that timer. That timer may have fired already: the timeout handler
    does not reset the field, and the next [playNextChunk] clears it to no
    effect. Since a timer is armed only after its predecessor was cleared,
    at most one safety timer is pending at any time. *)
Theorem X18_at_most_one_safety_timer
    (inputs : list Input) (this : AudioService) :
  timerAfter (playbackTimeoutId this)
             (run startThrows stopThrows inputs this).2
  = Some (playbackTimeoutId (run startThrows stopThrows inputs this).1).
Proof.
  revert this. induction inputs as [|i rest IH]; intros this;
    [reflexivity|].
  rewrite run_cons. cbv zeta. cbn [fst snd].
  rewrite timerAfter_app, (Timed_handler i this). apply IH.
Qed.

End SafetyTimerHandlers.

(** *** The mute flag *)

Section MuteFlag.

(** [r], had the mute flag been [b] throughout. *)
Definition muted (b : bool) (r : Outcome) : Outcome :=
  Out (set_isMuted b (final r)) (actions r) (thrown r).

(** [p] neither reads nor writes [isMuted]. *)
Definition MuteBlind (p : Proc) : Prop :=
  forall b this, p (set_isMuted b this) = muted b (p this).

Lemma muted_after b pre r : muted b (after pre r) = after pre (muted b r).
Proof. reflexivity. Qed.

Lemma MuteBlind_skip : MuteBlind skip.
Proof. intros b this. reflexivity. Qed.

Lemma MuteBlind_throw : MuteBlind throw.
Proof. intros b this. reflexivity. Qed.

Lemma MuteBlind_act a : MuteBlind (act a).
Proof. intros b this. reflexivity. Qed.

Lemma MuteBlind_dispatchEvent e d : MuteBlind (dispatchEvent e d).
Proof. intros b this. reflexivity. Qed.

Lemma MuteBlind_assign f :
  (forall b this, f (set_isMuted b this) = set_isMuted b (f this)) ->
  MuteBlind (assign f).
Proof. intros Hf b this. rewrite !run_assign, Hf. reflexivity. Qed.

Lemma MuteBlind_seq p q : MuteBlind p -> MuteBlind q -> MuteBlind (seq p q).
Proof.
  intros Hp Hq b this. rewrite !seq_run, Hp.
  cbn [muted thrown final actions].
  destruct (thrown (p this)); [reflexivity|].
  rewrite Hq. reflexivity.
Qed.

Lemma MuteBlind_tryCatch p h :
  MuteBlind p -> MuteBlind h -> MuteBlind (tryCatch p h).
Proof.
  intros Hp Hh b this. rewrite !tryCatch_run, Hp.
  cbn [muted thrown final actions].
  destruct (thrown (p this)); [|reflexivity].
  rewrite Hh. reflexivity.
Qed.

Lemma MuteBlind_ifThenElse c p q :
  (forall b this, c (set_isMuted b this) = c this) ->
  MuteBlind p -> MuteBlind q -> MuteBlind (ifThenElse c p q).
Proof.
  intros Hc Hp Hq b this. rewrite !run_ifThenElse, Hc.
  destruct (c this); auto.
Qed.

Lemma MuteBlind_when c p :
  (forall b this, c (set_isMuted b this) = c this) ->
  MuteBlind p -> MuteBlind (when c p).
Proof.
  intros Hc Hp. apply MuteBlind_ifThenElse;
    [exact Hc | exact Hp | apply MuteBlind_skip].
Qed.

Lemma MuteBlind_withThis k :
  (forall b this, k (set_isMuted b this) = k this) ->
  (forall s, MuteBlind (k s)) -> MuteBlind (withThis k).
Proof.
  intros Hk Hb b this. rewrite !run_withThis, Hk. apply Hb.
Qed.

Lemma MuteBlind_if (c : bool) p q :
  MuteBlind p -> MuteBlind q -> MuteBlind (if c then p else q).
Proof. destruct c; auto. Qed.

End MuteFlag.

Ltac mute_blind_rule :=
  lazymatch goal with
  | |- MuteBlind (seq _ _) => apply MuteBlind_seq
  | |- MuteBlind (tryCatch _ _) => apply MuteBlind_tryCatch
  | |- MuteBlind skip => apply MuteBlind_skip
  | |- MuteBlind throw => apply MuteBlind_throw
  | |- MuteBlind (ifThenElse _ _ _) =>
      apply MuteBlind_ifThenElse; [intros ? ?; reflexivity | |]
  | |- MuteBlind (when _ _) =>
      apply MuteBlind_when; [intros ? ?; reflexivity |]
  | |- MuteBlind (assign _) =>
      apply MuteBlind_assign; intros ? ?; reflexivity
  | |- MuteBlind (act _) => apply MuteBlind_act
  | |- MuteBlind (dispatchEvent _ _) => apply MuteBlind_dispatchEvent
  | |- MuteBlind (withThis _) =>
      apply MuteBlind_withThis; [intros ? ?; reflexivity | intros ?; cbv zeta]
  | |- MuteBlind (match ?x with _ => _ end) =>
      first [ apply MuteBlind_if | destruct x ]
  end.

Ltac mute_blind tac := repeat first [ tac | mute_blind_rule ].

Section MuteFlagHandlers.

Variable startThrows : AudioBufferSourceNode -> bool.
Variable stopThrows : AudioBufferSourceNode -> bool.

Lemma MuteBlind_clearPlaybackTimeout : MuteBlind clearPlaybackTimeout.
Proof. unfold clearPlaybackTimeout. mute_blind fail. Qed.

Lemma MuteBlind_sendAudioChunk : MuteBlind sendAudioChunk.
Proof.
  intros b this. rewrite !sendAudioChunk_run.
  change (audioLengthMs (set_isMuted b this)) with (audioLengthMs this).
  cbn [audioBuffer isProcessing isVoiceDetected minRecordingLength config
       set_isMuted].
  case_bool_decide; [reflexivity|].
  destruct (isProcessing this); [reflexivity|].
  destruct (negb (isVoiceDetected this) && _); [reflexivity|].
  destruct (float32ToWav _ _); reflexivity.
Qed.

Lemma MuteBlind_stopPlayback : MuteBlind (stopPlayback stopThrows).
Proof.
  unfold stopPlayback, nodeStop.
  mute_blind ltac:(idtac; apply MuteBlind_clearPlaybackTimeout).
Qed.

Lemma MuteBlind_playNextChunk_from (queue : list AudioBuffer) :
  MuteBlind (playNextChunk_from startThrows queue).
Proof.
  induction queue as [|b rest IH]; cbn [playNextChunk_from];
    unfold nodeStart, armPlaybackTimeout;
    mute_blind ltac:(idtac; first [ apply MuteBlind_clearPlaybackTimeout
                                  | exact IH ]).
Qed.

Lemma MuteBlind_playNextChunk : MuteBlind (playNextChunk startThrows).
Proof.
  unfold playNextChunk. apply MuteBlind_withThis; [reflexivity|].
  intros s. apply MuteBlind_playNextChunk_from.
Qed.

Lemma MuteBlind_stopRecording : MuteBlind stopRecording.
Proof.
  unfold stopRecording.
  mute_blind ltac:(idtac; apply MuteBlind_sendAudioChunk).
Qed.

(** The inputs handled by code that mentions [isMuted]:
    [toggleMicrophoneMute], and [startRecording], which enables or
    disables the microphone tracks by it. *)
Definition readsMuteFlag (i : Input) : bool :=
  match i with
  | ToggleMicrophoneMute | StartRecording _ _ => true
  | _ => false
  end.

Lemma MuteBlind_handler (i : Input) :
  readsMuteFlag i = false -> MuteBlind (handler startThrows stopThrows i).
Proof.
  destruct i; cbn [handler readsMuteFlag]; intros Hi; try discriminate Hi.
  - unfold handleAudioProcess. cbv zeta.
    mute_blind ltac:(idtac; first [ apply MuteBlind_sendAudioChunk
                                  | apply MuteBlind_stopPlayback ]).
  - unfold setProcessingState. mute_blind fail.
  - unfold setGreetingState. mute_blind fail.
  - unfold setVisionProcessingState. mute_blind fail.
  - apply MuteBlind_stopRecording.
  - unfold playAudioChunk, initAudioContext.
    mute_blind ltac:(idtac; apply MuteBlind_playNextChunk).
  - unfold onended.
    mute_blind ltac:(idtac; first [ apply MuteBlind_clearPlaybackTimeout
                                  | apply MuteBlind_playNextChunk ]).
  - unfold onPlaybackTimeout.
    mute_blind ltac:(idtac; apply MuteBlind_playNextChunk).
  - apply MuteBlind_stopPlayback.
  - unfold releaseHardware.
    mute_blind ltac:(idtac; first [ apply MuteBlind_clearPlaybackTimeout
                                  | apply MuteBlind_stopRecording
                                  | apply MuteBlind_stopPlayback ]).
Qed.

(** X19. The mute flag is never consulted when frames are analysed,
    utterances sent or chunks played: over any sequence of inputs other
    than [toggleMicrophoneMute] and [startRecording], a muted service does
    exactly what an unmuted one does, and keeps its flag. Muting works
    only through the microphone tracks; frames that still arrive are
    treated as ever. *)
Theorem X19_mute_flag_never_consulted
    (inputs : list Input) (b : bool) (this : AudioService) :
  (forall i, i ∈ inputs -> readsMuteFlag i = false) ->
  run startThrows stopThrows inputs (set_isMuted b this)
  = (set_isMuted b (run startThrows stopThrows inputs this).1,
     (run startThrows stopThrows inputs this).2).
Proof.
  revert this. induction inputs as [|i rest IH]; intros this Hall;
    [reflexivity|].
  rewrite !run_cons. cbv zeta.
  rewrite (MuteBlind_handler i (Hall i ltac:(left)) b this).
  cbn [muted final actions].
  rewrite IH by (intros j Hj; apply Hall; right; exact Hj).
  reflexivity.
Qed.


End MuteFlagHandlers.

(** *** The listener registry

    [addEventListener], [removeEventListener] and the private
    [dispatchEvent], over the [eventListeners] map. Above, a dispatch is
    an action of the service; here it is followed into the listeners. *)

Module Registry.

#[global] Instance AudioEvent_countable : Countable AudioEvent.
Proof.
  refine (inj_countable'
            (fun event =>
               match event with
               | RECORDING_START => 0 | RECORDING_STOP => 1
               | RECORDING_DATA => 2 | PLAYBACK_START => 3
               | PLAYBACK_STOP => 4 | PLAYBACK_END => 5
               | AUDIO_ERROR => 6 | AUDIO_STATE_CHANGE => 7
               end%nat)
            (fun n =>
               match n with
               | 0 => RECORDING_START | 1 => RECORDING_STOP
               | 2 => RECORDING_DATA | 3 => PLAYBACK_START
               | 4 => PLAYBACK_STOP | 5 => PLAYBACK_END
               | 6 => AUDIO_ERROR | _ => AUDIO_STATE_CHANGE
               end%nat) _).
  intros []; reflexivity.
Defined.

(** A callback function, known by its identity: [removeEventListener]
    compares callbacks with [!==]. *)
Definition AudioEventListener := nat.

(** [eventListeners: Map<AudioEvent, AudioEventListener[]>] *)
Abbreviation EventListeners := (gmap AudioEvent (list AudioEventListener)).

(** [addEventListener] *)
Definition addEventListener (event : AudioEvent)
    (callback : AudioEventListener) (eventListeners : EventListeners)
  : EventListeners :=
  let eventListeners :=
    if decide (is_Some (eventListeners !! event)) then eventListeners
    else <[event := []]> eventListeners in
  match eventListeners !! event with
  | Some listeners => <[event := listeners ++ [callback]]> eventListeners
  | None => eventListeners
  end.

(** [removeEventListener] *)
Definition removeEventListener (event : AudioEvent)
    (callback : AudioEventListener) (eventListeners : EventListeners)
  : EventListeners :=
  if decide (is_Some (eventListeners !! event)) then
    let listeners := default [] (eventListeners !! event) in
    <[event := filter (fun listener => listener <> callback) listeners]>
      eventListeners
  else eventListeners.

(** What calling listeners comes to: the calls made, in order, and whether
    an exception escaped. *)
Record Calls := {
  called : list (AudioEventListener * EventData);
  escaped : bool
}.

Section Dispatch.

(** Which calls of which listeners end by throwing. *)
Variable throws : AudioEventListener -> EventData -> bool.

(** [listeners.forEach(body)]: an exception that leaves [body] ends the
    loop. *)
Fixpoint forEach (body : AudioEventListener -> Calls)
    (listeners : list AudioEventListener) : Calls :=
  match listeners with
  | [] => {| called := []; escaped := false |}
  | listener :: rest =>
      let r := body listener in
      if escaped r then r
      else
        let r' := forEach body rest in
        {| called := called r ++ called r'; escaped := escaped r' |}
  end.

(** [try { listener(data) } catch (error) { console.error(...) }] *)
Definition guarded (data : EventData) (listener : AudioEventListener)
  : Calls :=
  let r := {| called := [(listener, data)];
              escaped := throws listener data |} in
  if escaped r then {| called := called r; escaped := false |} else r.

(** [dispatchEvent] *)
Definition dispatchEvent (event : AudioEvent) (data : EventData)
    (eventListeners : EventListeners) : Calls :=
  if decide (is_Some (eventListeners !! event)) then
    let listeners := default [] (eventListeners !! event) in
    forEach (guarded data) listeners
  else {| called := []; escaped := false |}.

(** The callbacks registered for [event], in registration order. *)
Definition registered (event : AudioEvent) (eventListeners : EventListeners)
  : list AudioEventListener :=
  default [] (eventListeners !! event).

Lemma forEach_guarded (data : EventData)
    (listeners : list AudioEventListener) :
  forEach (guarded data) listeners
  = {| called := map (fun listener => (listener, data)) listeners;
       escaped := false |}.
Proof.
  induction listeners as [|listener rest IH]; [reflexivity|].
  cbn [forEach map]. rewrite IH. unfold guarded. cbn.
  destruct (throws listener data); reflexivity.
Qed.

Lemma dispatchEvent_calls (event : AudioEvent) (data : EventData)
    (eventListeners : EventListeners) :
  dispatchEvent event data eventListeners
  = {| called := map (fun listener => (listener, data))
                     (registered event eventListeners);
       escaped := false |}.
Proof.
  unfold dispatchEvent, registered.
  destruct (decide (is_Some (eventListeners !! event))) as [Hs|Hn];
    cbv beta iota zeta.
  - apply forEach_guarded.
  - apply eq_None_not_Some in Hn. rewrite Hn. reflexivity.
Qed.

Lemma registered_addEventListener (event other : AudioEvent)
    (callback : AudioEventListener) (eventListeners : EventListeners) :
  registered other (addEventListener event callback eventListeners)
  = if decide (other = event)
    then registered event eventListeners ++ [callback]
    else registered other eventListeners.
Proof.
  unfold registered, addEventListener.
  destruct (decide (is_Some (eventListeners !! event))) as [[l Hl]|Hn];
    cbv beta iota zeta.
  - rewrite Hl. destruct (decide (other = event)) as [->|Hne].
    + rewrite lookup_insert_eq. reflexivity.
    + rewrite lookup_insert_ne by congruence. reflexivity.
  - apply eq_None_not_Some in Hn. rewrite lookup_insert_eq.
    destruct (decide (other = event)) as [->|Hne].
    + rewrite lookup_insert_eq, Hn. reflexivity.
    + rewrite !lookup_insert_ne by congruence. reflexivity.
Qed.

Lemma registered_removeEventListener (event other : AudioEvent)
    (callback : AudioEventListener) (eventListeners : EventListeners) :
  registered other (removeEventListener event callback eventListeners)
  = if decide (other = event)
    then filter (fun listener => listener <> callback)
                (registered event eventListeners)
    else registered other eventListeners.
Proof.
  unfold registered, removeEventListener.
  destruct (decide (is_Some (eventListeners !! event))) as [[l Hl]|Hn];
    cbv beta iota zeta.
  - destruct (decide (other = event)) as [->|Hne].
    + rewrite lookup_insert_eq. reflexivity.
    + rewrite lookup_insert_ne by congruence. reflexivity.
  - apply eq_None_not_Some in Hn.
    destruct (decide (other = event)) as [->|Hne]; [|reflexivity].
    rewrite Hn. reflexivity.
Qed.

Lemma filter_calls (data : EventData) (callback : AudioEventListener)
    (listeners : list AudioEventListener) :
  map (fun listener => (listener, data))
      (filter (fun listener => listener <> callback) listeners)
  = filter (fun call => call.1 <> callback)
           (map (fun listener => (listener, data)) listeners).
Proof.
  induction listeners as [|listener rest IH]; [reflexivity|].
  cbn [map]. destruct (decide (listener = callback)) as [->|Hne].
  - rewrite !filter_cons_False by (cbn; auto). exact IH.
  - rewrite !filter_cons_True by (cbn; auto). cbn [map]. rewrite IH.
    reflexivity.
Qed.

(** X21. A dispatch calls every callback registered for the event, once
    per registration and in registration order, whichever of them throw:
    an exception thrown by a listener is caught and never reaches the
    caller or the listeners after it. [addEventListener] appends, without
    looking for duplicates, and leaves the other events alone. *)
Theorem X21_dispatch_reaches_every_listener_in_order
    (event : AudioEvent) (data : EventData)
    (callback : AudioEventListener) (eventListeners : EventListeners) :
  dispatchEvent event data eventListeners
  = {| called := map (fun listener => (listener, data))
                     (registered event eventListeners);
       escaped := false |}
  /\ called (dispatchEvent event data
               (addEventListener event callback eventListeners))
     = called (dispatchEvent event data eventListeners) ++ [(callback, data)]
  /\ called (dispatchEvent event data
               (addEventListener event callback
                  (addEventListener event callback eventListeners)))
     = called (dispatchEvent event data eventListeners)
       ++ [(callback, data); (callback, data)]
  /\ forall other, other <> event ->
       dispatchEvent other data
         (addEventListener event callback eventListeners)
       = dispatchEvent other data eventListeners.
Proof.
  split; [apply dispatchEvent_calls|].
  rewrite !dispatchEvent_calls. cbn [called].
  rewrite !registered_addEventListener.
  destruct (decide (event = event)) as [_|Hne]; [|destruct Hne; reflexivity].
  rewrite !map_app, <- app_assoc.
  split; [reflexivity|]. split; [reflexivity|].
  intros other Hne. rewrite !dispatchEvent_calls.
  rewrite registered_addEventListener.
  destruct (decide (other = event)); [contradiction | reflexivity].
Qed.

(** X22. [removeEventListener] removes every registration of the
    callback for the event, not just one, keeps the other callbacks in
    order and leaves the other events alone. So a callback added twice
    and removed once is not called any more. *)
Theorem X22_remove_drops_every_registration
    (event : AudioEvent) (data : EventData)
    (callback : AudioEventListener) (eventListeners : EventListeners) :
  let removed := removeEventListener event callback eventListeners in
  called (dispatchEvent event data removed)
  = filter (fun call => call.1 <> callback)
           (called (dispatchEvent event data eventListeners))
  /\ ((callback, data) ∉ called (dispatchEvent event data removed))
  /\ (forall other, other <> event ->
        dispatchEvent other data removed
        = dispatchEvent other data eventListeners)
  /\ called (dispatchEvent event data
               (removeEventListener event callback
                  (addEventListener event callback
                     (addEventListener event callback eventListeners))))
     = called (dispatchEvent event data removed).
Proof.
  cbv zeta. rewrite !dispatchEvent_calls. cbn [called].
  rewrite !registered_removeEventListener, !registered_addEventListener.
  destruct (decide (event = event)) as [_|Hne]; [|destruct Hne; reflexivity].
  rewrite filter_calls.
  split; [reflexivity|]. split; [|split].
  - intros Hin. apply list_elem_of_filter in Hin as [Hne _].
    apply Hne. reflexivity.
  - intros other Hne. rewrite !dispatchEvent_calls.
    rewrite registered_removeEventListener.
    destruct (decide (other = event)); [contradiction | reflexivity].
  - rewrite <- filter_calls, <- app_assoc, filter_app.
    change ([callback] ++ [callback]) with [callback; callback].
    rewrite (filter_cons_False _ callback) by (cbn; auto).
    rewrite (filter_cons_False _ callback) by (cbn; auto).
    rewrite filter_nil, app_nil_r. reflexivity.
Qed.

End Dispatch.

End Registry.

(** *** Failing chunks, late callbacks, and the frame report *)

Section EdgeCases.

Variable startThrows : AudioBufferSourceNode -> bool.
Variable stopThrows : AudioBufferSourceNode -> bool.

(** X26. What [playAudioChunk] does with a chunk it cannot play. Without
    an audio context it dispatches [AUDIO_ERROR] twice (once in
    [initAudioContext], once in its own handler) and drops the chunk. When
    decoding fails it dispatches [AUDIO_ERROR] once and, if nothing is
    queued, also resets the playing and speaking flags, makes the state
    [INACTIVE] and dispatches [PLAYBACK_END] flagged as an error, whether
    or not a buffer is playing at that moment. In neither case is anything
    queued or started, and no exception leaves the method. *)
Theorem X26_unplayable_chunk
    (decoded : option AudioBuffer) (this : AudioService) :
  playAudioChunk startThrows false decoded this
  = Out (set_hasAudioContext false this)
        [Dispatch AUDIO_ERROR ErrorData; Dispatch AUDIO_ERROR ErrorData]
        false
  /\ playAudioChunk startThrows true None this
     = if bool_decide (length (audioQueue this) = 0%nat)
       then Out (set_audioState INACTIVE
                   (set_isSpeaking false
                      (set_isPlaying false (set_hasAudioContext true this))))
                [Dispatch AUDIO_ERROR ErrorData;
                 Dispatch PLAYBACK_END (PlaybackEnded SPEAKING true false)]
                false
       else Out (set_hasAudioContext true this)
                [Dispatch AUDIO_ERROR ErrorData] false.
Proof.
  split.
  - unfold playAudioChunk, initAudioContext.
    rewrite tryCatch_run. repeat proc_step.
    rewrite run_throw. cbn [thrown final actions].
    repeat proc_step. reflexivity.
  - unfold playAudioChunk, initAudioContext.
    rewrite tryCatch_run. repeat proc_step.
    cbn [hasAudioContext set_hasAudioContext negb].
    rewrite tryCatch_run, run_throw. cbn [thrown final actions].
    repeat proc_step. cbn [audioQueue set_hasAudioContext].
    case_bool_decide; repeat proc_step; reflexivity.
Qed.

(** X27. The [onended] handler does not look at which node ended. Let one
    buffer be queued while another plays, let the safety timeout fire (the
    queued buffer starts; the old node is not stopped), and let the old
    node's [onended] arrive after that: the handler finds the queue empty
    and declares the playback over, flags down and [PLAYBACK_END]
    dispatched, although the buffer just started is still to play; when
    that buffer ends, [PLAYBACK_END] is dispatched a second time. *)
Theorem X27_late_onended_ends_playback_twice
    (this : AudioService) (b : AudioBuffer) :
  (forall node, startThrows node = false) ->
  audioQueue this = [b] ->
  hasAudioContext this = true ->
  isPlaying this = true ->
  let early := run startThrows stopThrows [PlaybackTimeout; Ended] this in
  let whole :=
    run startThrows stopThrows [PlaybackTimeout; Ended; Ended] this in
  started early.2 = [b]
  /\ isPlaying early.1 = false
  /\ audioState early.1 = INACTIVE
  /\ dispatched PLAYBACK_END early.2 = [PlaybackEnded SPEAKING false false]
  /\ (forall node, NodeStop node ∉ whole.2)
  /\ started whole.2 = [b]
  /\ dispatched PLAYBACK_START whole.2 = []
  /\ dispatched PLAYBACK_END whole.2
     = [PlaybackEnded SPEAKING false false;
        PlaybackEnded SPEAKING false false].
Proof.
  intros Hok Hq Hc Hp early whole. subst early whole.
  rewrite !run_cons. cbv zeta. cbn [handler run fst snd].
  rewrite (onPlaybackTimeout_run_next startThrows this b [] Hq).
  rewrite (playNextChunk_starts startThrows (set_currentSource None this)
             b [] Hq Hc (Hok _)).
  cbn [final actions isPlaying set_currentSource]. rewrite Hp.
  match goal with
  | |- context [onended _ ?s] =>
      rewrite (onended_run_last startThrows s eq_refl)
  end.
  cbn [final actions].
  match goal with
  | |- context [onended _ ?s] =>
      rewrite (onended_run_last startThrows s eq_refl)
  end.
  cbn [final actions].
  unfold clearing.
  cbn [playbackTimeoutId set_currentSource set_audioState set_isSpeaking
       set_isPlaying set_playbackTimeoutId].
  destruct (playbackTimeoutId this) as [id|];
    cbn; (repeat split; try reflexivity);
    intros node Hin;
    repeat (apply elem_of_cons in Hin as [Hin|Hin]; [discriminate Hin|]);
    apply elem_of_nil in Hin; exact Hin.
Qed.

Lemma sendAudioChunk_report (this : AudioService) :
  isVoiceDetected (final (sendAudioChunk this)) = isVoiceDetected this
  /\ dispatched RECORDING_DATA (actions (sendAudioChunk this)) = [].
Proof.
  rewrite sendAudioChunk_run.
  case_bool_decide; [split; reflexivity|].
  destruct (isProcessing this); [split; reflexivity|].
  destruct (negb (isVoiceDetected this) && _); [split; reflexivity|].
  destruct (float32ToWav _ _); split; reflexivity.
Qed.

(** X28. Every frame is reported exactly once: whatever the state and the
    frame, [handleAudioProcess] dispatches one [RECORDING_DATA] event, with
    the frame, its energy, and as [isVoice] the voice flag as the call
    leaves it, forced to false in the protected states. *)
Theorem X28_every_frame_reported_once
    (this : AudioService) (inputData : Float32Array) (now : Z) :
  let r := handleAudioProcess stopThrows inputData now this in
  dispatched RECORDING_DATA (actions r)
  = [RecordingData inputData (calculateRMSEnergy inputData)
       (negb (protectedState this) && isVoiceDetected (final r))].
Proof.
  cbv zeta. destruct (protectedState this) eqn:Hp.
  { rewrite (handleAudioProcess_protected stopThrows this inputData now Hp).
    reflexivity. }
  cbn [negb andb].
  destruct (voiceThreshold this <? calculateRMSEnergy inputData)%float
    eqn:Hloud.
  { destruct (handleAudioProcess_loud stopThrows this inputData now Hp Hloud)
      as (Hv & _ & _ & _ & Hd & _).
    rewrite Hd, Hv. reflexivity. }
  destruct ((calculateRMSEnergy inputData <=? voiceThreshold this)%float
            && (silenceTimeout this <? now - lastVoiceTime this)) eqn:Ht.
  - destruct (isVoiceDetected this) eqn:Hv.
    + apply andb_prop in Ht as [He Ht]. apply Z.ltb_lt in Ht.
      rewrite (handleAudioProcess_silence_timeout stopThrows this inputData
                 now Hp Hv He Ht).
      rewrite (seq_normal sendAudioChunk) by apply NeverThrows_sendAudioChunk.
      rewrite actions_after, final_after, dispatched_app.
      set (s := set_isVoiceDetected false _).
      destruct (sendAudioChunk_report s) as [H1 H2].
      rewrite H2, run_withThis, run_dispatchEvent. cbn [final actions].
      reflexivity.
    + unfold handleAudioProcess. cbv zeta.
      rewrite run_ifThenElse, Hloud, run_ifThenElse, Hp.
      repeat proc_step. rewrite ?Hv. repeat proc_step.
      cbn [final actions]. rewrite ?Hv. reflexivity.
  - rewrite (handleAudioProcess_quiet_run stopThrows this inputData now
               Hp Hloud Ht).
    cbn [final actions]. destruct (isVoiceDetected this) eqn:Hv;
      cbn; rewrite ?Hv; reflexivity.
Qed.

End EdgeCases.

(** *** What a call of [playNextChunk] achieves *)

Section Progress.

Variable startThrows : AudioBufferSourceNode -> bool.
Variable stopThrows : AudioBufferSourceNode -> bool.

(** [playNextChunk] has started [b], after [failures] buffers failed to
    start, and left [rest] queued. *)
Definition startedOne (this : AudioService) (r : Outcome)
    (failures : nat) (b : AudioBuffer) (rest : list AudioBuffer) : Prop :=
  started (actions r) = [b]
  /\ audioQueue (final r) = rest
  /\ isPlaying (final r) = true
  /\ isSpeaking (final r) = true
  /\ audioState (final r) = SPEAKING
  /\ playbackTimeoutId (final r) = Some (timersCreated this)
  /\ SetTimeout (timersCreated this) (duration b * 1000 + 1000)
     ∈ actions r
  /\ (exists node, currentSource (final r) = Some node /\ buffer node = b)
  /\ dispatched PLAYBACK_END (actions r) = []
  /\ length (dispatched AUDIO_ERROR (actions r)) = failures.

(** [playNextChunk] has ended the playback, after [failures] buffers
    failed to start. *)
Definition endedPlayback (r : Outcome) (failures : nat) : Prop :=
  started (actions r) = []
  /\ isPlaying (final r) = false
  /\ isSpeaking (final r) = false
  /\ audioState (final r) = INACTIVE
  /\ playbackTimeoutId (final r) = None
  /\ dispatched PLAYBACK_END (actions r)
     = [PlaybackEnded SPEAKING (negb (bool_decide (failures = 0%nat))) false]
  /\ length (dispatched AUDIO_ERROR (actions r)) = failures.

Lemma playNextChunk_from_outcome (queue : list AudioBuffer) :
  forall this, hasAudioContext this = true ->
    let r := playNextChunk_from startThrows queue this in
    (exists skipped b rest,
       queue = skipped ++ b :: rest
       /\ startedOne this r (length skipped) b rest)
    \/ (endedPlayback r (length queue)
        /\ audioQueue (final r)
           = match queue with [] => audioQueue this | _ :: _ => [] end).
Proof.
  induction queue as [|b rest IH]; intros this Hc r; subst r.
  - right. rewrite playNextChunk_from_nil. unfold endedPlayback.
    cbn [final actions length].
    rewrite started_app, !dispatched_app, started_clearing,
      !dispatched_clearing.
    repeat split; reflexivity.
  - destruct (startThrows {| node_id := nodesCreated this; buffer := b |})
      eqn:Hs.
    + rewrite (playNextChunk_from_failed startThrows b rest this Hc Hs).
      destruct rest as [|b' rest'].
      * right. unfold endedPlayback.
        rewrite final_after, actions_after.
        cbn [final actions length].
        rewrite !started_app, !dispatched_app, started_clearing,
          !dispatched_clearing.
        repeat split; reflexivity.
      * destruct (IH (afterFailedStart b (b' :: rest') this) Hc)
          as [(skipped & b0 & rest0 & Hq & H) | [H Hfinal]].
        -- left. exists (b :: skipped), b0, rest0.
           split; [cbn [app]; rewrite Hq; reflexivity|].
           destruct H as (H1 & H2 & H3 & H4 & H5 & H6 & H7 & H8 & H9 & H10).
           unfold startedOne.
           rewrite final_after, actions_after.
           rewrite !started_app, !dispatched_app, started_clearing,
             !dispatched_clearing, H1, H9, !length_app, H10.
           repeat split; try assumption; try reflexivity.
           apply elem_of_app. right. exact H7.
        -- right. destruct H as (H1 & H2 & H3 & H4 & H5 & H6 & H7).
           unfold endedPlayback.
           rewrite final_after, actions_after.
           rewrite !started_app, !dispatched_app, started_clearing,
             !dispatched_clearing, H1, H6, !length_app, H7.
           repeat split; try assumption; reflexivity.
    + left. exists [], b, rest. split; [reflexivity|].
      rewrite (playNextChunk_from_started startThrows b rest this Hc Hs).
      unfold startedOne. cbn [final actions length].
      rewrite !started_app, !dispatched_app, started_clearing,
        !dispatched_clearing.
      destruct (isPlaying this); cbn; repeat split; try reflexivity;
        try (eexists; split; reflexivity);
        apply elem_of_app; right; right; left.
Qed.

(** X29. With an audio context, a call of [playNextChunk] either starts
    exactly one buffer, the first of the queue on which [start()] does not
    raise, or ends the playback. In the first case the buffers before it
    are dropped with one [AUDIO_ERROR] each, those after it stay queued,
    the service is playing in the [SPEAKING] state with that buffer's node
    as current source, and a safety timer of [duration * 1000 + 1000] ms is
    armed: the service is never left playing without a timer. In the
    second case nothing is started, the queue is empty, the service is
    [INACTIVE] with no timer, and exactly one [PLAYBACK_END] is dispatched,
    flagged as an error unless the queue was empty already. *)
Theorem X29_playNextChunk_starts_one_or_ends
    (this : AudioService) :
  hasAudioContext this = true ->
  let r := playNextChunk startThrows this in
  (exists skipped b rest,
     audioQueue this = skipped ++ b :: rest
     /\ started (actions r) = [b]
     /\ audioQueue (final r) = rest
     /\ isPlaying (final r) = true
     /\ audioState (final r) = SPEAKING
     /\ playbackTimeoutId (final r) = Some (timersCreated this)
     /\ SetTimeout (timersCreated this) (duration b * 1000 + 1000)
        ∈ actions r
     /\ (exists node, currentSource (final r) = Some node /\ buffer node = b)
     /\ dispatched PLAYBACK_END (actions r) = []
     /\ length (dispatched AUDIO_ERROR (actions r)) = length skipped)
  \/ (started (actions r) = []
      /\ audioQueue (final r) = []
      /\ isPlaying (final r) = false
      /\ audioState (final r) = INACTIVE
      /\ playbackTimeoutId (final r) = None
      /\ dispatched PLAYBACK_END (actions r)
         = [PlaybackEnded SPEAKING
              (negb (bool_decide (audioQueue this = []))) false]
      /\ length (dispatched AUDIO_ERROR (actions r))
         = length (audioQueue this)).
Proof.
  intros Hc r. subst r. unfold playNextChunk. rewrite run_withThis.
  destruct (playNextChunk_from_outcome (audioQueue this) this Hc)
    as [(skipped & b & rest & Hq & H) | [H Hfinal]].
  - left. exists skipped, b, rest. split; [exact Hq|].
    destruct H as (H1 & H2 & H3 & _ & H5 & H6 & H7 & H8 & H9 & H10).
    repeat split; assumption.
  - right. destruct H as (H1 & H2 & _ & H4 & H5 & H6 & H7).
    split; [exact H1|]. split.
    { rewrite Hfinal. destruct (audioQueue this); reflexivity. }
    split; [exact H2|]. split; [exact H4|]. split; [exact H5|].
    split; [|exact H7].
    rewrite H6. destruct (audioQueue this); reflexivity.
Qed.

(** Chunks that arrive while the service takes itself to be playing are
    only queued. *)
Lemma arrivals_while_playing (later : list AudioBuffer) :
  forall this, isPlaying this = true ->
    run startThrows stopThrows
        (map (fun c => PlayAudioChunk true (Some c)) later) this
    = (set_audioQueue (audioQueue this ++ later)
         (match later with
          | [] => this
          | _ :: _ => set_hasAudioContext true this
          end), []).
Proof.
  induction later as [|c rest IH]; intros this Hp.
  - cbn [map run]. rewrite app_nil_r. destruct this; reflexivity.
  - cbn [map]. rewrite run_cons. cbv zeta. cbn [handler].
    rewrite (playAudioChunk_while_playing startThrows this c Hp).
    cbn [final actions]. rewrite IH by exact Hp.
    cbn [fst snd app audioQueue set_audioQueue set_hasAudioContext].
    rewrite <- app_assoc. destruct rest; reflexivity.
Qed.

(** X30. The queue stalls if the audio context is lost during playback.
    Let a buffer be queued while another plays, let a chunk arrive for
    which no audio context can be obtained, and let the playing buffer end:
    [playNextChunk] returns without starting anything and without
    resetting the flags. From then on the service takes itself to be
    playing although no node plays and no timer is armed, so the chunks
    that keep arriving are queued and never played, and no [PLAYBACK_END]
    is dispatched. *)
Theorem X30_queue_stalls_after_context_loss
    (this : AudioService) (b : AudioBuffer) (rest later : list AudioBuffer)
    (decoded : option AudioBuffer) :
  audioQueue this = b :: rest ->
  isPlaying this = true ->
  let d :=
    run startThrows stopThrows
        ([PlayAudioChunk false decoded; Ended]
         ++ map (fun c => PlayAudioChunk true (Some c)) later) this in
  started d.2 = []
  /\ dispatched PLAYBACK_END d.2 = []
  /\ isPlaying d.1 = true
  /\ playbackTimeoutId d.1 = None
  /\ audioQueue d.1 = b :: rest ++ later.
Proof.
  intros Hq Hp d. subst d. cbn [app].
  rewrite run_cons. cbv zeta. cbn [handler].
  assert (E1 : playAudioChunk startThrows false decoded this
               = Out (set_hasAudioContext false this)
                     [Dispatch AUDIO_ERROR ErrorData;
                      Dispatch AUDIO_ERROR ErrorData] false).
  { unfold playAudioChunk, initAudioContext.
    rewrite tryCatch_run. repeat proc_step.
    rewrite run_throw. cbn [thrown final actions].
    repeat proc_step. reflexivity. }
  rewrite E1. cbn [final actions fst snd].
  set (s1 := set_hasAudioContext false this).
  rewrite run_cons. cbv zeta. cbn [handler].
  assert (E2 : onended startThrows s1
               = Out (set_playbackTimeoutId None s1) (clearing s1) false).
  { unfold onended.
    rewrite seq_run, clearPlaybackTimeout_run. cbn [thrown final actions].
    rewrite run_ifThenElse. unfold queueNonEmpty.
    cbn [audioQueue set_playbackTimeoutId]. subst s1.
    cbn [audioQueue set_hasAudioContext]. rewrite Hq.
    cbn [length bool_decide]. rewrite bool_decide_true by (cbn; lia).
    unfold playNextChunk. rewrite run_withThis.
    cbn [audioQueue set_playbackTimeoutId set_hasAudioContext]. rewrite Hq.
    rewrite playNextChunk_from_no_context by reflexivity.
    rewrite after_Out. cbn [clearing playbackTimeoutId set_playbackTimeoutId].
    rewrite app_nil_r. destruct this; reflexivity. }
  rewrite E2. cbn [final actions fst snd].
  rewrite arrivals_while_playing by exact Hp.
  cbn [fst snd]. rewrite !app_nil_r.
  rewrite !started_app, !dispatched_app, started_clearing,
    dispatched_clearing.
  cbn [audioQueue set_audioQueue set_playbackTimeoutId set_hasAudioContext
       isPlaying playbackTimeoutId].
  subst s1.
  cbn [audioQueue set_audioQueue set_playbackTimeoutId set_hasAudioContext].
  rewrite Hq.
  destruct later; repeat split; first [ reflexivity | exact Hp ].
Qed.

End Progress.

(** *** A batch of buffers played to its end *)





Section Undisturbed.

Variable I : AudioService -> Prop.














End Undisturbed.



Section Batch.

Variable startThrows : AudioBufferSourceNode -> bool.
Variable stopThrows : AudioBufferSourceNode -> bool.


















End Batch.

(** ** Concrete scenarios *)

Definition neverThrows : AudioBufferSourceNode -> bool := fun _ => false.

Definition loudFrame : Float32Array := [0.5; -0.5; 0.25; 0]%float.
Definition quietFrame : Float32Array := [0.001; -0.001; 0; 0]%float.

Definition greeting : AudioService :=
  set_isGreeting true (new_AudioService DEFAULT_CONFIG).

Lemma C3_witness :
  (isProcessing greeting = true \/ isVisionProcessing greeting = true
     \/ isGreeting greeting = true)
  /\ actions (handleAudioProcess neverThrows loudFrame 100 greeting) =
       [Dispatch RECORDING_DATA
          (RecordingData loudFrame (calculateRMSEnergy loudFrame) false)].
Proof.
  split.
  - right. right. reflexivity.
  - apply (C3_protected_state_only_visualizes neverThrows greeting loudFrame 100).
    right. right. reflexivity.
Defined.

(** A service recording at 8 samples per second, so that a four-sample
    frame lasts half a second; voice was last heard at time 100 and two
    frames are already buffered. *)
Definition slowConfig : AudioConfig :=
  {| sampleRate := 8; channelCount := 1; echoCancellation := true;
     noiseSuppression := true; autoGainControl := true; bufferSize := 4 |}.

Definition listening : AudioService :=
  set_lastVoiceTime 100
    (set_isVoiceDetected true
       (set_audioBuffer [loudFrame; quietFrame]
          (new_AudioService slowConfig))).

Lemma C7_witness :
  let samples := concat [loudFrame; quietFrame; quietFrame] in
  let r := handleAudioProcess neverThrows quietFrame 1101 listening in
  exists wav,
    utterances (actions r) = [wav]
    /\ float32ToWav samples 8 = Some wav
    /\ byteLength wav = 44 + 2 * Z.of_nat (length samples)
    /\ (forall (j : nat) x, samples !! j = Some x ->
          getInt16 wav (44 + 2 * Z.of_nat j) = ToInt16 (scaleSample x))
    /\ audioBuffer (final r) = []
    /\ isVoiceDetected (final r) = false
    /\ thrown r = false.
Proof.
  apply (C7_finalized_segment_sent_once_in_order neverThrows listening
           quietFrame 1101); vm_compute; reflexivity.
Defined.

(** The same service when the silence timeout has just cleared the flag
    with a single buffered frame: half a second of audio. *)
Definition tooShort : AudioService :=
  set_isVoiceDetected false
    (set_audioBuffer [loudFrame] (new_AudioService slowConfig)).

Lemma C8_witness :
  actions (sendAudioChunk tooShort) = []
  /\ audioBuffer (final (sendAudioChunk tooShort)) = [].
Proof.
  pose proof (C8_short_segment_discarded neverThrows tooShort
                eq_refl eq_refl) as H.
  cbv zeta in H. split; apply H.
Defined.

(** Two chunks of a reply have arrived: the first is playing, the second
    is queued. *)
Definition chunk1 : AudioBuffer := {| duration := 1.5; channelData := [] |}.
Definition chunk2 : AudioBuffer := {| duration := 0.5; channelData := [] |}.
Definition chunk3 : AudioBuffer := {| duration := 2; channelData := [] |}.

Definition speaking : AudioService :=
  (run neverThrows neverThrows
       [PlayAudioChunk true (Some chunk1); PlayAudioChunk true (Some chunk2)]
       (new_AudioService DEFAULT_CONFIG)).1.

Definition node0 : AudioBufferSourceNode :=
  {| node_id := 0; buffer := chunk1 |}.


(** The audio context is lost while chunk 1 plays and chunk 2 is queued: a
    third chunk arrives for which [initAudioContext] fails. *)
Definition contextLost : AudioService :=
  (run neverThrows neverThrows [PlayAudioChunk false None] speaking).1.



Lemma C2_witness :
  audioQueue (final (stopPlayback neverThrows speaking)) = []
  /\ dispatched PLAYBACK_STOP (actions (stopPlayback neverThrows speaking))
     = [PlaybackStopped true SPEAKING].
Proof.
  pose proof (C2_interrupt_stops_and_clears neverThrows neverThrows
                speaking node0 eq_refl eq_refl eq_refl) as H.
  cbv zeta in H. split; apply H.
Defined.

Definition quietSession : list Input :=
  [StartRecording true true; Frame quietFrame 10; Frame quietFrame 20;
   StopRecording].

Lemma C6_witness :
  utterances
    (run neverThrows neverThrows quietSession
         (new_AudioService DEFAULT_CONFIG)).2 = [].
Proof.
  apply (C6_no_voice_no_utterance neverThrows neverThrows
           (new_AudioService DEFAULT_CONFIG) quietSession eq_refl eq_refl).
  intros inputData now H.
  unfold quietSession in H.
  repeat (apply elem_of_cons in H as [H|H];
          [ first [ discriminate H
                  | injection H as -> ->; reflexivity ] | ]).
  apply elem_of_nil in H. destruct H.
Defined.

Lemma neverThrows_ok : forall node, neverThrows node = false.
Proof. reflexivity. Defined.




Definition twoQueued : AudioService :=
  set_audioQueue [chunk1; chunk2]
    (set_hasAudioContext true (new_AudioService DEFAULT_CONFIG)).

(** C5. The safety timeout does not always bring the controller to rest.
    Chunk 1 plays under its safety timer, chunk 2 is queued, and the audio
    context has been lost. The [onended] callback does not come and the
    timer fires: its handler forgets the source and calls [playNextChunk],
    which clears [playbackTimeoutId] and returns because there is no audio
    context. Chunk 2 is not started, the playing and speaking flags are not
    reset, no [PLAYBACK_END] is dispatched and no timer is armed. From then
    on every chunk that arrives is only queued: the controller hangs. *)
Theorem C5_timeout_stalls_without_audio_context :
  let t := onPlaybackTimeout neverThrows contextLost in
  (currentSource contextLost = Some node0
   /\ playbackTimeoutId contextLost = Some 0%nat
   /\ audioQueue contextLost = [chunk2]
   /\ hasAudioContext contextLost = false)
  /\ actions t = [ClearTimeout 0]
  /\ thrown t = false
  /\ audioQueue (final t) = [chunk2]
  /\ isPlaying (final t) = true
  /\ isSpeaking (final t) = true
  /\ audioState (final t) = SPEAKING
  /\ currentSource (final t) = None
  /\ playbackTimeoutId (final t) = None
  /\ forall later : list AudioBuffer,
       let d :=
         run neverThrows neverThrows
             (map (fun c => PlayAudioChunk true (Some c)) later) (final t) in
       d.2 = [] /\ isPlaying d.1 = true /\ audioQueue d.1 = chunk2 :: later.
Proof.
  cbv zeta. split; [vm_compute; repeat split; reflexivity|].
  do 8 (split; [vm_compute; reflexivity|]).
  intros later.
  rewrite (arrivals_while_playing neverThrows neverThrows later)
    by (vm_compute; reflexivity).
  cbn [fst snd]. split; [reflexivity|]. split.
  - destruct later; vm_compute; reflexivity.
  - destruct later; reflexivity.
Qed.

(** *** Scenarios for the further properties *)

(** A recording service with a segment in progress. *)
Definition recordingNow : AudioService := set_audioState RECORDING listening.

Lemma X3_witness :
  isPlaying recordingNow = false
  /\ audioState
       (final (playAudioChunk neverThrows true (Some chunk1) recordingNow))
     = SPEAKING
  /\ audioBuffer
       (final (playAudioChunk neverThrows true (Some chunk1) recordingNow))
     = [loudFrame; quietFrame].
Proof.
  pose proof (X3_stopRecording_ignored_once_playback_started
                neverThrows recordingNow chunk1 neverThrows_ok eq_refl) as H.
  cbv zeta in H. destruct H as (H1 & H2 & _).
  split; [reflexivity|]. split; [exact H1 | exact H2].
Defined.




Lemma X11_witness :
  let r := handleAudioProcess neverThrows loudFrame 1101 listening in
  protectedState listening = false
  /\ (voiceThreshold listening <? calculateRMSEnergy loudFrame)%float = true
  /\ lastVoiceTime (final r) = 1101
  /\ audioBuffer (final r) = [loudFrame; quietFrame; loudFrame]
  /\ utterances (actions r) = [].
Proof.
  pose proof (X11_voiced_frame_extends_the_segment
                neverThrows listening loudFrame 1101 eq_refl eq_refl) as H.
  cbv zeta in H. destruct H as (_ & H1 & H2 & H3 & _).
  cbv zeta. split; [reflexivity|]. split; [reflexivity|].
  split; [exact H1|]. split; [exact H2 | exact H3].
Defined.

Lemma X12_witness :
  let r := handleAudioProcess neverThrows quietFrame 150 listening in
  (voiceThreshold listening <? calculateRMSEnergy quietFrame)%float = false
  /\ (silenceTimeout listening <? 150 - lastVoiceTime listening) = false
  /\ final r
     = set_audioBuffer [loudFrame; quietFrame; quietFrame] listening
  /\ thrown r = false.
Proof.
  pose proof (X12_quiet_frame_is_buffered_only_during_a_segment
                neverThrows listening quietFrame 150
                eq_refl eq_refl eq_refl) as H.
  cbv zeta in H. destruct H as (H1 & _ & H2 & _).
  cbv zeta. split; [reflexivity|]. split; [reflexivity|].
  split; [exact H1 | exact H2].
Defined.

Lemma X13_witness :
  let r := handleAudioProcess neverThrows [] 999999 listening in
  is_nan (calculateRMSEnergy []) = true
  /\ final r = set_audioBuffer [loudFrame; quietFrame; []] listening
  /\ thrown r = false.
Proof.
  pose proof (X13_frame_without_energy_neither_voice_nor_silence
                neverThrows listening [] 999999
                (or_introl eq_refl) eq_refl) as H.
  cbv zeta in H. destruct H as (H1 & H2 & _ & H3).
  cbv zeta. split; [exact H1|]. split; [exact H2 | exact H3].
Defined.

Lemma X16_witness :
  exists wav,
    float32ToWav [0.5; 3; -3]%float 8 = Some wav
    /\ getInt16 wav (44 + 2 * Z.of_nat 1) = 32767.
Proof.
  destruct (X16_samples_saturate [0.5; 3; -3]%float 8 1 3%float eq_refl)
    as (wav & E & H & _).
  exists wav. split; [exact E|]. apply H. reflexivity.
Defined.

Lemma X17_witness :
  let this' :=
    (run neverThrows neverThrows
         [Frame loudFrame 5; Ended; PlayAudioChunk true (Some chunk3)]
         speaking).1 in
  isPlaying speaking = isSpeaking speaking
  /\ isSpeaking this' = isPlaying this'.
Proof.
  pose proof (X17_speaking_flag_mirrors_playing_flag
                neverThrows neverThrows
                [Frame loudFrame 5; Ended; PlayAudioChunk true (Some chunk3)]
                speaking eq_refl (fun _ => eq_refl)) as H.
  cbv zeta in H. destruct H as (H & _).
  cbv zeta. split; [reflexivity | exact H].
Defined.

(** Frames that arrive while the service is muted. *)
Definition mutedSession : list Input :=
  [Frame loudFrame 150; Frame quietFrame 1200; StopRecording].

Lemma X19_witness :
  (forall i, i ∈ mutedSession -> readsMuteFlag i = false)
  /\ run neverThrows neverThrows mutedSession (set_isMuted true recordingNow)
     = (set_isMuted true
          (run neverThrows neverThrows mutedSession recordingNow).1,
        (run neverThrows neverThrows mutedSession recordingNow).2).
Proof.
  assert (H : forall i, i ∈ mutedSession -> readsMuteFlag i = false).
  { intros i Hi. unfold mutedSession in Hi.
    repeat (apply elem_of_cons in Hi as [->|Hi]; [reflexivity|]).
    apply elem_of_nil in Hi. destruct Hi. }
  split; [exact H|].
  apply (X19_mute_flag_never_consulted neverThrows neverThrows
           mutedSession true recordingNow H).
Defined.

Lemma X27_witness :
  audioQueue speaking = [chunk2]
  /\ dispatched PLAYBACK_END
       (run neverThrows neverThrows [PlaybackTimeout; Ended; Ended]
            speaking).2
     = [PlaybackEnded SPEAKING false false;
        PlaybackEnded SPEAKING false false].
Proof.
  pose proof (X27_late_onended_ends_playback_twice
                neverThrows neverThrows speaking chunk2 neverThrows_ok
                eq_refl eq_refl eq_refl) as H.
  cbv zeta in H. destruct H as (_ & _ & _ & _ & _ & _ & _ & H).
  split; [reflexivity | exact H].
Defined.

Lemma X29_witness :
  hasAudioContext twoQueued = true
  /\ (length (started (actions (playNextChunk neverThrows twoQueued))) <= 1)%nat.
Proof.
  split; [reflexivity|].
  destruct (X29_playNextChunk_starts_one_or_ends neverThrows twoQueued
              eq_refl)
    as [(skipped & b & rest & _ & H & _) | (H & _)];
    rewrite H; cbn; lia.
Defined.

Lemma X30_witness :
  let d :=
    run neverThrows neverThrows
        [PlayAudioChunk false None; Ended; PlayAudioChunk true (Some chunk3)]
        speaking in
  isPlaying speaking = true
  /\ started d.2 = []
  /\ isPlaying d.1 = true
  /\ audioQueue d.1 = [chunk2; chunk3].
Proof.
  pose proof (X30_queue_stalls_after_context_loss
                neverThrows neverThrows speaking chunk2 [] [chunk3] None
                eq_refl eq_refl) as H.
  cbv zeta in H. destruct H as (H1 & _ & H3 & _ & H5).
  cbv zeta. split; [reflexivity|]. split; [exact H1|].
  split; [exact H3 | exact H5].
Defined.

End Audio.

(** ** The session manager: throttled refresh of the sessions list

    The websocket listeners that the [SessionManager] component registers
    in its mount effect, over the state they touch: the component's state
    variables and its two refs. ([Session] records are opaque to these
    handlers; only their [id] matters to the view.) *)

Module SessionManager.

Record Session := {
  id : string;
  title : string;
  created_at : string;
  updated_at : string
}.

Record State := {
  sessions : list Session;
  loading : bool;
  error : option string;
  currentSessionId : option string;
  lastRefreshAt : Z;                     (* lastRefreshAt.current *)
  currentSessionIdRef : option string    (* currentSessionIdRef.current *)
}.

(** The state of a freshly rendered component. *)
Definition initial : State :=
  {| sessions := []; loading := false; error := None;
     currentSessionId := None; lastRefreshAt := 0;
     currentSessionIdRef := None |}.

(** Calls of the websocket service. *)
Inductive Request :=
  | ListSessions
  | LoadSession (sessionId : string)
  | DeleteSession (sessionId : string).

(** The payload of a [save_session_result] message: [session_id] may be
    missing. *)
Record SaveResult := {
  success : bool;
  session_id : option string
}.

(** JavaScript truthiness of an optional string: present and non-empty. *)
Definition truthy (s : option string) : bool :=
  match s with
  | Some EmptyString | None => false
  | Some _ => true
  end.

(** [fetchSessions]: [setLoading(true); websocketService.listSessions()] *)
Definition fetchSessions (st : State) : State * list Request :=
  ({| sessions := sessions st; loading := true; error := error st;
      currentSessionId := currentSessionId st;
      lastRefreshAt := lastRefreshAt st;
      currentSessionIdRef := currentSessionIdRef st |},
   [ListSessions]).

(** [handleSaveSessionResult]; [now] is what [Date.now()] returns. *)
Definition handleSaveSessionResult (data : SaveResult) (now : Z) (st : State)
  : State * list Request :=
  if success data then
    let st1 :=
      if truthy (session_id data)
      then {| sessions := sessions st; loading := loading st;
              error := error st;
              currentSessionId := session_id data;
              lastRefreshAt := lastRefreshAt st;
              currentSessionIdRef := session_id data |}
      else st in
    if 2000 <? now - lastRefreshAt st1 then
      fetchSessions
        {| sessions := sessions st1; loading := loading st1;
           error := error st1;
           currentSessionId := currentSessionId st1;
           lastRefreshAt := now;
           currentSessionIdRef := currentSessionIdRef st1 |}
    else (st1, [])
  else
    ({| sessions := sessions st; loading := loading st;
        error := Some "Failed to save session"%string;
        currentSessionId := currentSessionId st;
        lastRefreshAt := lastRefreshAt st;
        currentSessionIdRef := currentSessionIdRef st |}, []).

(** A run of [save_session_result] messages, each with its arrival time:
    the final state and the times at which the list was refreshed. *)
Fixpoint saves (messages : list (SaveResult * Z)) (st : State)
  : State * list Z :=
  match messages with
  | [] => (st, [])
  | (data, now) :: rest =>
      let '(st1, requests) := handleSaveSessionResult data now st in
      let '(st2, times) := saves rest st1 in
      (st2, match requests with [] => times | _ :: _ => now :: times end)
  end.

(** Each time of the list is more than 2000 ms after the one before it,
    the first more than 2000 ms after [last]. *)
Fixpoint spaced (last : Z) (times : list Z) : Prop :=
  match times with
  | [] => True
  | t :: rest => 2000 < t - last /\ spaced t rest
  end.

Lemma handleSaveSessionResult_refresh data now st :
  let '(st1, requests) := handleSaveSessionResult data now st in
  (requests = [ListSessions]
   /\ 2000 < now - lastRefreshAt st /\ lastRefreshAt st1 = now)
  \/ (requests = [] /\ lastRefreshAt st1 = lastRefreshAt st).
Proof.
  unfold handleSaveSessionResult.
  destruct (success data); [|right; split; reflexivity].
  destruct (truthy (session_id data)); cbn [lastRefreshAt];
    destruct (Z.ltb_spec 2000 (now - lastRefreshAt st));
    cbn; auto.
Qed.

Lemma saves_spaced messages : forall st,
  spaced (lastRefreshAt st) (saves messages st).2.
Proof.
  induction messages as [|[data now] rest IH]; intros st; cbn [saves].
  - exact I.
  - pose proof (handleSaveSessionResult_refresh data now st) as H.
    destruct (handleSaveSessionResult data now st) as [st1 requests].
    specialize (IH st1). destruct (saves rest st1) as [st2 times].
    cbn [snd] in *.
    destruct H as [(-> & Hgap & Hlast) | (-> & Hlast)].
    + rewrite Hlast in IH. split; assumption.
    + rewrite Hlast in IH. exact IH.
Qed.

Lemma spaced_lower (last : Z) (times : list Z) (t : Z) :
  spaced last times -> t ∈ times -> 2000 < t - last.
Proof.
  revert last. induction times as [|u rest IH]; intros last Hs Hin.
  - apply elem_of_nil in Hin. destruct Hin.
  - destruct Hs as [Hu Hrest].
    apply elem_of_cons in Hin as [-> | Hin]; [exact Hu|].
    specialize (IH u Hrest Hin). lia.
Qed.

Lemma spaced_beyond_window (w : Z) (times : list Z) : forall last,
  spaced last times -> w <= last ->
  filter (fun t : Z => w <= t <= w + 2000) times = [].
Proof.
  induction times as [|u rest IH]; intros last Hs Hw; [reflexivity|].
  destruct Hs as [Hu Hrest].
  rewrite filter_cons_False by lia.
  apply (IH u Hrest). lia.
Qed.

Lemma spaced_window (w : Z) (times : list Z) : forall last,
  spaced last times ->
  (length (filter (fun t : Z => (w <= t <= w + 2000)%Z) times) <= 1)%nat.
Proof.
  induction times as [|u rest IH]; intros last Hs; [cbn; lia|].
  destruct Hs as [Hu Hrest].
  destruct (decide (w <= u <= w + 2000)) as [Hin|Hout].
  - rewrite filter_cons_True by exact Hin.
    rewrite (spaced_beyond_window w rest u Hrest) by lia.
    cbn. lia.
  - rewrite filter_cons_False by exact Hout.
    apply (IH u Hrest).
Qed.

Lemma spaced_pairwise (times : list Z) : forall last (i j : nat) t1 t2,
  spaced last times -> (i < j)%nat ->
  times !! i = Some t1 -> times !! j = Some t2 ->
  2000 < t2 - t1.
Proof.
  induction times as [|u rest IH]; intros last i j t1 t2 Hs Hij Hi Hj.
  - discriminate Hi.
  - destruct Hs as [Hu Hrest].
    destruct j as [|j]; [lia|]. cbn in Hj.
    destruct i as [|i]; cbn in Hi.
    + injection Hi as <-.
      apply (spaced_lower u rest t2 Hrest).
      apply list_elem_of_lookup. exists j. exact Hj.
    + apply (IH u i j t1 t2 Hrest); [lia | assumption..].
Qed.

(** C9. Over any sequence of [save_session_result] messages, whatever
    their arrival times, a refresh of the sessions list is requested only
    when more than 2000 ms separate the message from the previous refresh
    ([lastRefreshAt]): any two refreshes are more than 2000 ms apart, so
    every window of 2000 ms holds at most one. *)
Theorem C9_refresh_throttled
    (messages : list (SaveResult * Z)) (st : State) :
  let times := (saves messages st).2 in
  (forall t, t ∈ times -> 2000 < t - lastRefreshAt st)
  /\ (forall (i j : nat) t1 t2,
        (i < j)%nat -> times !! i = Some t1 -> times !! j = Some t2 ->
        2000 < t2 - t1)
  /\ (forall w : Z,
        (length (filter (fun t : Z => (w <= t <= w + 2000)%Z) times) <= 1)%nat)
  /\ (forall data now,
        (handleSaveSessionResult data now st).2 = [ListSessions]
        <-> success data = true /\ 2000 < now - lastRefreshAt st).
Proof.
  cbv zeta. pose proof (saves_spaced messages st) as Hs.
  split; [|split; [|split]].
  - intros t Ht. eapply spaced_lower; eassumption.
  - intros i j t1 t2 Hij Hi Hj. eapply spaced_pairwise; eassumption.
  - intros w. eapply spaced_window; eassumption.
  - intros data now. unfold handleSaveSessionResult.
    destruct (success data); [|cbn; split; [discriminate | intros [? _]; discriminate]].
    destruct (truthy (session_id data)); cbn [lastRefreshAt];
      destruct (Z.ltb_spec 2000 (now - lastRefreshAt st)); cbn;
      split; try discriminate; auto; intros [_ ?]; lia.
Qed.

(** *** The other listeners, and what the user can do

    The remaining websocket listeners of the mount effect, and the
    handlers behind the component's buttons. State setters called in one
    handler are batched; as none is given an updater function, the last
    call for each state variable wins. *)

Definition set_sessions (v : list Session) (st : State) : State :=
  {| sessions := v; loading := loading st; error := error st;
     currentSessionId := currentSessionId st;
     lastRefreshAt := lastRefreshAt st;
     currentSessionIdRef := currentSessionIdRef st |}.

Definition set_loading (v : bool) (st : State) : State :=
  {| sessions := sessions st; loading := v; error := error st;
     currentSessionId := currentSessionId st;
     lastRefreshAt := lastRefreshAt st;
     currentSessionIdRef := currentSessionIdRef st |}.

Definition set_error (v : option string) (st : State) : State :=
  {| sessions := sessions st; loading := loading st; error := v;
     currentSessionId := currentSessionId st;
     lastRefreshAt := lastRefreshAt st;
     currentSessionIdRef := currentSessionIdRef st |}.

(** [setCurrentSessionId(v); currentSessionIdRef.current = v] *)
Definition set_current (v : option string) (st : State) : State :=
  {| sessions := sessions st; loading := loading st; error := error st;
     currentSessionId := v;
     lastRefreshAt := lastRefreshAt st;
     currentSessionIdRef := v |}.

(** The payload of a [load_session_result] or [delete_session_result]
    message; it names the session concerned. *)
Module Result.
Record t := {
  success : bool;
  session_id : string
}.
End Result.

(** [handleListSessionsResult]: [sessions] is [None] when the message has
    no list (an empty list is truthy). *)
Definition handleListSessionsResult (sessions' : option (list Session))
    (st : State) : State * list Request :=
  let st1 :=
    match sessions' with
    | Some list => set_sessions list st
    | None => st
    end in
  (set_loading false st1, []).

(** [handleLoadSessionResult] *)
Definition handleLoadSessionResult (data : Result.t) (st : State)
  : State * list Request :=
  let st1 :=
    if Result.success data
    then set_current (Some (Result.session_id data)) st
    else set_error
           (Some (String.append "Failed to load session: "
                                (Result.session_id data))) st in
  (set_loading false st1, []).

(** [handleDeleteSessionResult] *)
Definition handleDeleteSessionResult (data : Result.t) (st : State)
  : State * list Request :=
  let '(st2, requests) :=
    if Result.success data then
      let st1 :=
        if bool_decide (Some (Result.session_id data)
                        = currentSessionIdRef st)
        then set_current None st
        else st in
      fetchSessions st1
    else
      (set_error
         (Some (String.append "Failed to delete session: "
                              (Result.session_id data))) st, []) in
  (set_loading false st2, requests).

(** [s.includes(sub)] *)
Definition includes (s sub : string) : bool :=
  match String.index 0 sub s with
  | Some _ => true
  | None => false
  end.

(** [handleError]: [error'] is [None] when the message has no [error]. *)
Definition handleError (error' : option string) (st : State)
  : State * list Request :=
  match error' with
  | Some message =>
      if truthy error'
         && (includes message "conversation" || includes message "session")
      then (set_error error' (set_loading false st), [])
      else (st, [])
  | None => (st, [])
  end.

(** [loadSession] *)
Definition loadSession (sessionId : string) (st : State)
  : State * list Request :=
  (set_loading true st, [LoadSession sessionId]).

(** [deleteSession]; [confirmed] is what [window.confirm] returns. *)
Definition deleteSession (sessionId : string) (confirmed : bool) (st : State)
  : State * list Request :=
  if confirmed then (set_loading true st, [DeleteSession sessionId])
  else (st, []).

(** Everything that can happen to the mounted component. *)
Inductive Event :=
  | Mount                                          (* the effect's fetchSessions() *)
  | ListSessionsResult (sessions' : option (list Session))
  | SaveSessionResult (data : SaveResult) (now : Z)
  | LoadSessionResult (data : Result.t)
  | DeleteSessionResult (data : Result.t)
  | ErrorMessage (error' : option string)
  | ClickLoad (sessionId : string)
  | ClickDelete (sessionId : string) (confirmed : bool)
  | DismissError.                                  (* setError(null) *)

Definition react (e : Event) (st : State) : State * list Request :=
  match e with
  | Mount => fetchSessions st
  | ListSessionsResult sessions' => handleListSessionsResult sessions' st
  | SaveSessionResult data now => handleSaveSessionResult data now st
  | LoadSessionResult data => handleLoadSessionResult data st
  | DeleteSessionResult data => handleDeleteSessionResult data st
  | ErrorMessage error' => handleError error' st
  | ClickLoad sessionId => loadSession sessionId st
  | ClickDelete sessionId confirmed => deleteSession sessionId confirmed st
  | DismissError => (set_error None st, [])
  end.

(** A sequence of events: the final state and the requests sent. *)
Fixpoint reacts (events : list Event) (st : State) : State * list Request :=
  match events with
  | [] => (st, [])
  | e :: rest =>
      let '(st1, requests) := react e st in
      let '(st2, requests') := reacts rest st1 in
      (st2, requests ++ requests')
  end.

Lemma reacts_cons (e : Event) (rest : list Event) (st : State) :
  reacts (e :: rest) st
  = ((reacts rest (react e st).1).1,
     (react e st).2 ++ (reacts rest (react e st).1).2).
Proof.
  cbn [reacts]. destruct (react e st) as [st1 requests]. cbn [fst snd].
  destruct (reacts rest st1) as [st2 requests']. reflexivity.
Qed.

Lemma react_ref_mirrors (e : Event) (st : State) :
  currentSessionIdRef st = currentSessionId st ->
  currentSessionIdRef (react e st).1 = currentSessionId (react e st).1.
Proof.
  intros H. destruct e; cbn [react]; try exact H.
  - destruct sessions'; exact H.
  - unfold handleSaveSessionResult.
    destruct (success data); [|exact H].
    destruct (truthy (session_id data));
      cbn [lastRefreshAt]; destruct (2000 <? _); first [ exact H | reflexivity ].
  - unfold handleLoadSessionResult.
    destruct (Result.success data); [reflexivity | exact H].
  - unfold handleDeleteSessionResult.
    destruct (Result.success data); [|exact H].
    case_bool_decide; [reflexivity | exact H].
  - unfold handleError. destruct error' as [message|]; [|exact H].
    destruct (truthy (Some message) && _); exact H.
  - unfold deleteSession. destruct confirmed; exact H.
Qed.

(** X23. The ref [currentSessionIdRef] always holds what the state
    variable [currentSessionId] holds: every handler that sets one sets the
    other to the same value, so the listeners, which can only read the
    ref, never act on a stale current session. *)
Theorem X23_ref_mirrors_current_session
    (events : list Event) (st : State) :
  currentSessionIdRef st = currentSessionId st ->
  currentSessionIdRef (reacts events st).1
  = currentSessionId (reacts events st).1.
Proof.
  revert st. induction events as [|e rest IH]; intros st H; [exact H|].
  rewrite reacts_cons. cbn [fst].
  apply IH, react_ref_mirrors, H.
Qed.

(** X24. A successful [delete_session_result] always asks for the sessions
    list again, forgets the current session exactly when it is the deleted
    one, and leaves the [loading] flag down although the list request has
    just been sent: the flag raised by [fetchSessions] is lowered by the
    handler's last statement. A failed one sends nothing, keeps the current
    session and reports the session id in the error. *)
Theorem X24_delete_result (data : Result.t) (st : State) :
  let r := handleDeleteSessionResult data st in
  loading r.1 = false
  /\ sessions r.1 = sessions st
  /\ lastRefreshAt r.1 = lastRefreshAt st
  /\ if Result.success data
     then r.2 = [ListSessions]
          /\ error r.1 = error st
          /\ currentSessionId r.1
             = (if bool_decide (currentSessionIdRef st
                                = Some (Result.session_id data))
                then None else currentSessionId st)
          /\ (fetchSessions st).2 = r.2
          /\ loading (fetchSessions st).1 = true
     else r.2 = []
          /\ currentSessionId r.1 = currentSessionId st
          /\ error r.1
             = Some (String.append "Failed to delete session: "
                                   (Result.session_id data)).
Proof.
  cbv zeta. unfold handleDeleteSessionResult.
  destruct (Result.success data).
  - repeat split; try reflexivity;
      repeat case_bool_decide; first [ reflexivity | congruence ].
  - repeat split; reflexivity.
Qed.

(** The events that can leave an error displayed: all but the button that
    dismisses it. *)
Definition keepsError (e : Event) : bool :=
  match e with DismissError => false | _ => true end.

Lemma react_keeps_error (e : Event) (st : State) :
  keepsError e = true -> is_Some (error st) -> is_Some (error (react e st).1).
Proof.
  intros He H. destruct e; cbn [react]; try exact H; try discriminate He.
  - destruct sessions'; exact H.
  - unfold handleSaveSessionResult.
    destruct (success data); [|eexists; reflexivity].
    destruct (truthy (session_id data));
      cbn [lastRefreshAt]; destruct (2000 <? _); exact H.
  - unfold handleLoadSessionResult.
    destruct (Result.success data); [exact H | eexists; reflexivity].
  - unfold handleDeleteSessionResult.
    destruct (Result.success data); [|eexists; reflexivity].
    case_bool_decide; exact H.
  - unfold handleError. destruct error' as [message|]; [|exact H].
    destruct (truthy (Some message) && _); [eexists; reflexivity | exact H].
  - unfold deleteSession. destruct confirmed; exact H.
Qed.

(** X25. An error message, once displayed, stays displayed until the user
    dismisses it: no result, however successful, and no other action
    clears it; a later failure can only replace it. *)
Theorem X25_error_stays_until_dismissed
    (events : list Event) (st : State) :
  (forall e, e ∈ events -> keepsError e = true) ->
  is_Some (error st) ->
  is_Some (error (reacts events st).1).
Proof.
  revert st. induction events as [|e rest IH]; intros st Hall H; [exact H|].
  rewrite reacts_cons. cbn [fst].
  apply IH.
  - intros e' He'. apply Hall. right. exact He'.
  - apply react_keeps_error; [apply Hall; left | exact H].
Qed.

Lemma X23_witness :
  let events :=
    [Mount; LoadSessionResult {| Result.success := true;
                                 Result.session_id := "s1" |};
     DeleteSessionResult {| Result.success := true;
                            Result.session_id := "s1" |}] in
  currentSessionIdRef initial = currentSessionId initial
  /\ currentSessionIdRef (reacts events initial).1
     = currentSessionId (reacts events initial).1.
Proof.
  split; [reflexivity|].
  apply (X23_ref_mirrors_current_session _ initial). reflexivity.
Defined.

Lemma X25_witness :
  let failed := (handleLoadSessionResult
                   {| Result.success := false; Result.session_id := "s1" |}
                   initial).1 in
  let events :=
    [LoadSessionResult {| Result.success := true;
                          Result.session_id := "s2" |};
     ListSessionsResult (Some [])] in
  is_Some (error failed) /\ is_Some (error (reacts events failed).1).
Proof.
  cbv zeta. split; [eexists; reflexivity|].
  apply X25_error_stays_until_dismissed.
  - intros e He.
    repeat (apply elem_of_cons in He as [->|He]; [reflexivity|]).
    apply elem_of_nil in He. destruct He.
  - eexists; reflexivity.
Defined.

End SessionManager.
